(** * go-eth2-client: textual codec of [altair.BeaconBlock]

    A shallow embedding of [spec/altair/beaconblock.go] together with the
    parts of the Go standard library it calls ([strconv.ParseUint],
    [fmt.Sprintf] with the verbs [%d] and [%#x], [encoding/hex],
    [strings.TrimPrefix], [encoding/json] and [pkg/errors]).

    Go strings are byte strings: they are modelled by [string] (a list of
    8-bit [ascii]).  Byte arrays are [list byte].  Unsigned 64-bit integers
    are [N] with the wrap-around written out where the Go code relies on it.
    A method with a pointer receiver that returns [error] becomes a function
    from the receiver's state to the new state and an [option error]. *)

From Stdlib Require Import NArith ZArith Lia Bool List String Ascii.
From Stdlib.Strings Require Import Byte.
Import ListNotations.

Local Open Scope string_scope.
Local Open Scope N_scope.

Set Implicit Arguments.

(* ================================================================= *)
(** ** Errors *)

(** [encoding/json] syntax errors.  Only the two classes the scanner
    distinguishes are kept: running out of input, and a byte that cannot
    continue the text. *)
Inductive syntax_error : Type :=
| UnexpectedEnd
| InvalidCharacter (c : ascii).

(** The textual kinds named by [json.UnmarshalTypeError.Value]; a [null]
    is never reported. *)
Inductive json_kind : Type :=
| KNull | KBool | KNumber | KString | KArray | KObject.

Inductive error : Type :=
| New (msg : string)                          (* errors.New(msg) *)
| Wrap (cause : error) (msg : string)         (* errors.Wrap(cause, msg) *)
| SyntaxError (e : syntax_error)              (* *json.SyntaxError *)
| UnmarshalTypeError (value : json_kind) (field : string)
                                              (* *json.UnmarshalTypeError *)
| NumError (func num : string) (err : error)  (* *strconv.NumError *)
| ErrSyntax                                   (* strconv.ErrSyntax *)
| ErrRange                                    (* strconv.ErrRange *)
| InvalidByteError (c : ascii)                (* hex.InvalidByteError *)
| ErrLength.                                  (* hex.ErrLength *)

Definition syntax_error_message (e : syntax_error) : string :=
  match e with
  | UnexpectedEnd => "unexpected end of JSON input"
  | InvalidCharacter _ => "invalid character"
  end.

(** [pkg/errors.Cause]: the innermost error of a chain of [Wrap]s. *)
Fixpoint Cause (e : error) : error :=
  match e with
  | Wrap c _ => Cause c
  | _ => e
  end.

(** A value or an error, for the library functions that return
    [(T, error)]. *)
Inductive result (A : Type) : Type :=
| OK (a : A)
| Err (e : error).
Arguments OK {A} a.
Arguments Err {A} e.

Definition bind {A B : Type} (r : result A) (k : A -> result B) : result B :=
  match r with
  | OK a => k a
  | Err e => Err e
  end.

Notation "x <- r ;; k" := (bind r (fun x => k))
  (at level 61, r at next level, right associativity).

(* ================================================================= *)
(** ** strconv, fmt, strings, encoding/hex *)

Definition maxUint64 : N := 2 ^ 64 - 1.

Definition is_digit (c : ascii) : bool :=
  (48 <=? N_of_ascii c) && (N_of_ascii c <=? 57).

(** The loop of [strconv.ParseUint(s, 10, 64)].  [n] is the value read so
    far.  A byte that is not a decimal digit is a syntax error; [cutoff] is
    the first value whose product by ten overflows; the sum is computed
    modulo 2^64 and an overflow is found as the Go code finds it. *)
Fixpoint ParseUint_loop (s : string) (n : N) : result N :=
  match s with
  | EmptyString => OK n
  | String c s' =>
      if is_digit c then
        let d := N_of_ascii c - 48 in
        let cutoff := maxUint64 / 10 + 1 in
        if cutoff <=? n then Err ErrRange
        else
          let n := n * 10 in
          let n1 := (n + d) mod 2 ^ 64 in
          if (n1 <? n) || (maxUint64 <? n1) then Err ErrRange
          else ParseUint_loop s' n1
      else Err ErrSyntax
  end.

(** [strconv.ParseUint(s, 10, 64)]. *)
Definition ParseUint (s : string) : result N :=
  match s with
  | EmptyString => Err (NumError "ParseUint" s ErrSyntax)
  | _ =>
      match ParseUint_loop s 0 with
      | OK n => OK n
      | Err e => Err (NumError "ParseUint" s e)
      end
  end.

(** The digits of [fmt.Sprintf("%d", n)]: each round writes the last
    digit of [n] in front of [acc] and goes on with the quotient while
    [n] is 10 or more. *)
Fixpoint fmt_d_loop (fuel : nat) (n : N) (acc : string) : string :=
  let acc := String (ascii_of_N (48 + n mod 10)) acc in
  match fuel with
  | O => acc
  | S fuel => if n <? 10 then acc else fmt_d_loop fuel (n / 10) acc
  end.

(** [fmt.Sprintf("%d", n)] for an unsigned integer. *)
Definition Sprintf_d (n : N) : string :=
  fmt_d_loop (N.to_nat (N.log2 n)) n "".

Definition hextable : string := "0123456789abcdef".

Definition hex_char (n : N) : ascii :=
  match String.get (N.to_nat n) hextable with
  | Some c => c
  | None => "0"%char
  end.

(** [hex.EncodeToString]: two lower-case digits per byte. *)
Fixpoint hex_encode (bs : list byte) : string :=
  match bs with
  | [] => ""
  | b :: bs' =>
      String (hex_char (Byte.to_N b / 16))
        (String (hex_char (Byte.to_N b mod 16)) (hex_encode bs'))
  end.

(** [fmt.Sprintf("%#x", bs)] for a byte array. *)
Definition Sprintf_sharp_x (bs : list byte) : string :=
  "0x" ++ hex_encode bs.

(** [hex.fromHexChar]: digits and letters of either case. *)
Definition fromHexChar (c : ascii) : option N :=
  let n := N_of_ascii c in
  if (48 <=? n) && (n <=? 57) then Some (n - 48)
  else if (97 <=? n) && (n <=? 102) then Some (n - 97 + 10)
  else if (65 <=? n) && (n <=? 70) then Some (n - 65 + 10)
  else None.

Definition byte_of_N (n : N) : byte :=
  match Byte.of_N n with
  | Some b => b
  | None => x00
  end.

(** [hex.DecodeString]: pairs of digits; the first bad byte is reported,
    and an odd length only when every byte before it is a digit. *)
Fixpoint DecodeString (s : string) : result (list byte) :=
  match s with
  | EmptyString => OK []
  | String p EmptyString =>
      match fromHexChar p with
      | None => Err (InvalidByteError p)
      | Some _ => Err ErrLength
      end
  | String p (String q s') =>
      match fromHexChar p, fromHexChar q with
      | None, _ => Err (InvalidByteError p)
      | Some _, None => Err (InvalidByteError q)
      | Some a, Some b =>
          bs <- DecodeString s' ;;
          OK (byte_of_N (a * 16 + b) :: bs)
      end
  end.

(** [strings.TrimPrefix(s, prefix)]. *)
Definition TrimPrefix (s prefix : string) : string :=
  if String.prefix prefix s
  then String.substring (String.length prefix)
         (String.length s - String.length prefix)%nat s
  else s.

(** The built-in [copy(dst, src)] on byte slices: the first
    [min(len(dst), len(src))] bytes of [dst] are overwritten. *)
Definition copy (dst src : list byte) : list byte :=
  let n := Nat.min (List.length dst) (List.length src) in
  firstn n src ++ skipn n dst.

(* ================================================================= *)
(** ** Textual trees *)

(** A JSON text after [encoding/json] has scanned it.  A number keeps its
    literal; the members of an object keep their order and duplicates. *)
#[warnings="-register-all"]
Inductive json : Type :=
| JNull
| JBool (b : bool)
| JNumber (lit : string)
| JString (s : string)
| JArray (elems : list json)
| JObject (members : list (string * json)).

Definition kind_of (v : json) : json_kind :=
  match v with
  | JNull => KNull
  | JBool _ => KBool
  | JNumber _ => KNumber
  | JString _ => KString
  | JArray _ => KArray
  | JObject _ => KObject
  end.

(** A YAML document as [goccy/go-yaml] builds it from a Go value: a Go
    [uint64] becomes an integer scalar, a Go [string] a string scalar. *)
#[warnings="-register-all"]
Inductive yaml : Type :=
| YNull
| YInteger (n : N)
| YString (s : string)
| YSequence (elems : list yaml)
| YMapping (members : list (string * yaml)).

(** [json.Marshaler] and [json.Unmarshaler], with [yaml.BytesMarshaler],
    for a type whose methods are declared in another file of the
    repository.  The methods exchange the tree of the text they write or
    read. *)
Class TextCodec (T : Type) : Type := {
  codec_MarshalJSON : T -> json;
  codec_UnmarshalJSON : json -> result T;
  codec_MarshalYAML : T -> yaml
}.

(* ================================================================= *)
(** ** encoding/json: the text *)

(** *** Writing *)

(** The double quote, written by its code. *)
Definition dquote : ascii := ascii_of_N 34.

(** The bytes [encoding/json] copies into a string literal as they are
    ([htmlSafeSet]); it writes every other byte below 0x80 as an escape. *)
Definition html_safe (c : ascii) : bool :=
  let n := N_of_ascii c in
  (32 <=? n) && negb (n =? 34) && negb (n =? 38) && negb (n =? 60)
  && negb (n =? 62) && negb (n =? 92).

(** One byte of a string literal.  Bytes from 0x80 on are copied: the
    strings at hand are ASCII, and the replacement of invalid UTF-8 is not
    modelled. *)
Definition encode_char (c : ascii) : string :=
  let n := N_of_ascii c in
  if html_safe c then String c ""
  else if n =? 34 then String "\"%char (String dquote "")
  else if n =? 92 then "\\"
  else if n =? 8 then "\b"
  else if n =? 12 then "\f"
  else if n =? 10 then "\n"
  else if n =? 13 then "\r"
  else if n =? 9 then "\t"
  else "\u00" ++ String (hex_char (n / 16)) (String (hex_char (n mod 16)) "").

Fixpoint encode_chars (s : string) : string :=
  match s with
  | EmptyString => ""
  | String c s' => encode_char c ++ encode_chars s'
  end.

Definition encode_string (s : string) : string :=
  String dquote (encode_chars s ++ String dquote "").

Fixpoint join (sep : string) (parts : list string) : string :=
  match parts with
  | [] => ""
  | [p] => p
  | p :: ps => p ++ sep ++ join sep ps
  end.

(** [json.Marshal] writes the compact form: no white space, the members
    in the order given. *)
Fixpoint encode (v : json) : string :=
  match v with
  | JNull => "null"
  | JBool true => "true"
  | JBool false => "false"
  | JNumber lit => lit
  | JString s => encode_string s
  | JArray elems => "[" ++ join "," (map encode elems) ++ "]"
  | JObject members =>
      "{" ++ join ","
               (map (fun m => encode_string (fst m) ++ ":" ++ encode (snd m))
                  members)
          ++ "}"
  end.

(** *** Reading: the scanner *)

Inductive token : Type :=
| TLBrace | TRBrace | TLBracket | TRBracket | TColon | TComma
| TString (s : string)
| TNumber (lit : string)
| TTrue | TFalse | TNull
| TError (e : syntax_error).

(** The states of the scanner inside a number ([stateNeg], [state0],
    [state1], [stateDot], [stateDot0], [stateE], [stateESign], [stateE0]). *)
Inductive num_state : Type :=
| NNeg | NZero | NInt | NDot | NDot0 | NE | NESign | NE0.

Inductive lex_state : Type :=
| LStart
| LStr (acc : string)                      (* inside a string literal *)
| LEsc (acc : string)                      (* after a backslash *)
| LU (acc : string) (digits : list N)      (* inside \uXXXX *)
| LNum (st : num_state) (acc : string)     (* inside a number *)
| LLit (rest : string) (t : token)         (* inside true, false, null *)
| LDead.                                   (* after an error *)

Definition is_space (c : ascii) : bool :=
  let n := N_of_ascii c in
  (n =? 32) || (n =? 9) || (n =? 13) || (n =? 10).

(** A number is complete in these states; the byte that follows is read
    again as the start of the next token. *)
Definition num_final (st : num_state) : bool :=
  match st with
  | NZero | NInt | NDot0 | NE0 => true
  | _ => false
  end.

Definition is_e (c : ascii) : bool :=
  (N_of_ascii c =? 101) || (N_of_ascii c =? 69).

Definition num_step (st : num_state) (c : ascii) : option num_state :=
  let n := N_of_ascii c in
  match st with
  | NNeg => if n =? 48 then Some NZero
            else if is_digit c then Some NInt else None
  | NZero => if n =? 46 then Some NDot
             else if is_e c then Some NE else None
  | NInt => if is_digit c then Some NInt
            else if n =? 46 then Some NDot
            else if is_e c then Some NE else None
  | NDot => if is_digit c then Some NDot0 else None
  | NDot0 => if is_digit c then Some NDot0
             else if is_e c then Some NE else None
  | NE => if (n =? 43) || (n =? 45) then Some NESign
          else if is_digit c then Some NE0 else None
  | NESign => if is_digit c then Some NE0 else None
  | NE0 => if is_digit c then Some NE0 else None
  end.

(** The UTF-8 bytes of the code point of a [\uXXXX] escape.  A surrogate
    half becomes U+FFFD; joining two halves is not modelled. *)
Definition utf8 (r : N) : string :=
  if r <? 128 then String (ascii_of_N r) ""
  else if r <? 2048 then
    String (ascii_of_N (192 + r / 64)) (String (ascii_of_N (128 + r mod 64)) "")
  else
    let r := if (55296 <=? r) && (r <=? 57343) then 65533 else r in
    String (ascii_of_N (224 + r / 4096))
      (String (ascii_of_N (128 + (r / 64) mod 64))
         (String (ascii_of_N (128 + r mod 64)) "")).

Definition snoc (s : string) (c : ascii) : string := s ++ String c "".

Definition fail_at (c : ascii) : list token * lex_state :=
  ([TError (InvalidCharacter c)], LDead).

(** The first byte of a token. *)
Definition start_step (c : ascii) : list token * lex_state :=
  let n := N_of_ascii c in
  if is_space c then ([], LStart)
  else if n =? 123 then ([TLBrace], LStart)
  else if n =? 125 then ([TRBrace], LStart)
  else if n =? 91 then ([TLBracket], LStart)
  else if n =? 93 then ([TRBracket], LStart)
  else if n =? 58 then ([TColon], LStart)
  else if n =? 44 then ([TComma], LStart)
  else if n =? 34 then ([], LStr "")
  else if n =? 45 then ([], LNum NNeg (String c ""))
  else if n =? 48 then ([], LNum NZero (String c ""))
  else if is_digit c then ([], LNum NInt (String c ""))
  else if n =? 116 then ([], LLit "rue" TTrue)
  else if n =? 102 then ([], LLit "alse" TFalse)
  else if n =? 110 then ([], LLit "ull" TNull)
  else fail_at c.

Definition unescape (c : ascii) : option ascii :=
  let n := N_of_ascii c in
  if (n =? 34) || (n =? 92) || (n =? 47) then Some c
  else if n =? 98 then Some (ascii_of_N 8)
  else if n =? 102 then Some (ascii_of_N 12)
  else if n =? 110 then Some (ascii_of_N 10)
  else if n =? 114 then Some (ascii_of_N 13)
  else if n =? 116 then Some (ascii_of_N 9)
  else None.

Definition hex_value (ds : list N) : N :=
  fold_left (fun a d => a * 16 + d) ds 0.

Definition lex_step (st : lex_state) (c : ascii) : list token * lex_state :=
  let n := N_of_ascii c in
  match st with
  | LStart => start_step c
  | LStr acc =>
      if n =? 34 then ([TString acc], LStart)
      else if n =? 92 then ([], LEsc acc)
      else if n <? 32 then fail_at c
      else ([], LStr (snoc acc c))
  | LEsc acc =>
      if n =? 117 then ([], LU acc [])
      else match unescape c with
           | Some c' => ([], LStr (snoc acc c'))
           | None => fail_at c
           end
  | LU acc ds =>
      match fromHexChar c with
      | Some d =>
          let ds := (ds ++ [d])%list in
          if Nat.eqb (List.length ds) 4 then ([], LStr (acc ++ utf8 (hex_value ds)))
          else ([], LU acc ds)
      | None => fail_at c
      end
  | LNum ns acc =>
      match num_step ns c with
      | Some ns' => ([], LNum ns' (snoc acc c))
      | None =>
          if num_final ns then
            let (ts, st') := start_step c in ((TNumber acc :: ts)%list, st')
          else fail_at c
      end
  | LLit rest t =>
      match rest with
      | String c' EmptyString =>
          if Ascii.eqb c c' then ([t], LStart) else fail_at c
      | String c' rest' =>
          if Ascii.eqb c c' then ([], LLit rest' t) else fail_at c
      | EmptyString => fail_at c
      end
  | LDead => ([], LDead)
  end.

(** The end of the input. *)
Definition lex_finish (st : lex_state) : list token :=
  match st with
  | LStart | LDead => []
  | LNum ns acc => if num_final ns then [TNumber acc] else [TError UnexpectedEnd]
  | _ => [TError UnexpectedEnd]
  end.

Fixpoint lex (st : lex_state) (s : string) : list token :=
  match s with
  | EmptyString => lex_finish st
  | String c s' =>
      let (ts, st') := lex_step st c in (ts ++ lex st' s')%list
  end.

(** *** Reading: the grammar *)

(** A byte to report for a token that stands where it may not. *)
Definition token_char (t : token) : ascii :=
  match t with
  | TLBrace => "{" | TRBrace => "}" | TLBracket => "[" | TRBracket => "]"
  | TColon => ":" | TComma => ","
  | TString _ => dquote
  | TNumber _ => "0"
  | TTrue => "t" | TFalse => "f" | TNull => "n"
  | TError _ => "?"
  end%char.

(** The error for the token list [ts] when no token of it can go on. *)
Definition unexpected {A : Type} (ts : list token) : result A :=
  match ts with
  | [] => Err (SyntaxError UnexpectedEnd)
  | TError e :: _ => Err (SyntaxError e)
  | t :: _ => Err (SyntaxError (InvalidCharacter (token_char t)))
  end.

(** One value and the tokens after it.  Every call reads a token before
    it calls again, so a fuel above the number of tokens is never used up. *)
Fixpoint parse_value (fuel : nat) (ts : list token)
  : result (json * list token) :=
  match fuel with
  | O => Err (SyntaxError UnexpectedEnd)
  | S fuel =>
      match ts with
      | TNull :: r => OK (JNull, r)
      | TTrue :: r => OK (JBool true, r)
      | TFalse :: r => OK (JBool false, r)
      | TNumber lit :: r => OK (JNumber lit, r)
      | TString s :: r => OK (JString s, r)
      | TLBracket :: TRBracket :: r => OK (JArray [], r)
      | TLBracket :: r =>
          p <- parse_value fuel r ;;
          q <- parse_elements fuel (snd p) ;;
          OK (JArray (fst p :: fst q), snd q)
      | TLBrace :: TRBrace :: r => OK (JObject [], r)
      | TLBrace :: TString k :: TColon :: r =>
          p <- parse_value fuel r ;;
          q <- parse_members fuel (snd p) ;;
          OK (JObject ((k, fst p) :: fst q), snd q)
      | TLBrace :: TString k :: r => unexpected r
      | TLBrace :: r => unexpected r
      | _ => unexpected ts
      end
  end

with parse_elements (fuel : nat) (ts : list token)
  : result (list json * list token) :=
  match fuel with
  | O => Err (SyntaxError UnexpectedEnd)
  | S fuel =>
      match ts with
      | TRBracket :: r => OK ([], r)
      | TComma :: r =>
          p <- parse_value fuel r ;;
          q <- parse_elements fuel (snd p) ;;
          OK (fst p :: fst q, snd q)
      | _ => unexpected ts
      end
  end

with parse_members (fuel : nat) (ts : list token)
  : result (list (string * json) * list token) :=
  match fuel with
  | O => Err (SyntaxError UnexpectedEnd)
  | S fuel =>
      match ts with
      | TRBrace :: r => OK ([], r)
      | TComma :: TString k :: TColon :: r =>
          p <- parse_value fuel r ;;
          q <- parse_members fuel (snd p) ;;
          OK ((k, fst p) :: fst q, snd q)
      | TComma :: TString k :: r => unexpected r
      | TComma :: r => unexpected r
      | _ => unexpected ts
      end
  end.

(** The whole input is one value: what [json.Unmarshal] checks before it
    stores anything, and the tree it then walks. *)
Definition parse (input : string) : result json :=
  let ts := lex LStart input in
  p <- parse_value (S (List.length ts)) ts ;;
  match snd p with
  | [] => OK (fst p)
  | rest => unexpected rest
  end.

(** *** Texts that are read back as they were written *)

Fixpoint ascii_only (s : string) : bool :=
  match s with
  | EmptyString => true
  | String c s' => (N_of_ascii c <? 128) && ascii_only s'
  end.

(** The scanner accepts [s] from the state [st] and ends in a state
    where a number is complete. *)
Fixpoint num_run (st : num_state) (s : string) : bool :=
  match s with
  | EmptyString => num_final st
  | String c s' =>
      match num_step st c with
      | Some st' => num_run st' s'
      | None => false
      end
  end.

Definition number_literal (lit : string) : bool :=
  match lit with
  | EmptyString => false
  | String c s =>
      if N_of_ascii c =? 45 then num_run NNeg s
      else if N_of_ascii c =? 48 then num_run NZero s
      else if is_digit c then num_run NInt s
      else false
  end.

(** The trees [encode] writes as a text of JSON: the numbers are number
    literals, the strings and keys are ASCII. *)
Fixpoint json_wf (v : json) : bool :=
  match v with
  | JNull | JBool _ => true
  | JNumber lit => number_literal lit
  | JString s => ascii_only s
  | JArray elems => forallb json_wf elems
  | JObject members =>
      forallb (fun m => ascii_only (fst m) && json_wf (snd m)) members
  end.

(** The tokens of the compact text of a tree. *)
Fixpoint tokens_of (v : json) : list token :=
  match v with
  | JNull => [TNull]
  | JBool true => [TTrue]
  | JBool false => [TFalse]
  | JNumber lit => [TNumber lit]
  | JString s => [TString s]
  | JArray [] => [TLBracket; TRBracket]
  | JArray (e :: elems) =>
      (TLBracket :: tokens_of e
         ++ flat_map (fun e => TComma :: tokens_of e) elems
         ++ [TRBracket])%list
  | JObject [] => [TLBrace; TRBrace]
  | JObject (m :: members) =>
      (TLBrace :: TString (fst m) :: TColon :: tokens_of (snd m)
         ++ flat_map
              (fun m => TComma :: TString (fst m) :: TColon :: tokens_of (snd m))
              members
         ++ [TRBrace])%list
  end.

(** Induction on a tree, with the hypothesis for every element of an
    array and every member of an object. *)
Section json_induction.

Variable P : json -> Prop.
Hypothesis P_null : P JNull.
Hypothesis P_bool : forall b, P (JBool b).
Hypothesis P_number : forall lit, P (JNumber lit).
Hypothesis P_string : forall s, P (JString s).
Hypothesis P_array : forall elems, Forall P elems -> P (JArray elems).
Hypothesis P_object :
  forall members, Forall (fun m => P (snd m)) members -> P (JObject members).

Fixpoint json_induction (v : json) : P v :=
  match v with
  | JNull => P_null
  | JBool b => P_bool b
  | JNumber lit => P_number lit
  | JString s => P_string s
  | JArray elems =>
      P_array
        ((fix all (l : list json) : Forall P l :=
            match l with
            | [] => Forall_nil P
            | e :: l' => Forall_cons e (json_induction e) (all l')
            end) elems)
  | JObject members =>
      P_object
        ((fix all (l : list (string * json))
            : Forall (fun m => P (snd m)) l :=
            match l with
            | [] => Forall_nil _
            | m :: l' =>
                @Forall_cons _ (fun m => P (snd m)) m l'
                  (json_induction (snd m)) (all l')
            end) members)
  end.

End json_induction.

(* ================================================================= *)
(** ** goccy/go-yaml: writing in flow style *)

(** A string scalar that would read as a number is written in double
    quotes; the hexadecimal strings of this file are of that kind. *)
Definition reads_as_number (s : string) : bool :=
  match s with
  | String c _ => is_digit c
  | EmptyString => false
  end.

Definition yaml_string (s : string) : string :=
  if reads_as_number s then String dquote (s ++ String dquote "") else s.

(** One line: mappings in braces, members separated by a comma and a
    space, keys bare. *)
Fixpoint yaml_flow (v : yaml) : string :=
  match v with
  | YNull => "null"
  | YInteger n => Sprintf_d n
  | YString s => yaml_string s
  | YSequence elems => "[" ++ join ", " (map yaml_flow elems) ++ "]"
  | YMapping members =>
      "{" ++ join ", "
               (map (fun m => fst m ++ ": " ++ yaml_flow (snd m)) members)
          ++ "}"
  end.

(** [yaml.MarshalWithOptions(v, yaml.Flow(true))]: the document and a
    line feed. *)
Definition yaml_Marshal_flow (v : yaml) : string :=
  yaml_flow v ++ String (ascii_of_N 10) "".

(** [bytes.ReplaceAll(s, old, new)] for one-byte [old] and [new]. *)
Fixpoint ReplaceAll (s : string) (old new : ascii) : string :=
  match s with
  | EmptyString => ""
  | String c s' =>
      String (if Ascii.eqb c old then new else c) (ReplaceAll s' old new)
  end.

(* ================================================================= *)
(** ** spec/altair/beaconblock.go *)

(** Modelled from the spec: [phase0.RootLength], the length of a root, is
    declared outside the files at hand; the spec has "a 32-byte root" and
    the struct tags have [ssz-size:"32"]. *)
Definition RootLength : nat := 32.

Section BeaconBlock.

(** [BeaconBlockBody], declared in another file of the package. *)
Context {BeaconBlockBody : Type} `{TextCodec BeaconBlockBody}.

(** [BeaconBlock] represents a beacon block.  [Body] is a pointer:
    [None] is [nil]. *)
Record BeaconBlock : Type := mkBeaconBlock {
  Slot : N;
  ProposerIndex : N;
  ParentRoot : list byte;
  StateRoot : list byte;
  Body : option BeaconBlockBody
}.

(** [beaconBlockJSON] is the spec representation of the struct. *)
Record beaconBlockJSON : Type := mkBeaconBlockJSON {
  json_Slot : string;
  json_ProposerIndex : string;
  json_ParentRoot : string;
  json_StateRoot : string;
  json_Body : option BeaconBlockBody
}.

(** [beaconBlockYAML] is the spec representation of the struct. *)
Record beaconBlockYAML : Type := mkBeaconBlockYAML {
  yaml_Slot : N;
  yaml_ProposerIndex : N;
  yaml_ParentRoot : string;
  yaml_StateRoot : string;
  yaml_Body : option BeaconBlockBody
}.

(** Assignments to the fields of the receiver. *)
Definition set_Slot (b : BeaconBlock) (v : N) : BeaconBlock :=
  mkBeaconBlock v (ProposerIndex b) (ParentRoot b) (StateRoot b) (Body b).
Definition set_ProposerIndex (b : BeaconBlock) (v : N) : BeaconBlock :=
  mkBeaconBlock (Slot b) v (ParentRoot b) (StateRoot b) (Body b).
Definition set_ParentRoot (b : BeaconBlock) (v : list byte) : BeaconBlock :=
  mkBeaconBlock (Slot b) (ProposerIndex b) v (StateRoot b) (Body b).
Definition set_StateRoot (b : BeaconBlock) (v : list byte) : BeaconBlock :=
  mkBeaconBlock (Slot b) (ProposerIndex b) (ParentRoot b) v (Body b).
Definition set_Body (b : BeaconBlock) (v : option BeaconBlockBody)
  : BeaconBlock :=
  mkBeaconBlock (Slot b) (ProposerIndex b) (ParentRoot b) (StateRoot b) v.

(** The struct literal of [MarshalJSON]. *)
Definition to_beaconBlockJSON (b : BeaconBlock) : beaconBlockJSON :=
  {| json_Slot := Sprintf_d (Slot b);
     json_ProposerIndex := Sprintf_d (ProposerIndex b);
     json_ParentRoot := Sprintf_sharp_x (ParentRoot b);
     json_StateRoot := Sprintf_sharp_x (StateRoot b);
     json_Body := Body b |}.

(** The struct literal of [MarshalYAML]. *)
Definition to_beaconBlockYAML (b : BeaconBlock) : beaconBlockYAML :=
  {| yaml_Slot := Slot b;
     yaml_ProposerIndex := ProposerIndex b;
     yaml_ParentRoot := Sprintf_sharp_x (ParentRoot b);
     yaml_StateRoot := Sprintf_sharp_x (StateRoot b);
     yaml_Body := Body b |}.

(** [unpack]: the fields are checked and assigned one after the other,
    and the first failure returns. *)
Definition unpack (b : BeaconBlock) (j : beaconBlockJSON)
  : BeaconBlock * option error :=
  if String.eqb (json_Slot j) "" then (b, Some (New "slot missing")) else
  match ParseUint (json_Slot j) with
  | Err err => (b, Some (Wrap err "invalid value for slot"))
  | OK slot =>
  let b := set_Slot b slot in
  if String.eqb (json_ProposerIndex j) "" then
    (b, Some (New "proposer index missing")) else
  match ParseUint (json_ProposerIndex j) with
  | Err err => (b, Some (Wrap err "invalid value for proposer index"))
  | OK proposerIndex =>
  let b := set_ProposerIndex b proposerIndex in
  if String.eqb (json_ParentRoot j) "" then
    (b, Some (New "parent root missing")) else
  match DecodeString (TrimPrefix (json_ParentRoot j) "0x") with
  | Err err => (b, Some (Wrap err "invalid value for parent root"))
  | OK parentRoot =>
  if negb (Nat.eqb (List.length parentRoot) RootLength) then
    (b, Some (New "incorrect length for parent root")) else
  let b := set_ParentRoot b (copy (ParentRoot b) parentRoot) in
  if String.eqb (json_StateRoot j) "" then
    (b, Some (New "state root missing")) else
  match DecodeString (TrimPrefix (json_StateRoot j) "0x") with
  | Err err => (b, Some (Wrap err "invalid value for state root"))
  | OK stateRoot =>
  if negb (Nat.eqb (List.length stateRoot) RootLength) then
    (b, Some (New "incorrect length for state root")) else
  let b := set_StateRoot b (copy (StateRoot b) stateRoot) in
  match json_Body j with
  | None => (b, Some (New "body missing"))
  | Some body =>
  let b := set_Body b (Some body) in
  (b, None)
  end end end end end.

(** *** json.Unmarshal into [beaconBlockJSON] *)

Definition to_lower (c : ascii) : ascii :=
  let n := N_of_ascii c in
  if (65 <=? n) && (n <=? 90) then ascii_of_N (n + 32) else c.

(** The two letters outside ASCII that fold to an ASCII letter, in
    UTF-8: the long s, U+017F, and the Kelvin sign, U+212A. *)
Definition is_long_s (c d : ascii) : bool :=
  (N_of_ascii c =? 197) && (N_of_ascii d =? 191).

Definition is_kelvin (c d e : ascii) : bool :=
  (N_of_ascii c =? 226) && (N_of_ascii d =? 132) && (N_of_ascii e =? 170).

(** The key as [encoding/json] folds it before it looks for the field
    ([foldName], which agrees with [bytes.EqualFold]): the letters of
    ASCII by case, the long s to s and the Kelvin sign to k; every other
    byte is kept, and so equals no byte of a tag. *)
Fixpoint fold_case (s : string) : string :=
  match s with
  | EmptyString => ""
  | String c s1 =>
      match s1 with
      | EmptyString => String (to_lower c) ""
      | String d s2 =>
          if is_long_s c d then String "s" (fold_case s2)
          else
            match s2 with
            | EmptyString => String (to_lower c) (fold_case s1)
            | String e s3 =>
                if is_kelvin c d e then String "k" (fold_case s3)
                else String (to_lower c) (fold_case s1)
            end
      end
  end.

(** A member is stored in the field whose [json] tag is its key, up to
    that folding; the tags are in lower case. *)
Definition key_is (tag key : string) : bool :=
  String.eqb (fold_case key) tag.

Definition zero_beaconBlockJSON : beaconBlockJSON :=
  mkBeaconBlockJSON "" "" "" "" None.

(** A value for a field of type [string]: a string is stored, [null]
    leaves the field as it is, anything else is a type error. *)
Definition store_string (field : string) (v : json) (old : string)
  : string * option error :=
  match v with
  | JString s => (s, None)
  | JNull => (old, None)
  | _ => (old, Some (UnmarshalTypeError (kind_of v) field))
  end.

(** The decoder keeps the first type error and goes on. *)
Definition save_error (saved new : option error) : option error :=
  match saved with
  | Some e => Some e
  | None => new
  end.

(** One member of the object.  An error of the body's own
    [UnmarshalJSON] ends the decoding at once. *)
Definition decode_member (st : beaconBlockJSON * option error)
    (m : string * json) : result (beaconBlockJSON * option error) :=
  let (j, saved) := st in
  let (key, v) := m in
  if key_is "slot" key then
    let (s, e) := store_string "beaconBlockJSON.slot" v (json_Slot j) in
    OK (mkBeaconBlockJSON s (json_ProposerIndex j) (json_ParentRoot j)
          (json_StateRoot j) (json_Body j), save_error saved e)
  else if key_is "proposer_index" key then
    let (s, e) :=
      store_string "beaconBlockJSON.proposer_index" v (json_ProposerIndex j) in
    OK (mkBeaconBlockJSON (json_Slot j) s (json_ParentRoot j)
          (json_StateRoot j) (json_Body j), save_error saved e)
  else if key_is "parent_root" key then
    let (s, e) :=
      store_string "beaconBlockJSON.parent_root" v (json_ParentRoot j) in
    OK (mkBeaconBlockJSON (json_Slot j) (json_ProposerIndex j) s
          (json_StateRoot j) (json_Body j), save_error saved e)
  else if key_is "state_root" key then
    let (s, e) :=
      store_string "beaconBlockJSON.state_root" v (json_StateRoot j) in
    OK (mkBeaconBlockJSON (json_Slot j) (json_ProposerIndex j)
          (json_ParentRoot j) s (json_Body j), save_error saved e)
  else if key_is "body" key then
    match v with
    | JNull =>
        OK (mkBeaconBlockJSON (json_Slot j) (json_ProposerIndex j)
              (json_ParentRoot j) (json_StateRoot j) None, saved)
    | _ =>
        body <- codec_UnmarshalJSON v ;;
        OK (mkBeaconBlockJSON (json_Slot j) (json_ProposerIndex j)
              (json_ParentRoot j) (json_StateRoot j) (Some body), saved)
    end
  else OK st.

Fixpoint decode_members (ms : list (string * json))
    (st : beaconBlockJSON * option error)
  : result (beaconBlockJSON * option error) :=
  match ms with
  | [] => OK st
  | m :: ms' => st' <- decode_member st m ;; decode_members ms' st'
  end.

(** The tree of a text into a fresh [beaconBlockJSON]. *)
Definition decode_beaconBlockJSON (v : json) : result beaconBlockJSON :=
  match v with
  | JNull => OK zero_beaconBlockJSON
  | JObject ms =>
      st <- decode_members ms (zero_beaconBlockJSON, None) ;;
      match snd st with
      | Some e => Err e
      | None => OK (fst st)
      end
  | _ => Err (UnmarshalTypeError (kind_of v) "")
  end.

(** [json.Unmarshal(input, &beaconBlockJSON)]. *)
Definition Unmarshal_beaconBlockJSON (input : string)
  : result beaconBlockJSON :=
  v <- parse input ;; decode_beaconBlockJSON v.

(** *** json.Marshal of [beaconBlockJSON] *)

Definition encode_Body (body : option BeaconBlockBody) : json :=
  match body with
  | None => JNull
  | Some x => codec_MarshalJSON x
  end.

Definition tree_of_beaconBlockJSON (j : beaconBlockJSON) : json :=
  JObject [ ("slot", JString (json_Slot j));
            ("proposer_index", JString (json_ProposerIndex j));
            ("parent_root", JString (json_ParentRoot j));
            ("state_root", JString (json_StateRoot j));
            ("body", encode_Body (json_Body j)) ].

Definition Marshal_beaconBlockJSON (j : beaconBlockJSON) : string :=
  encode (tree_of_beaconBlockJSON j).

(** *** The methods *)

(** [MarshalJSON] implements [json.Marshaler]. *)
Definition MarshalJSON (b : BeaconBlock) : string :=
  Marshal_beaconBlockJSON (to_beaconBlockJSON b).

(** [UnmarshalJSON] implements [json.Unmarshaler]. *)
Definition UnmarshalJSON (b : BeaconBlock) (input : string)
  : BeaconBlock * option error :=
  match Unmarshal_beaconBlockJSON input with
  | Err err => (b, Some (Wrap err "invalid JSON"))
  | OK j => unpack b j
  end.

(** [json.Unmarshal(input, &b)] for a [BeaconBlock] [b], as the tests
    call it: the text is checked first, then handed to the method. *)
Definition json_Unmarshal (b : BeaconBlock) (input : string)
  : BeaconBlock * option error :=
  match parse input with
  | Err err => (b, Some err)
  | OK _ => UnmarshalJSON b input
  end.

(** The document [goccy/go-yaml] builds from [beaconBlockYAML]. *)
Definition tree_of_beaconBlockYAML (y : beaconBlockYAML) : yaml :=
  YMapping [ ("slot", YInteger (yaml_Slot y));
             ("proposer_index", YInteger (yaml_ProposerIndex y));
             ("parent_root", YString (yaml_ParentRoot y));
             ("state_root", YString (yaml_StateRoot y));
             ("body", match yaml_Body y with
                      | None => YNull
                      | Some x => codec_MarshalYAML x
                      end) ].

(** [MarshalYAML] implements [yaml.Marshaler]. *)
Definition MarshalYAML (b : BeaconBlock) : string :=
  let yamlBytes :=
    yaml_Marshal_flow (tree_of_beaconBlockYAML (to_beaconBlockYAML b)) in
  ReplaceAll yamlBytes dquote "'"%char.

(** [yaml.Unmarshal(input, &beaconBlockJSON)]: the reader of
    [goccy/go-yaml] is not part of the repository and is a parameter. *)
Variable yaml_Unmarshal : string -> result beaconBlockJSON.

(** [UnmarshalYAML] implements [yaml.Unmarshaler]. *)
Definition UnmarshalYAML (b : BeaconBlock) (input : string)
  : BeaconBlock * option error :=
  match yaml_Unmarshal input with
  | Err err => (b, Some err)
  | OK j => unpack b j
  end.

End BeaconBlock.

Arguments BeaconBlock BeaconBlockBody : clear implicits.
Arguments beaconBlockJSON BeaconBlockBody : clear implicits.
Arguments beaconBlockYAML BeaconBlockBody : clear implicits.

(* ================================================================= *)
(** ** The fields of the textual form, for the statements *)

(** The fields in the order [unpack] checks them. *)
Inductive field : Type :=
| FSlot | FProposerIndex | FParentRoot | FStateRoot | FBody.

Definition all_fields : list field :=
  [FSlot; FProposerIndex; FParentRoot; FStateRoot; FBody].

(** The key of a field in the JSON object. *)
Definition tag (f : field) : string :=
  match f with
  | FSlot => "slot"
  | FProposerIndex => "proposer_index"
  | FParentRoot => "parent_root"
  | FStateRoot => "state_root"
  | FBody => "body"
  end.

(** The name of a field in the messages of [unpack]. *)
Definition label (f : field) : string :=
  match f with
  | FSlot => "slot"
  | FProposerIndex => "proposer index"
  | FParentRoot => "parent root"
  | FStateRoot => "state root"
  | FBody => "body"
  end.

Definition position (f : field) : nat :=
  match f with
  | FSlot => 0
  | FProposerIndex => 1
  | FParentRoot => 2
  | FStateRoot => 3
  | FBody => 4
  end.

(** The error [unpack] returns for a field that is not there. *)
Definition missing (f : field) : error := New (label f ++ " missing").

(** The error [unpack] returns for a root of the wrong length. *)
Definition incorrect_length (f : field) : error :=
  New ("incorrect length for " ++ label f).

(** The error [unpack] returns for a field it cannot read. *)
Definition invalid_value (f : field) (cause : error) : error :=
  Wrap cause ("invalid value for " ++ label f).

(** The errors of [unpack] for the field [f]. *)
Definition field_failure (f : field) (e : error) : Prop :=
  e = missing f \/ (exists cause, e = invalid_value f cause) \/
  e = incorrect_length f.

Definition is_uint (s : string) : bool :=
  match ParseUint s with
  | OK _ => true
  | Err _ => false
  end.

(** The bytes a root field stands for, when it is hexadecimal. *)
Definition root_bytes (s : string) : result (list byte) :=
  DecodeString (TrimPrefix s "0x").

Definition is_root (s : string) : bool :=
  match root_bytes s with
  | OK bs => Nat.eqb (List.length bs) RootLength
  | Err _ => false
  end.

Section Fields.

Context {BeaconBlockBody : Type}.

(** The field is absent: [json.Unmarshal] left the zero value. *)
Definition absent (f : field) (j : beaconBlockJSON BeaconBlockBody) : bool :=
  match f with
  | FSlot => String.eqb (json_Slot j) ""
  | FProposerIndex => String.eqb (json_ProposerIndex j) ""
  | FParentRoot => String.eqb (json_ParentRoot j) ""
  | FStateRoot => String.eqb (json_StateRoot j) ""
  | FBody => match json_Body j with None => true | Some _ => false end
  end.

(** The field is there and has a value [unpack] takes. *)
Definition passes (f : field) (j : beaconBlockJSON BeaconBlockBody) : bool :=
  match f with
  | FSlot => is_uint (json_Slot j)
  | FProposerIndex => is_uint (json_ProposerIndex j)
  | FParentRoot => is_root (json_ParentRoot j)
  | FStateRoot => is_root (json_StateRoot j)
  | FBody => match json_Body j with None => false | Some _ => true end
  end.

(** Every field declared before [f] passes, so [unpack] comes to [f]. *)
Definition reaches (f : field) (j : beaconBlockJSON BeaconBlockBody) : bool :=
  forallb (fun g => passes g j)
    (filter (fun g => Nat.ltb (position g) (position f)) all_fields).

(** The types of Go hold the integers below 2^64 and the roots at 32
    bytes. *)
Definition well_typed (b : BeaconBlock BeaconBlockBody) : Prop :=
  Slot b <= maxUint64 /\ ProposerIndex b <= maxUint64 /\
  List.length (ParentRoot b) = RootLength /\
  List.length (StateRoot b) = RootLength.

(** The receiver after [unpack] has stored the fields before [f]. *)
Definition stored_before (f : field) (b : BeaconBlock BeaconBlockBody)
    (j : beaconBlockJSON BeaconBlockBody) : BeaconBlock BeaconBlockBody :=
  let slot := match ParseUint (json_Slot j) with OK n => n | Err _ => Slot b end in
  let index := match ParseUint (json_ProposerIndex j) with
               | OK n => n | Err _ => ProposerIndex b end in
  let parent := match root_bytes (json_ParentRoot j) with
                | OK bs => copy (ParentRoot b) bs | Err _ => ParentRoot b end in
  let state := match root_bytes (json_StateRoot j) with
               | OK bs => copy (StateRoot b) bs | Err _ => StateRoot b end in
  match f with
  | FSlot => b
  | FProposerIndex =>
      mkBeaconBlock slot (ProposerIndex b) (ParentRoot b) (StateRoot b) (Body b)
  | FParentRoot =>
      mkBeaconBlock slot index (ParentRoot b) (StateRoot b) (Body b)
  | FStateRoot =>
      mkBeaconBlock slot index parent (StateRoot b) (Body b)
  | FBody =>
      mkBeaconBlock slot index parent state (Body b)
  end.

(** The field [g] of the block [b'] holds what the readers of [unpack]
    return for the field [g] of [j]. *)
Definition decoded_at (g : field) (j : beaconBlockJSON BeaconBlockBody)
    (b' : BeaconBlock BeaconBlockBody) : Prop :=
  match g with
  | FSlot => ParseUint (json_Slot j) = OK (Slot b')
  | FProposerIndex => ParseUint (json_ProposerIndex j) = OK (ProposerIndex b')
  | FParentRoot => root_bytes (json_ParentRoot j) = OK (ParentRoot b')
  | FStateRoot => root_bytes (json_StateRoot j) = OK (StateRoot b')
  | FBody => json_Body j = Body b'
  end.

(** The field [g] is in [b'] as it is in [b]. *)
Definition kept_at (g : field) (b b' : BeaconBlock BeaconBlockBody) : Prop :=
  match g with
  | FSlot => Slot b' = Slot b
  | FProposerIndex => ProposerIndex b' = ProposerIndex b
  | FParentRoot => ParentRoot b' = ParentRoot b
  | FStateRoot => StateRoot b' = StateRoot b
  | FBody => Body b' = Body b
  end.

End Fields.

Section Statements.

Context {BeaconBlockBody : Type} `{TextCodec BeaconBlockBody}.

(** The methods of the body write a text of JSON other than [null] and
    read it back as the body. *)
Definition reads_back (x : BeaconBlockBody) : Prop :=
  json_wf (codec_MarshalJSON x) = true /\
  codec_MarshalJSON x <> JNull /\
  codec_UnmarshalJSON (codec_MarshalJSON x) = OK x.

(** A well-formed block: the integers and roots as their types hold
    them, and a body that is not [nil]. *)
Definition well_formed (v : BeaconBlock BeaconBlockBody) : Prop :=
  well_typed v /\ exists body, Body v = Some body /\ reads_back body.

(** Assignments to the fields of [beaconBlockJSON]. *)
Definition with_ParentRoot (j : beaconBlockJSON BeaconBlockBody) (s : string)
  : beaconBlockJSON BeaconBlockBody :=
  mkBeaconBlockJSON (json_Slot j) (json_ProposerIndex j) s (json_StateRoot j)
    (json_Body j).
Definition with_StateRoot (j : beaconBlockJSON BeaconBlockBody) (s : string)
  : beaconBlockJSON BeaconBlockBody :=
  mkBeaconBlockJSON (json_Slot j) (json_ProposerIndex j) (json_ParentRoot j) s
    (json_Body j).

Definition with_Slot (j : beaconBlockJSON BeaconBlockBody) (s : string)
  : beaconBlockJSON BeaconBlockBody :=
  mkBeaconBlockJSON s (json_ProposerIndex j) (json_ParentRoot j)
    (json_StateRoot j) (json_Body j).
Definition with_ProposerIndex (j : beaconBlockJSON BeaconBlockBody)
    (s : string) : beaconBlockJSON BeaconBlockBody :=
  mkBeaconBlockJSON (json_Slot j) s (json_ParentRoot j) (json_StateRoot j)
    (json_Body j).

(** The field [f] set to the string [s]; the body is no string. *)
Definition with_string (f : field) (s : string)
    (j : beaconBlockJSON BeaconBlockBody) : beaconBlockJSON BeaconBlockBody :=
  match f with
  | FSlot => with_Slot j s
  | FProposerIndex => with_ProposerIndex j s
  | FParentRoot => with_ParentRoot j s
  | FStateRoot => with_StateRoot j s
  | FBody => j
  end.

End Statements.

(** A string of hexadecimal digits of either case. *)
Definition is_hex_char (c : ascii) : bool :=
  match fromHexChar c with
  | Some _ => true
  | None => false
  end.

Fixpoint all_hex (s : string) : bool :=
  match s with
  | EmptyString => true
  | String c s' => is_hex_char c && all_hex s'
  end.

Fixpoint all_digits (s : string) : bool :=
  match s with
  | EmptyString => true
  | String c s' => is_digit c && all_digits s'
  end.

(** Digits, hexadecimal digits and the letter x: the bytes of the
    strings [MarshalJSON] writes. *)
Definition plain (c : ascii) : bool :=
  is_digit c || is_hex_char c || Ascii.eqb c "x".

Fixpoint all_plain (s : string) : bool :=
  match s with
  | EmptyString => true
  | String c s' => plain c && all_plain s'
  end.

(** No member of the object has the key of [f]. *)
Definition lacks (f : field) (members : list (string * json)) : bool :=
  forallb (fun m => negb (key_is (tag f) (fst m))) members.

(** The object without the members that have the key of [f]. *)
Definition without (f : field) (members : list (string * json))
  : list (string * json) :=
  filter (fun m => negb (key_is (tag f) (fst m))) members.

(** The value of the first member of a mapping with the key [key]. *)
Definition yaml_member (key : string) (doc : yaml) : option yaml :=
  match doc with
  | YMapping members =>
      match find (fun m => String.eqb (fst m) key) members with
      | Some m => Some (snd m)
      | None => None
      end
  | _ => None
  end.

(** A string literal of JSON or YAML around [s], with the quote [q]. *)
Definition quoted (q : ascii) (s : string) : string :=
  String q (s ++ String q "").

(** A stand-in for [BeaconBlockBody] in the examples: a body with its
    graffiti alone, written as an object with one member. *)
Record SampleBody : Type := mkSampleBody { graffiti : string }.

#[export] Instance SampleBody_codec : TextCodec SampleBody := {
  codec_MarshalJSON := fun x => JObject [("graffiti", JString (graffiti x))];
  codec_UnmarshalJSON := fun v =>
    match v with
    | JObject [(_, JString s)] => OK (mkSampleBody s)
    | _ => Err (New "graffiti missing")
    end;
  codec_MarshalYAML := fun x => YMapping [("graffiti", YString (graffiti x))]
}.

Definition sample_body : SampleBody := mkSampleBody "lighthouse".

(** A block with slot 1, proposer 2, the roots 0x1111... and 0x2222... *)
Definition sample_block : BeaconBlock SampleBody :=
  mkBeaconBlock 1 2 (repeat x11 RootLength) (repeat x22 RootLength)
    (Some sample_body).

(** The text of an object with the slot alone: slot 1. *)
Definition text_slot_only : string :=
  encode (JObject [("slot", JString "1")]).

(** The text of an object with a slot that is no number, and nothing
    else. *)
Definition text_bad_slot : string :=
  encode (JObject [("slot", JString "x")]).

(** A YAML reader for the examples, which reads every input as the
    fields of [sample_block]. *)
Definition sample_yaml_Unmarshal (input : string)
  : result (beaconBlockJSON SampleBody) :=
  OK (to_beaconBlockJSON sample_block).

(** The text of [sample_block] with a parent root of 31 bytes. *)
Definition text_short_parent_root : string :=
  Marshal_beaconBlockJSON
    (with_ParentRoot (to_beaconBlockJSON sample_block)
       (Sprintf_sharp_x (repeat x11 31))).


(** Fields with a slot that is no number and an empty proposer index. *)
Definition fields_bad_slot_empty_index : beaconBlockJSON SampleBody :=
  mkBeaconBlockJSON "x" "" (Sprintf_sharp_x (repeat x11 32))
    (Sprintf_sharp_x (repeat x22 32)) (Some sample_body).

(** The zero value of [BeaconBlock]. *)
Definition zero_BeaconBlock {B : Type} : BeaconBlock B :=
  mkBeaconBlock 0 0 (repeat x00 RootLength) (repeat x00 RootLength) None.

(** The receiver of the examples: a zero value. *)
Definition sample_zero : BeaconBlock SampleBody := zero_BeaconBlock.

(* ================================================================= *)
(** ** The readers of the fields, for the statements *)

(** The number a string of decimal digits stands for, read from the
    left; [n] is the number read so far. *)
Fixpoint decimal_loop (s : string) (n : N) : N :=
  match s with
  | EmptyString => n
  | String c s' => decimal_loop s' (n * 10 + (N_of_ascii c - 48))
  end.

Definition decimal (s : string) : N := decimal_loop s 0.

(** The first byte of a string that is no hexadecimal digit. *)
Fixpoint first_bad (s : string) : option ascii :=
  match s with
  | EmptyString => None
  | String c s' => if is_hex_char c then first_bad s' else Some c
  end.

(** The letters a to f in upper case; every other byte as it is. *)
Definition upper_hex_char (c : ascii) : ascii :=
  let n := N_of_ascii c in
  if (97 <=? n) && (n <=? 102) then ascii_of_N (n - 32) else c.

Fixpoint upper_hex (s : string) : string :=
  match s with
  | EmptyString => ""
  | String c s' => String (upper_hex_char c) (upper_hex s')
  end.

Section Readers.

Context {BeaconBlockBody : Type}.

(** The error of the reader of a field on what the field holds:
    [strconv.ParseUint] for the integers, [hex.DecodeString] for the
    roots; the body is stored as it is. *)
Definition read_error (f : field) (j : beaconBlockJSON BeaconBlockBody)
  : option error :=
  let of_result {A : Type} (r : result A) :=
    match r with
    | OK _ => None
    | Err e => Some e
    end in
  match f with
  | FSlot => of_result (ParseUint (json_Slot j))
  | FProposerIndex => of_result (ParseUint (json_ProposerIndex j))
  | FParentRoot => of_result (root_bytes (json_ParentRoot j))
  | FStateRoot => of_result (root_bytes (json_StateRoot j))
  | FBody => None
  end.

End Readers.

(** The byte [c] occurs in [s]. *)
Fixpoint has_byte (c : ascii) (s : string) : bool :=
  match s with
  | EmptyString => false
  | String d s' => Ascii.eqb d c || has_byte c s'
  end.

(** A value [json.Unmarshal] stores in a field of type [string] without
    an error: a string, or [null]. *)
Definition string_or_null (v : json) : bool :=
  match v with
  | JString _ | JNull => true
  | _ => false
  end.

(** A member [json.Unmarshal] passes over: its key, of ASCII bytes, is
    the tag of no field, or it is the key of a field of type [string]
    and the value is [null]. *)
Definition passed_over (m : string * json) : bool :=
  (ascii_only (fst m)
   && forallb (fun f => negb (key_is (tag f) (fst m))) all_fields)
  || (negb (key_is (tag FBody) (fst m))
      && match snd m with JNull => true | _ => false end).

Section FieldString.

Context {BeaconBlockBody : Type}.

(** What a field of type [string] holds. *)
Definition field_string (f : field) (j : beaconBlockJSON BeaconBlockBody)
  : string :=
  match f with
  | FSlot => json_Slot j
  | FProposerIndex => json_ProposerIndex j
  | FParentRoot => json_ParentRoot j
  | FStateRoot => json_StateRoot j
  | FBody => ""
  end.

End FieldString.

(** The string has a zero in front of other digits. *)
Definition leading_zero (s : string) : bool :=
  match s with
  | String c (String _ _) => Ascii.eqb c "0"
  | _ => false
  end.

(** One of the letters A to F occurs in the string. *)
Fixpoint has_upper_hex (s : string) : bool :=
  match s with
  | EmptyString => false
  | String c s' =>
      ((65 <=? N_of_ascii c) && (N_of_ascii c <=? 70)) || has_upper_hex s'
  end.

Section CanonicalFields.

Context {BeaconBlockBody : Type}.

(** The fields are spelled as [MarshalJSON] spells them: the integers
    without a zero in front, the roots with [0x] and without a letter in
    upper case. *)
Definition canonical_fields (j : beaconBlockJSON BeaconBlockBody) : bool :=
  negb (leading_zero (json_Slot j))
  && negb (leading_zero (json_ProposerIndex j))
  && (String.prefix "0x" (json_ParentRoot j)
      && negb (has_upper_hex (json_ParentRoot j)))
  && (String.prefix "0x" (json_StateRoot j)
      && negb (has_upper_hex (json_StateRoot j))).

End CanonicalFields.

(* ================================================================= *)
(** ** The binary codec *)

(** The methods [MarshalSSZ] and [UnmarshalSSZ] of the tests are not in
    the files at hand.  This module follows sections 3 and 4.1 of the
    specification. *)
Module SSZ.

(** Modelled from the spec: the widths of the unsigned integers,
    "8/16/32/64/128/256-bit". *)
Inductive width : Type := W8 | W16 | W32 | W64 | W128 | W256.

Definition width_bytes (w : width) : nat :=
  match w with
  | W8 => 1 | W16 => 2 | W32 => 4 | W64 => 8 | W128 => 16 | W256 => 32
  end.

(** Modelled from the spec: the shapes of section 3 whose encoding
    section 4.1 gives.  A union is left out: the spec names it and gives
    no rule to encode it.  The names of the fields of a record play no
    part in the binary form. *)
#[warnings="-register-all"]
Inductive Shape : Type :=
| SUint (w : width)
| SBool
| SBytes (n : nat)
| SBitvector (n : nat)
| SBitlist (max : nat)
| SList (elem : Shape) (max : nat)
| SRecord (fields : list Shape).

(** Modelled from the spec: a value of a shape. *)
#[warnings="-register-all"]
Inductive Value : Type :=
| VUint (n : N)
| VBool (b : bool)
| VBytes (bs : list byte)
| VBits (bits : list bool)
| VList (elems : list Value)
| VRecord (fields : list Value).

(** Modelled from the spec: the number of bytes of a shape of fixed
    size; a bit-list, a list and a record with such a field are of
    variable size. *)
Fixpoint fixed_size (s : Shape) : option nat :=
  match s with
  | SUint w => Some (width_bytes w)
  | SBool => Some 1%nat
  | SBytes n => Some n
  | SBitvector n => Some ((n + 7) / 8)%nat
  | SBitlist _ => None
  | SList _ _ => None
  | SRecord fields =>
      fold_right
        (fun f acc =>
           match fixed_size f, acc with
           | Some k, Some n => Some (k + n)%nat
           | _, _ => None
           end)
        (Some 0%nat) fields
  end.

(** *** Integers, little-endian *)

Fixpoint le_bytes (w : nat) (n : N) : list byte :=
  match w with
  | O => []
  | S w' => byte_of_N (n mod 256) :: le_bytes w' (n / 256)
  end.

Fixpoint le_value (bs : list byte) : N :=
  match bs with
  | [] => 0
  | b :: bs' => Byte.to_N b + 256 * le_value bs'
  end.

(** *** Bits, little-endian within each byte *)

Definition byte_of_bits (b0 b1 b2 b3 b4 b5 b6 b7 : bool) : byte :=
  Byte.of_bits (b0, (b1, (b2, (b3, (b4, (b5, (b6, b7))))))).

Definition bits_of_byte (b : byte) : list bool :=
  let '(b0, (b1, (b2, (b3, (b4, (b5, (b6, b7))))))) := Byte.to_bits b in
  [b0; b1; b2; b3; b4; b5; b6; b7].

(** Eight bits to the byte; the bits that lack in the last byte are
    zero. *)
Fixpoint pack (bits : list bool) : list byte :=
  match bits with
  | [] => []
  | b0 :: b1 :: b2 :: b3 :: b4 :: b5 :: b6 :: b7 :: rest =>
      byte_of_bits b0 b1 b2 b3 b4 b5 b6 b7 :: pack rest
  | [b0; b1; b2; b3; b4; b5; b6] =>
      [byte_of_bits b0 b1 b2 b3 b4 b5 b6 false]
  | [b0; b1; b2; b3; b4; b5] =>
      [byte_of_bits b0 b1 b2 b3 b4 b5 false false]
  | [b0; b1; b2; b3; b4] =>
      [byte_of_bits b0 b1 b2 b3 b4 false false false]
  | [b0; b1; b2; b3] =>
      [byte_of_bits b0 b1 b2 b3 false false false false]
  | [b0; b1; b2] =>
      [byte_of_bits b0 b1 b2 false false false false false]
  | [b0; b1] =>
      [byte_of_bits b0 b1 false false false false false false]
  | [b0] =>
      [byte_of_bits b0 false false false false false false false]
  end.

Definition unpack (bs : list byte) : list bool :=
  flat_map bits_of_byte bs.

Fixpoint all_zero (bits : list bool) : bool :=
  match bits with
  | [] => true
  | b :: bits' => negb b && all_zero bits'
  end.

Fixpoint drop_zeros (bits : list bool) : list bool :=
  match bits with
  | false :: bits' => drop_zeros bits'
  | _ => bits
  end.

(** *** The fields of a record and the table of offsets *)

(** The bytes a field takes in the fixed prefix: its own when it is of
    fixed size, an offset of 4 bytes when it is not. *)
Definition prefix_size (size : option nat) : nat :=
  match size with
  | Some k => k
  | None => 4
  end.

Definition prefix_len (sizes : list (option nat)) : nat :=
  fold_right (fun size n => (prefix_size size + n)%nat) 0%nat sizes.

(** Modelled from the spec: "encode fixed-size fields in declared order
    directly; for each variable-size field, reserve a 4-byte
    little-endian offset ... in the fixed prefix, then append the
    variable-size fields' encodings, in declared order, after the fixed
    prefix; each offset equals the cumulative byte length written so
    far".  [off] is that length; the result is the fixed prefix and the
    bytes after it.  A field of fixed size has its declared number of
    bytes, and an offset of 2^32 or more does not fit in 4 bytes. *)
Fixpoint join_at (off : nat) (sizes : list (option nat))
    (parts : list (list byte)) : option (list byte * list byte) :=
  match sizes, parts with
  | [], [] => Some ([], [])
  | Some k :: sizes', p :: parts' =>
      if Nat.eqb (List.length p) k then
        match join_at off sizes' parts' with
        | Some (fx, vr) => Some ((p ++ fx)%list, vr)
        | None => None
        end
      else None
  | None :: sizes', p :: parts' =>
      if 2 ^ 32 <=? N.of_nat off then None
      else
        match join_at (off + List.length p) sizes' parts' with
        | Some (fx, vr) =>
            Some ((le_bytes 4 (N.of_nat off) ++ fx)%list, (p ++ vr)%list)
        | None => None
        end
  | _, _ => None
  end.

Definition join_fields (sizes : list (option nat)) (parts : list (list byte))
  : option (list byte) :=
  match join_at (prefix_len sizes) sizes parts with
  | Some (fx, vr) => Some (fx ++ vr)%list
  | None => None
  end.

(** The bytes of [whole] from [from] up to [to]. *)
Definition slice (from to : nat) (whole : list byte) : list byte :=
  firstn (to - from) (skipn from whole).

(** Modelled from the spec: "read the fixed prefix; each offset field
    must be read as a 4-byte little-endian unsigned integer; offsets must
    be non-decreasing across fields ... and the last offset must not
    exceed total input length ...  The byte range between consecutive
    offsets (the last field's range ends at input length) is the encoding
    of that field".  [prefix] is what is left of the fixed prefix; the
    result is the bytes of each field and the place where the first
    field of variable size among them starts, which is the end of the
    input when there is none. *)
Fixpoint split_at (sizes : list (option nat)) (prefix whole : list byte)
  : option (list (list byte) * nat) :=
  match sizes with
  | [] =>
      match prefix with
      | [] => Some ([], List.length whole)
      | _ => None
      end
  | Some k :: sizes' =>
      if Nat.ltb (List.length prefix) k then None
      else
        match split_at sizes' (skipn k prefix) whole with
        | Some (parts, next) => Some (firstn k prefix :: parts, next)
        | None => None
        end
  | None :: sizes' =>
      if Nat.ltb (List.length prefix) 4 then None
      else
        let off := N.to_nat (le_value (firstn 4 prefix)) in
        match split_at sizes' (skipn 4 prefix) whole with
        | Some (parts, next) =>
            if Nat.leb off next
            then Some (slice off next whole :: parts, off)
            else None
        | None => None
        end
  end.

(** Modelled from the spec: "the first variable-size field's offset must
    equal the fixed-prefix length"; with no field of variable size the
    fixed prefix is the whole input. *)
Definition split_fields (sizes : list (option nat)) (bs : list byte)
  : option (list (list byte)) :=
  let n := prefix_len sizes in
  if Nat.ltb (List.length bs) n then None
  else
    match split_at sizes (firstn n bs) bs with
    | Some (parts, start) => if Nat.eqb start n then Some parts else None
    | None => None
    end.

(** [n] pieces of [k] bytes. *)
Fixpoint chunks (k n : nat) (bs : list byte) : list (list byte) :=
  match n with
  | O => []
  | S n' => firstn k bs :: chunks k n' (skipn k bs)
  end.

Fixpoint map_option {A B : Type} (f : A -> option B) (l : list A)
  : option (list B) :=
  match l with
  | [] => Some []
  | x :: l' =>
      match f x, map_option f l' with
      | Some y, Some ys => Some (y :: ys)
      | _, _ => None
      end
  end.

Fixpoint map2_option {A B C : Type} (f : A -> B -> option C)
    (l1 : list A) (l2 : list B) : option (list C) :=
  match l1, l2 with
  | [], [] => Some []
  | x :: l1', y :: l2' =>
      match f x y, map2_option f l1' l2' with
      | Some z, Some zs => Some (z :: zs)
      | _, _ => None
      end
  | _, _ => None
  end.

(** *** Encode and Decode *)

(** Modelled from the spec: [Encode] of section 4.1.  There is no
    encoding for a value that does not have the shape or breaks its
    invariant of section 3 (an integer that does not fit its width, a
    byte or bit sequence of another length than declared, a list or
    bit-list over its maximum), nor when an offset does not fit its 4
    bytes.  The elements of a list of elements of fixed size are
    "simply" concatenated, whatever their size. *)
Fixpoint Encode (s : Shape) (v : Value) {struct s} : option (list byte) :=
  match s, v with
  | SUint w, VUint n =>
      if n <? 2 ^ (8 * N.of_nat (width_bytes w))
      then Some (le_bytes (width_bytes w) n) else None
  | SBool, VBool b => Some [if b then x01 else x00]
  | SBytes n, VBytes bs =>
      if Nat.eqb (List.length bs) n then Some bs else None
  | SBitvector n, VBits bits =>
      if Nat.eqb (List.length bits) n then Some (pack bits) else None
  | SBitlist max, VBits bits =>
      if Nat.leb (List.length bits) max
      then Some (pack (bits ++ [true])%list) else None
  | SList elem max, VList elems =>
      if Nat.leb (List.length elems) max then
        match map_option (Encode elem) elems with
        | Some parts =>
            match fixed_size elem with
            | Some _ => Some (List.concat parts)
            | None => join_fields (repeat None (List.length elems)) parts
            end
        | None => None
        end
      else None
  | SRecord fields, VRecord values =>
      match map2_option Encode fields values with
      | Some parts => join_fields (map fixed_size fields) parts
      | None => None
      end
  | _, _ => None
  end.

(** Modelled from the spec: [Decode] of section 4.1, with the checks
    that section states and no other.  "Scalars and fixed byte
    sequences/bit-vectors require exactly the declared number of bytes;
    any other length fails": the byte of a boolean is read as false when
    it is zero and as true otherwise, and the bits of a bit-vector are
    the first of the bits of the bytes.  "Bit-lists require the encoded
    byte length to be >= 1 and the trailing sentinel bit (the highest set
    bit) to exist and be within the maximum bit count; logical length =
    position of that sentinel."  Records and lists of elements of
    variable size go by their table of offsets; the number of elements of
    such a list is read from its first offset.  The other lists are
    sliced "into equal-size chunks matching the fixed element width,
    failing if the remainder is not an exact multiple"; nothing but zero
    is a multiple of the width zero.  The "decoded element count" of a
    list is at most the maximum, the invariant of section 3. *)
Fixpoint Decode (s : Shape) (bs : list byte) {struct s} : option Value :=
  match s with
  | SUint w =>
      if Nat.eqb (List.length bs) (width_bytes w)
      then Some (VUint (le_value bs)) else None
  | SBool =>
      match bs with
      | [b] => Some (VBool (negb (Byte.eqb b x00)))
      | _ => None
      end
  | SBytes n =>
      if Nat.eqb (List.length bs) n then Some (VBytes bs) else None
  | SBitvector n =>
      if Nat.eqb (List.length bs) ((n + 7) / 8)
      then Some (VBits (firstn n (unpack bs))) else None
  | SBitlist max =>
      match drop_zeros (rev (unpack bs)) with
      | true :: r =>
          if Nat.leb (List.length r) max
          then Some (VBits (rev r)) else None
      | _ => None
      end
  | SList elem max =>
      match fixed_size elem with
      | Some k =>
          if Nat.eqb (List.length bs mod k) 0
             && Nat.leb (List.length bs / k) max
          then option_map VList
                 (map_option (Decode elem) (chunks k (List.length bs / k) bs))
          else None
      | None =>
          if Nat.eqb (List.length bs) 0 then Some (VList [])
          else if Nat.ltb (List.length bs) 4 then None
          else
            let first := N.to_nat (le_value (firstn 4 bs)) in
            if Nat.eqb (first mod 4) 0 && Nat.leb (first / 4) max then
              match split_fields (repeat None (first / 4)) bs with
              | Some parts =>
                  option_map VList (map_option (Decode elem) parts)
              | None => None
              end
            else None
      end
  | SRecord fields =>
      match split_fields (map fixed_size fields) bs with
      | Some parts => option_map VRecord (map2_option Decode fields parts)
      | None => None
      end
  end.

Fixpoint all2 {A B : Type} (f : A -> B -> bool) (l1 : list A) (l2 : list B)
  : bool :=
  match l1, l2 with
  | [], [] => true
  | x :: l1', y :: l2' => f x y && all2 f l1' l2'
  | _, _ => false
  end.

(** Modelled from the spec: the invariants of section 3.  A scalar
    "fits in the declared width", the length of a fixed byte sequence
    "is exactly the declared constant", a bit-vector has its "fixed
    number of bits", a bit-list a "bit length" and a list an "element
    count" of at most the maximum, and a record has a value for every
    field, in declared order. *)
Fixpoint well_formed (s : Shape) (v : Value) {struct s} : bool :=
  match s, v with
  | SUint w, VUint n => n <? 2 ^ (8 * N.of_nat (width_bytes w))
  | SBool, VBool _ => true
  | SBytes n, VBytes bs => Nat.eqb (List.length bs) n
  | SBitvector n, VBits bits => Nat.eqb (List.length bits) n
  | SBitlist max, VBits bits => Nat.leb (List.length bits) max
  | SList elem max, VList elems =>
      Nat.leb (List.length elems) max && forallb (well_formed elem) elems
  | SRecord fields, VRecord values => all2 well_formed fields values
  | _, _ => false
  end.

Fixpoint sum2 {A B : Type} (f : A -> B -> nat) (l1 : list A) (l2 : list B)
  : nat :=
  match l1, l2 with
  | x :: l1', y :: l2' => (f x y + sum2 f l1' l2')%nat
  | _, _ => 0%nat
  end.

(** The bytes a part adds after the fixed prefix. *)
Definition var_size (size : option nat) (p : list byte) : nat :=
  match size with
  | Some _ => 0%nat
  | None => List.length p
  end.

Definition var_len (sizes : list (option nat)) (parts : list (list byte))
  : nat :=
  sum2 var_size sizes parts.

(** Modelled from the spec: the number of bytes [Encode] writes for a
    value, by the rules of section 4.1: the declared size for a shape of
    fixed size; the bits and their sentinel, rounded up to whole bytes,
    for a bit-list; the elements of a list, and an offset of 4 bytes for
    each when they are of variable size; the fixed prefix of a record
    and its fields of variable size. *)
Fixpoint size (s : Shape) (v : Value) {struct s} : nat :=
  match fixed_size s with
  | Some k => k
  | None =>
      match s, v with
      | SBitlist _, VBits bits => ((List.length bits + 8) / 8)%nat
      | SList elem _, VList elems =>
          (match fixed_size elem with
           | Some _ => 0
           | None => 4 * List.length elems
           end + list_sum (map (size elem) elems))%nat
      | SRecord fields, VRecord values =>
          (prefix_len (map fixed_size fields)
           + sum2 (fun f x =>
                     match fixed_size f with
                     | Some _ => 0%nat
                     | None => size f x
                     end) fields values)%nat
      | _, _ => 0%nat
      end
  end.

(** A shape is legal when the elements of its lists take at least one
    byte: the number of elements of a list is read from the length of
    its encoding. *)
Fixpoint legal (s : Shape) : bool :=
  match s with
  | SList elem _ =>
      legal elem
      && match fixed_size elem with
         | Some k => negb (Nat.eqb k 0)
         | None => true
         end
  | SRecord fields => forallb legal fields
  | _ => true
  end.

(** A part fits its place when it has the size declared there. *)
Definition fits (size : option nat) (p : list byte) : Prop :=
  forall k, size = Some k -> List.length p = k.

(** A shape without padding: it has no boolean and no bit-list, and its
    bit-vectors fill their bytes. *)
Fixpoint whole_bytes (s : Shape) : bool :=
  match s with
  | SUint _ => true
  | SBool => false
  | SBytes _ => true
  | SBitvector n => Nat.eqb (n mod 8) 0
  | SBitlist _ => false
  | SList elem _ => whole_bytes elem
  | SRecord fields => forallb whole_bytes fields
  end.


(** Induction on a shape, with the hypothesis for the element of a list
    and for every field of a record. *)
Section Shape_induction.

Variable P : Shape -> Prop.
Hypothesis P_uint : forall w, P (SUint w).
Hypothesis P_bool : P SBool.
Hypothesis P_bytes : forall n, P (SBytes n).
Hypothesis P_bitvector : forall n, P (SBitvector n).
Hypothesis P_bitlist : forall max, P (SBitlist max).
Hypothesis P_list : forall elem max, P elem -> P (SList elem max).
Hypothesis P_record : forall fields, Forall P fields -> P (SRecord fields).

Fixpoint Shape_induction (s : Shape) : P s :=
  match s with
  | SUint w => P_uint w
  | SBool => P_bool
  | SBytes n => P_bytes n
  | SBitvector n => P_bitvector n
  | SBitlist max => P_bitlist max
  | SList elem max => P_list max (Shape_induction elem)
  | SRecord fields =>
      P_record
        ((fix all (l : list Shape) : Forall P l :=
            match l with
            | [] => Forall_nil P
            | f :: l' => Forall_cons f (Shape_induction f) (all l')
            end) fields)
  end.

End Shape_induction.

(** The shapes of the two records of the tests: a deposit message (a
    public key of 48 bytes, withdrawal credentials of 32 bytes, an
    amount of 64 bits) and a sync aggregate (512 bits, a signature of 96
    bytes). *)
Definition DepositMessage : Shape :=
  SRecord [SBytes 48; SBytes 32; SUint W64].

Definition SyncAggregate : Shape :=
  SRecord [SBitvector 512; SBytes 96].



End SSZ.

(* ================================================================= *)
(** * Properties *)

(* ================================================================= *)
(** ** [unpack], stage by stage *)

Lemma is_uint_inv s :
  is_uint s = true -> String.eqb s "" = false /\ exists n, ParseUint s = OK n.
Proof.
  unfold is_uint. destruct s as [|c s].
  - cbn. discriminate.
  - destruct (ParseUint (String c s)) as [n|e] eqn:E; [|discriminate].
    intros _. split; [reflexivity | now exists n].
Qed.

Lemma is_root_inv s :
  is_root s = true ->
  String.eqb s "" = false /\
  exists bs, root_bytes s = OK bs /\ List.length bs = RootLength.
Proof.
  unfold is_root. destruct s as [|c s].
  - cbn. discriminate.
  - destruct (root_bytes (String c s)) as [bs|e] eqn:E; [|discriminate].
    intros L. apply Nat.eqb_eq in L. split; [reflexivity | now exists bs].
Qed.

Section Unpack.

Context {BeaconBlockBody : Type}.
Implicit Types (b : BeaconBlock BeaconBlockBody)
               (j : beaconBlockJSON BeaconBlockBody).

(** What [reaches] unfolds to, field by field. *)
Lemma reaches_proposer_index j :
  reaches FProposerIndex j = true -> is_uint (json_Slot j) = true.
Proof. cbn. now rewrite andb_true_r. Qed.

Lemma reaches_parent_root j :
  reaches FParentRoot j = true ->
  is_uint (json_Slot j) = true /\ is_uint (json_ProposerIndex j) = true.
Proof. cbn. rewrite andb_true_r. apply andb_prop. Qed.

Lemma reaches_state_root j :
  reaches FStateRoot j = true ->
  is_uint (json_Slot j) = true /\ is_uint (json_ProposerIndex j) = true /\
  is_root (json_ParentRoot j) = true.
Proof.
  cbn. rewrite andb_true_r. intros E.
  apply andb_prop in E as [E1 E]. apply andb_prop in E as [E2 E3]. auto.
Qed.

Lemma reaches_body j :
  reaches FBody j = true ->
  is_uint (json_Slot j) = true /\ is_uint (json_ProposerIndex j) = true /\
  is_root (json_ParentRoot j) = true /\ is_root (json_StateRoot j) = true.
Proof.
  cbn. rewrite andb_true_r. intros E.
  apply andb_prop in E as [E1 E]. apply andb_prop in E as [E2 E].
  apply andb_prop in E as [E3 E4]. auto.
Qed.

(** Rewrites the checks of a field that passes, in [unpack] and in
    [stored_before]. *)
Ltac pass_uint H :=
  let n := fresh "n" in let E := fresh "E" in let Z := fresh "Z" in
  apply is_uint_inv in H as [Z [n E]]; rewrite ?Z, ?E; cbn [set_Slot set_ProposerIndex].

Ltac pass_root H :=
  let bs := fresh "bs" in let E := fresh "E" in let Z := fresh "Z" in
  let L := fresh "L" in
  apply is_root_inv in H as [Z [bs [E L]]]; unfold root_bytes in E;
  rewrite ?Z, ?E, ?L; cbn [Nat.eqb negb RootLength].

Ltac stages j H :=
  first
    [ apply reaches_body in H as (?S1 & ?S2 & ?S3 & ?S4)
    | apply reaches_state_root in H as (?S1 & ?S2 & ?S3)
    | apply reaches_parent_root in H as (?S1 & ?S2)
    | apply reaches_proposer_index in H as ?S1
    | clear H ].

(** [unpack] when it comes to a field that is absent. *)
Lemma unpack_absent b j f :
  reaches f j = true -> absent f j = true ->
  unpack b j = (stored_before f b j, Some (missing f)).
Proof.
  intros R A. unfold unpack, stored_before, root_bytes.
  destruct f; cbn [absent] in A; stages j R;
    repeat match goal with
           | H : is_uint _ = true |- _ => pass_uint H
           | H : is_root _ = true |- _ => pass_root H
           end;
    rewrite ?Nat.eqb_refl; cbn [negb];
    try rewrite A; try reflexivity.
  destruct (json_Body j); [discriminate | reflexivity].
Qed.

(** [unpack] when it comes to a root whose bytes are not 32. *)
Lemma unpack_incorrect_length b j f s bs :
  (f = FParentRoot /\ s = json_ParentRoot j) \/
  (f = FStateRoot /\ s = json_StateRoot j) ->
  reaches f j = true -> s <> "" -> root_bytes s = OK bs ->
  List.length bs <> RootLength ->
  unpack b j = (stored_before f b j, Some (incorrect_length f)).
Proof.
  intros F R Z D L.
  apply String.eqb_neq in Z. apply Nat.eqb_neq in L.
  unfold unpack, stored_before, root_bytes in *.
  destruct F as [[-> ->] | [-> ->]]; stages j R;
    repeat match goal with
           | H : is_uint _ = true |- _ => pass_uint H
           | H : is_root _ = true |- _ => pass_root H
           end;
    rewrite ?Nat.eqb_refl; cbn [negb];
    rewrite ?Z, ?D, ?L; reflexivity.
Qed.

(** [unpack] when every field passes. *)
Lemma unpack_accepts b j :
  forallb (fun f => passes f j) all_fields = true ->
  exists slot index parent state body,
    ParseUint (json_Slot j) = OK slot /\
    ParseUint (json_ProposerIndex j) = OK index /\
    root_bytes (json_ParentRoot j) = OK parent /\
    root_bytes (json_StateRoot j) = OK state /\
    json_Body j = Some body /\
    unpack b j =
      (mkBeaconBlock slot index (copy (ParentRoot b) parent)
         (copy (StateRoot b) state) (Some body), None).
Proof.
  cbn. rewrite andb_true_r. intros E.
  apply andb_prop in E as [E1 E]. apply andb_prop in E as [E2 E].
  apply andb_prop in E as [E3 E]. apply andb_prop in E as [E4 E5].
  unfold unpack.
  apply is_uint_inv in E1 as [Z1 [slot P1]].
  apply is_uint_inv in E2 as [Z2 [index P2]].
  apply is_root_inv in E3 as [Z3 [parent [P3 L3]]].
  apply is_root_inv in E4 as [Z4 [state [P4 L4]]].
  destruct (json_Body j) as [body|] eqn:B; [|discriminate].
  exists slot, index, parent, state, body.
  unfold root_bytes in *.
  rewrite Z1, P1, Z2, P2, Z3, P3, L3, Z4, P4, L4. cbn.
  repeat split; reflexivity.
Qed.

(** Where [unpack] fails: at the first field that does not pass, with
    an error of that field, the fields before it stored and nothing
    else touched. *)
Lemma unpack_fails_at b j b' e :
  unpack b j = (b', Some e) ->
  exists f, reaches f j = true /\ passes f j = false /\
            b' = stored_before f b j /\ field_failure f e.
Proof.
  unfold unpack.
  destruct (String.eqb (json_Slot j) "") eqn:Z1.
  { intros E; inversion E; subst. exists FSlot. cbn.
    apply String.eqb_eq in Z1. rewrite Z1.
    unfold field_failure. auto. }
  destruct (ParseUint (json_Slot j)) as [slot|e1] eqn:P1.
  2:{ intros E; inversion E; subst. exists FSlot. cbn.
      unfold is_uint, field_failure. rewrite P1.
      repeat split. right; left; eexists; reflexivity. }
  destruct (String.eqb (json_ProposerIndex j) "") eqn:Z2.
  { intros E; inversion E; subst. exists FProposerIndex.
    cbn. unfold is_uint, field_failure. rewrite P1.
    apply String.eqb_eq in Z2. rewrite Z2. auto. }
  destruct (ParseUint (json_ProposerIndex j)) as [index|e2] eqn:P2.
  2:{ intros E; inversion E; subst. exists FProposerIndex.
      cbn. unfold is_uint, field_failure. rewrite P1, P2.
      repeat split. right; left; eexists; reflexivity. }
  destruct (String.eqb (json_ParentRoot j) "") eqn:Z3.
  { intros E; inversion E; subst. exists FParentRoot.
    cbn. unfold is_uint, field_failure. rewrite P1, P2.
    apply String.eqb_eq in Z3. rewrite Z3. auto. }
  destruct (DecodeString (TrimPrefix (json_ParentRoot j) "0x"))
    as [parent|e3] eqn:P3.
  2:{ intros E; inversion E; subst. exists FParentRoot.
      cbn. unfold is_uint, is_root, root_bytes, field_failure.
      rewrite P1, P2, P3.
      repeat split. right; left; eexists; reflexivity. }
  destruct (Nat.eqb (List.length parent) RootLength) eqn:L3; cbn [negb].
  2:{ intros E; inversion E; subst. exists FParentRoot.
      cbn. unfold is_uint, is_root, root_bytes, field_failure.
      rewrite P1, P2, P3. cbn in L3. rewrite L3.
      repeat split. right; right; reflexivity. }
  destruct (String.eqb (json_StateRoot j) "") eqn:Z4.
  { intros E; inversion E; subst. exists FStateRoot.
    cbn. unfold is_uint, is_root, root_bytes, field_failure.
    rewrite P1, P2, P3. cbn in L3. rewrite L3.
    apply String.eqb_eq in Z4. rewrite Z4. auto. }
  destruct (DecodeString (TrimPrefix (json_StateRoot j) "0x"))
    as [state|e4] eqn:P4.
  2:{ intros E; inversion E; subst. exists FStateRoot.
      cbn. unfold is_uint, is_root, root_bytes, field_failure.
      rewrite P1, P2, P3, P4. cbn in L3. rewrite L3.
      repeat split. right; left; eexists; reflexivity. }
  destruct (Nat.eqb (List.length state) RootLength) eqn:L4; cbn [negb].
  2:{ intros E; inversion E; subst. exists FStateRoot.
      cbn. unfold is_uint, is_root, root_bytes, field_failure.
      rewrite P1, P2, P3, P4. cbn in L3, L4. rewrite L3, L4.
      repeat split. right; right; reflexivity. }
  destruct (json_Body j) as [body|] eqn:B.
  { intros E; inversion E. }
  intros E; inversion E; subst. exists FBody.
  cbn. unfold is_uint, is_root, root_bytes, field_failure.
  rewrite P1, P2, P3, P4, B.
  cbn in L3, L4. rewrite L3, L4. auto.
Qed.

(** The fields from the failing one on are as they were. *)
Lemma stored_before_Body f b j : Body (stored_before f b j) = Body b.
Proof. destruct f; reflexivity. Qed.

End Unpack.

(* ================================================================= *)
(** ** Decimal and hexadecimal strings *)

Lemma append_assoc (s1 s2 s3 : string) : (s1 ++ s2) ++ s3 = s1 ++ (s2 ++ s3).
Proof. induction s1 as [|c s1 IH]; cbn; [reflexivity | now rewrite IH]. Qed.

Lemma append_nil_r (s : string) : s ++ "" = s.
Proof. induction s as [|c s IH]; cbn; [reflexivity | now rewrite IH]. Qed.

Lemma ParseUint_loop_app s1 s2 a :
  ParseUint_loop (s1 ++ s2) a =
  match ParseUint_loop s1 a with
  | OK m => ParseUint_loop s2 m
  | Err e => Err e
  end.
Proof.
  revert a. induction s1 as [|c s1 IH]; intros a; cbn [append ParseUint_loop].
  - reflexivity.
  - destruct (is_digit c); [|reflexivity].
    destruct (_ <=? a); [reflexivity|].
    cbv zeta. destruct (_ || _); [reflexivity | apply IH].
Qed.

Lemma fmt_d_loop_acc fuel n acc :
  fmt_d_loop fuel n acc = fmt_d_loop fuel n "" ++ acc.
Proof.
  revert n acc. induction fuel as [|fuel IH]; intros n acc; cbn.
  - reflexivity.
  - destruct (n <? 10); [reflexivity|].
    rewrite IH. rewrite (IH _ (String _ "")).
    rewrite append_assoc. reflexivity.
Qed.

Lemma fmt_d_loop_nonempty fuel n acc :
  exists c s, fmt_d_loop fuel n acc = String c s.
Proof.
  revert n acc. induction fuel as [|fuel IH]; intros n acc; cbn.
  - eauto.
  - destruct (n <? 10); [eauto | apply IH].
Qed.

(** Reading one more digit into a value that leaves room for it. *)
Lemma ParseUint_loop_digit d a :
  d < 10 -> a * 10 + d <= maxUint64 ->
  ParseUint_loop (String (ascii_of_N (48 + d)) "") a = OK (a * 10 + d).
Proof.
  intros D M. cbn [ParseUint_loop]. unfold is_digit.
  rewrite N_ascii_embedding by lia.
  replace ((48 <=? 48 + d) && (48 + d <=? 57)) with true
    by (symmetry; apply andb_true_intro; split; apply N.leb_le; lia).
  cbv zeta.
  assert (C : (maxUint64 / 10 + 1 <=? a) = false).
  { apply N.leb_gt. unfold maxUint64 in *.
    change (2 ^ 64 - 1) with 18446744073709551615 in *.
    change (18446744073709551615 / 10) with 1844674407370955161. lia. }
  rewrite C.
  replace (48 + d - 48) with d by lia.
  assert (R : (a * 10 + d) mod 2 ^ 64 = a * 10 + d).
  { apply N.mod_small. unfold maxUint64 in M. lia. }
  rewrite R.
  replace (a * 10 + d <? a * 10) with false by (symmetry; apply N.ltb_ge; lia).
  replace (maxUint64 <? a * 10 + d) with false
    by (symmetry; apply N.ltb_ge; lia).
  reflexivity.
Qed.

Lemma ParseUint_loop_fmt_d fuel :
  forall n, n < 10 * 2 ^ N.of_nat fuel ->
  exists p, 0 < p /\
    forall a, a * p + n <= maxUint64 ->
      ParseUint_loop (fmt_d_loop fuel n "") a = OK (a * p + n).
Proof.
  induction fuel as [|fuel IH]; intros n B.
  - exists 10. split; [lia|]. intros a M. cbn [fmt_d_loop].
    cbn in B. rewrite N.mod_small by lia.
    apply ParseUint_loop_digit; lia.
  - cbn [fmt_d_loop]. destruct (N.ltb_spec n 10) as [S|S].
    + exists 10. split; [lia|]. intros a M. rewrite N.mod_small by lia.
      apply ParseUint_loop_digit; lia.
    + assert (B' : n / 10 < 10 * 2 ^ N.of_nat fuel).
      { apply N.Div0.div_lt_upper_bound.
        rewrite Nat2N.inj_succ, N.pow_succ_r' in B. lia. }
      destruct (IH _ B') as [p [Pp Hp]].
      exists (p * 10). split; [lia|]. intros a M.
      rewrite fmt_d_loop_acc, ParseUint_loop_app.
      pose proof (N.div_mod n 10 ltac:(lia)) as DM.
      pose proof (N.mod_lt n 10 ltac:(lia)) as ML.
      replace (a * (p * 10)) with (a * p * 10) in * by ring.
      assert (Hx : a * p + n / 10 <= maxUint64).
      { clear - M DM ML. generalize dependent (a * p). intros x M.
        generalize dependent (n / 10). generalize dependent (n mod 10).
        intros r ML q DM. lia. }
      rewrite (Hp a Hx).
      rewrite ParseUint_loop_digit by lia.
      f_equal. lia.
Qed.

(** [strconv.ParseUint] reads back what [%d] writes. *)
Lemma ParseUint_Sprintf_d n :
  n <= maxUint64 -> ParseUint (Sprintf_d n) = OK n.
Proof.
  intros M. unfold ParseUint, Sprintf_d.
  destruct (fmt_d_loop_nonempty (N.to_nat (N.log2 n)) n "") as [c [s E]].
  assert (B : n < 10 * 2 ^ N.of_nat (N.to_nat (N.log2 n))).
  { rewrite N2Nat.id. destruct (N.eq_dec n 0) as [->|NZ]; [cbn; lia|].
    pose proof (N.log2_spec n ltac:(lia)) as [_ U].
    rewrite N.pow_succ_r' in U. lia. }
  destruct (ParseUint_loop_fmt_d _ B) as [p [_ Hp]].
  specialize (Hp 0 ltac:(lia)). rewrite E in *. rewrite Hp.
  f_equal.
Qed.

Lemma Sprintf_d_nonempty n : String.eqb (Sprintf_d n) "" = false.
Proof.
  unfold Sprintf_d.
  destruct (fmt_d_loop_nonempty (N.to_nat (N.log2 n)) n "") as [c [s ->]].
  reflexivity.
Qed.

Lemma hex_byte b :
  fromHexChar (hex_char (Byte.to_N b / 16)) = Some (Byte.to_N b / 16) /\
  fromHexChar (hex_char (Byte.to_N b mod 16)) = Some (Byte.to_N b mod 16) /\
  byte_of_N (Byte.to_N b / 16 * 16 + Byte.to_N b mod 16) = b.
Proof. destruct b; vm_compute; repeat split. Qed.

(** [hex.DecodeString] reads back what [hex.EncodeToString] writes. *)
Lemma DecodeString_hex_encode bs : DecodeString (hex_encode bs) = OK bs.
Proof.
  induction bs as [|b bs IH]; [reflexivity|].
  cbn [hex_encode DecodeString].
  destruct (hex_byte b) as (-> & -> & E). rewrite IH. cbn. now rewrite E.
Qed.

Lemma substring_all s : String.substring 0 (String.length s) s = s.
Proof. induction s as [|c s IH]; cbn; [reflexivity | now rewrite IH]. Qed.

Lemma TrimPrefix_0x s : TrimPrefix ("0x" ++ s) "0x" = s.
Proof.
  unfold TrimPrefix. cbn. rewrite Nat.sub_0_r.
  replace (String.prefix "" s) with true by (now destruct s).
  apply substring_all.
Qed.

Lemma root_bytes_Sprintf_sharp_x bs :
  root_bytes (Sprintf_sharp_x bs) = OK bs.
Proof.
  unfold root_bytes, Sprintf_sharp_x. rewrite TrimPrefix_0x.
  apply DecodeString_hex_encode.
Qed.

Lemma copy_same_length dst src :
  List.length dst = List.length src -> copy dst src = src.
Proof.
  intros L. unfold copy. rewrite L, Nat.min_id, firstn_all.
  rewrite <- L, skipn_all, app_nil_r. reflexivity.
Qed.

(* ================================================================= *)
(** ** The text of a tree is read back as the tree *)

(** What may follow a value in a compact text: nothing, a comma or a
    closing bracket. *)
Definition delimited (rest : string) : bool :=
  match rest with
  | EmptyString => true
  | String c _ =>
      (N_of_ascii c =? 44) || (N_of_ascii c =? 93) || (N_of_ascii c =? 125)
  end.

Lemma lex_cons st c s :
  lex st (String c s) = (fst (lex_step st c) ++ lex (snd (lex_step st c)) s)%list.
Proof. cbn [lex]. now destruct (lex_step st c). Qed.

Lemma delimiter_ends_number st c :
  ((N_of_ascii c =? 44) || (N_of_ascii c =? 93) || (N_of_ascii c =? 125)) = true ->
  num_step st c = None /\ exists t, start_step c = ([t], LStart).
Proof.
  intros D.
  assert (E : c = ","%char \/ c = "]"%char \/ c = "}"%char).
  { rewrite !orb_true_iff, !N.eqb_eq in D.
    destruct D as [[D|D]|D]; apply (f_equal ascii_of_N) in D;
      rewrite ascii_N_embedding in D; subst; auto. }
  destruct E as [->|[->| ->]]; (split; [now destruct st | eexists; reflexivity]).
Qed.

Lemma lex_number st s : forall acc rest,
  num_run st s = true -> delimited rest = true ->
  lex (LNum st acc) (s ++ rest) = (TNumber (acc ++ s) :: lex LStart rest)%list.
Proof.
  revert st. induction s as [|c s IH]; intros st acc rest R D.
  - cbn [append] in *. cbn [num_run] in R. rewrite append_nil_r.
    destruct rest as [|d rest].
    + cbn. now rewrite R.
    + cbn [delimited] in D.
      destruct (delimiter_ends_number st d D) as [E [t T]].
      rewrite !lex_cons. cbn [lex_step]. rewrite E, R, T. reflexivity.
  - cbn [num_run] in R. destruct (num_step st c) as [st'|] eqn:E; [|discriminate].
    cbn [append]. rewrite lex_cons. cbn [lex_step]. rewrite E. cbn [fst snd app].
    rewrite (IH st' _ _ R D). unfold snoc. rewrite append_assoc. reflexivity.
Qed.

Lemma lex_number_literal lit rest :
  number_literal lit = true -> delimited rest = true ->
  lex LStart (lit ++ rest) = (TNumber lit :: lex LStart rest)%list.
Proof.
  destruct lit as [|c s]; [intros R; cbv in R; discriminate R|].
  cbn [number_literal].
  intros R D. cbn [append]. rewrite lex_cons. cbn [lex_step].
  unfold start_step.
  destruct (N_of_ascii c =? 45) eqn:E1.
  { apply N.eqb_eq in E1. apply (f_equal ascii_of_N) in E1.
    rewrite ascii_N_embedding in E1. subst c. cbn.
    now rewrite (lex_number NNeg s _ _ R D). }
  destruct (N_of_ascii c =? 48) eqn:E2.
  { apply N.eqb_eq in E2. apply (f_equal ascii_of_N) in E2.
    rewrite ascii_N_embedding in E2. subst c. cbn.
    now rewrite (lex_number NZero s _ _ R D). }
  destruct (is_digit c) eqn:E3; [|discriminate].
  assert (S : is_space c = false).
  { unfold is_digit, is_space in *. apply andb_prop in E3 as [A B].
    apply N.leb_le in A. apply N.leb_le in B.
    repeat (apply orb_false_intro); apply N.eqb_neq; lia. }
  rewrite S.
  unfold is_digit in E3. apply andb_prop in E3 as [A B].
  apply N.leb_le in A. apply N.leb_le in B.
  repeat match goal with
         | |- context [N_of_ascii c =? ?k] =>
             replace (N_of_ascii c =? k) with false
               by (symmetry; apply N.eqb_neq; lia)
         end.
  replace (is_digit c) with true
    by (symmetry; unfold is_digit; apply andb_true_intro;
        split; apply N.leb_le; lia).
  cbn [fst snd app]. now rewrite (lex_number NInt s _ _ R D).
Qed.

(** One byte of a string literal is read back as the byte. *)
Lemma lex_encode_char c acc rest :
  (N_of_ascii c <? 128) = true ->
  lex (LStr acc) (encode_char c ++ rest) = lex (LStr (snoc acc c)) rest.
Proof.
  destruct c as [b0 b1 b2 b3 b4 b5 b6 b7].
  destruct b7, b0, b1, b2, b3, b4, b5, b6; intros A;
    solve [vm_compute in A; discriminate A | reflexivity].
Qed.

Lemma lex_encode_chars s : forall acc rest,
  ascii_only s = true ->
  lex (LStr acc) (encode_chars s ++ String dquote rest) =
  (TString (acc ++ s) :: lex LStart rest)%list.
Proof.
  induction s as [|c s IH]; intros acc rest A.
  - cbn. now rewrite append_nil_r.
  - cbn [ascii_only] in A. apply andb_prop in A as [A1 A2].
    cbn [encode_chars]. rewrite append_assoc, lex_encode_char by assumption.
    rewrite IH by assumption. unfold snoc. now rewrite append_assoc.
Qed.

Lemma lex_encode_string s rest :
  ascii_only s = true ->
  lex LStart (encode_string s ++ rest) = (TString s :: lex LStart rest)%list.
Proof.
  intros A. unfold encode_string. cbn [append]. rewrite lex_cons.
  cbn [lex_step fst snd app]. change (start_step dquote) with (@nil token, LStr "").
  cbn [fst snd app]. rewrite append_assoc. cbn [append].
  now rewrite lex_encode_chars.
Qed.

(** The members after the first one, each behind its comma, and the
    closing bracket. *)
Definition tail_text {A : Type} (f : A -> string) (close : string)
    (xs : list A) : string :=
  fold_right (fun x acc => "," ++ f x ++ acc) close xs.

Lemma join_tail {A : Type} (f : A -> string) close xs : forall x,
  join "," (map f (x :: xs)) ++ close = f x ++ tail_text f close xs.
Proof.
  induction xs as [|y xs IH]; intros x.
  - reflexivity.
  - change (join "," (map f (x :: y :: xs)))
      with (f x ++ "," ++ join "," (map f (y :: xs))).
    rewrite !append_assoc, IH. reflexivity.
Qed.

Lemma delimited_tail {A : Type} (f : A -> string) c rest xs :
  c = "]"%char \/ c = "}"%char ->
  delimited (tail_text f (String c rest) xs) = true.
Proof. intros [-> | ->]; destruct xs; reflexivity. Qed.

Lemma lex_encode v :
  json_wf v = true -> forall rest, delimited rest = true ->
  lex LStart (encode v ++ rest) = (tokens_of v ++ lex LStart rest)%list.
Proof.
  induction v as [| b | lit | s | elems IH | members IH] using json_induction;
    intros W rest D.
  - reflexivity.
  - destruct b; reflexivity.
  - now apply lex_number_literal.
  - now apply lex_encode_string.
  - destruct elems as [|e elems]; [reflexivity|].
    cbn [json_wf forallb] in W. apply andb_prop in W as [We W].
    inversion IH as [|? ? IHe IHs]; subst.
    cbn [encode tokens_of]. rewrite !append_assoc, join_tail.
    cbn [append]. rewrite lex_cons. cbn [lex_step fst snd app].
    change (start_step "[") with ([TLBracket], LStart). cbn [fst snd app].
    f_equal. rewrite IHe by (try assumption; apply delimited_tail; auto).
    rewrite <- app_assoc. f_equal. rewrite <- app_assoc.
    clear e We IHe IH. induction elems as [|e elems IHl].
    + reflexivity.
    + cbn [forallb] in W. apply andb_prop in W as [We W].
      inversion IHs as [|? ? IHe IHs']; subst.
      cbn [tail_text fold_right flat_map].
      cbn [append]. rewrite lex_cons. cbn [lex_step fst snd app].
      change (start_step ",") with ([TComma], LStart). cbn [fst snd app].
      f_equal. fold (tail_text encode (String "]" rest) elems).
      rewrite IHe by (try assumption; apply delimited_tail; auto).
      rewrite <- !app_assoc. f_equal. apply IHl; assumption.
  - destruct members as [|m members]; [reflexivity|].
    cbn [json_wf forallb] in W. apply andb_prop in W as [Wm W].
    apply andb_prop in Wm as [Wk Wv].
    inversion IH as [|? ? IHm IHs]; subst.
    cbn [encode tokens_of]. rewrite !append_assoc, join_tail.
    cbn [append]. rewrite lex_cons. cbn [lex_step fst snd app].
    change (start_step "{") with ([TLBrace], LStart). cbn [fst snd app].
    f_equal. rewrite !append_assoc, lex_encode_string by assumption.
    f_equal. cbn [append]. rewrite lex_cons. cbn [lex_step fst snd app].
    change (start_step ":") with ([TColon], LStart). cbn [fst snd app].
    f_equal. rewrite IHm by (try assumption; apply delimited_tail; auto).
    rewrite <- app_assoc. f_equal. rewrite <- app_assoc.
    clear m Wk Wv IHm IH. induction members as [|m members IHl].
    + reflexivity.
    + cbn [forallb] in W. apply andb_prop in W as [Wm W].
      apply andb_prop in Wm as [Wk Wv].
      inversion IHs as [|? ? IHm IHs']; subst.
      cbn [tail_text fold_right flat_map].
      cbn [append]. rewrite lex_cons. cbn [lex_step fst snd app].
      change (start_step ",") with ([TComma], LStart). cbn [fst snd app].
      f_equal. rewrite !append_assoc, lex_encode_string by assumption.
      f_equal. cbn [append]. rewrite lex_cons. cbn [lex_step fst snd app].
      change (start_step ":") with ([TColon], LStart). cbn [fst snd app].
      f_equal.
      fold (tail_text (fun m => encode_string (fst m) ++ ":" ++ encode (snd m))
              (String "}" rest) members).
      rewrite IHm by (try assumption; apply delimited_tail; auto).
      rewrite <- !app_assoc. f_equal. apply IHl; assumption.
Qed.

(** The first token of a value is not a closing bracket. *)
Definition opens_value (ts : list token) : bool :=
  match ts with
  | TRBracket :: _ | [] => false
  | _ => true
  end.

Lemma tokens_of_opens v rest : opens_value (tokens_of v ++ rest) = true.
Proof.
  destruct v as [| [|] | | | [|e elems] | [|m members]]; reflexivity.
Qed.

Lemma parse_value_array fuel r :
  opens_value r = true ->
  parse_value (S fuel) (TLBracket :: r) =
  (p <- parse_value fuel r ;;
   q <- parse_elements fuel (snd p) ;;
   OK (JArray (fst p :: fst q), snd q)).
Proof. destruct r as [|[] r]; first [discriminate | reflexivity]. Qed.

Definition parses (v : json) : Prop :=
  forall fuel rest, (List.length (tokens_of v) < fuel)%nat ->
    parse_value fuel (tokens_of v ++ rest) = OK (v, rest).

Lemma parse_elements_tail elems :
  Forall parses elems ->
  forall fuel rest,
    (List.length (flat_map (fun e => TComma :: tokens_of e) elems) < fuel)%nat ->
    parse_elements fuel
      (flat_map (fun e => TComma :: tokens_of e) elems ++ TRBracket :: rest) =
    OK (elems, rest).
Proof.
  induction 1 as [|e elems He _ IH]; intros fuel rest L.
  - destruct fuel; [inversion L | reflexivity].
  - cbn [flat_map app] in *.
    cbn [List.length] in L. rewrite length_app in L.
    destruct fuel as [|fuel]; [inversion L|].
    cbn [parse_elements]. rewrite <- app_assoc.
    rewrite He by lia. cbn [bind fst snd].
    rewrite IH by lia. reflexivity.
Qed.

Lemma parse_members_tail members :
  Forall (fun m => parses (snd m)) members ->
  forall fuel rest,
    (List.length
       (flat_map (fun m => TComma :: TString (fst m) :: TColon :: tokens_of (snd m))
          members) < fuel)%nat ->
    parse_members fuel
      (flat_map (fun m => TComma :: TString (fst m) :: TColon :: tokens_of (snd m))
         members ++ TRBrace :: rest) =
    OK (members, rest).
Proof.
  induction 1 as [|[k v] members Hm _ IH]; intros fuel rest L.
  - destruct fuel; [inversion L | reflexivity].
  - cbn [flat_map fst snd app] in *.
    cbn [List.length] in L. rewrite length_app in L.
    destruct fuel as [|fuel]; [inversion L|].
    cbn [parse_members]. rewrite <- app_assoc.
    rewrite Hm by lia. cbn [bind fst snd].
    rewrite IH by lia. reflexivity.
Qed.

Lemma parse_tokens_of v : parses v.
Proof.
  induction v as [| b | lit | s | elems IH | members IH] using json_induction;
    intros fuel rest L; (destruct fuel as [|fuel]; [inversion L|]).
  - reflexivity.
  - destruct b; reflexivity.
  - reflexivity.
  - reflexivity.
  - destruct elems as [|e elems]; [reflexivity|].
    inversion IH as [|? ? IHe IHs]; subst.
    cbn [tokens_of app] in *.
    cbn [List.length] in L. rewrite !length_app in L. cbn [List.length] in L.
    rewrite parse_value_array by (rewrite <- app_assoc; apply tokens_of_opens).
    rewrite <- !app_assoc. rewrite IHe by lia. cbn [bind fst snd app].
    rewrite parse_elements_tail by (try assumption; lia). reflexivity.
  - destruct members as [|[k v] members]; [reflexivity|].
    inversion IH as [|? ? IHm IHs]; subst.
    cbn [tokens_of fst snd app] in *.
    cbn [List.length] in L. rewrite !length_app in L. cbn [List.length] in L.
    cbn [parse_value]. rewrite <- !app_assoc.
    rewrite IHm by lia. cbn [bind fst snd app].
    rewrite parse_members_tail by (try assumption; lia). reflexivity.
Qed.

(** [json.Unmarshal] reads the text [json.Marshal] writes for a tree as
    that tree. *)
Lemma parse_encode v : json_wf v = true -> parse (encode v) = OK v.
Proof.
  intros W. unfold parse.
  assert (E : lex LStart (encode v) = tokens_of v).
  { rewrite <- (append_nil_r (encode v)), (lex_encode v W "" eq_refl).
    apply app_nil_r. }
  rewrite E. rewrite <- (app_nil_r (tokens_of v)) at 2.
  rewrite parse_tokens_of by lia. reflexivity.
Qed.

(* ================================================================= *)
(** ** Reading back what [MarshalJSON] writes *)

Section RoundTrip.

Context {BeaconBlockBody : Type} `{TextCodec BeaconBlockBody}.
Implicit Types (b v : BeaconBlock BeaconBlockBody)
               (j : beaconBlockJSON BeaconBlockBody).

Lemma all_digits_fmt_d fuel : forall n acc,
  all_digits acc = true -> all_digits (fmt_d_loop fuel n acc) = true.
Proof.
  assert (D : forall n, is_digit (ascii_of_N (48 + n mod 10)) = true).
  { intros n. unfold is_digit.
    pose proof (N.mod_lt n 10 ltac:(lia)) as L.
    generalize dependent (n mod 10). intros d L.
    rewrite N_ascii_embedding by lia.
    apply andb_true_intro; split; apply N.leb_le; lia. }
  induction fuel as [|fuel IH]; intros n acc A; cbn [fmt_d_loop].
  - cbn [all_digits]. now rewrite D, A.
  - destruct (n <? 10).
    + cbn [all_digits]. now rewrite D, A.
    + apply IH. cbn [all_digits]. now rewrite D, A.
Qed.

Lemma all_digits_Sprintf_d n : all_digits (Sprintf_d n) = true.
Proof. now apply all_digits_fmt_d. Qed.

Lemma is_hex_char_hex_char n : n < 16 -> is_hex_char (hex_char n) = true.
Proof.
  intros L. assert (E : n = N.of_nat (N.to_nat n)) by now rewrite N2Nat.id.
  assert (L' : (N.to_nat n < 16)%nat) by lia.
  rewrite E. clear E L. generalize dependent (N.to_nat n). intros m L.
  do 16 (destruct m as [|m]; [reflexivity|]). lia.
Qed.

Lemma all_hex_hex_encode bs : all_hex (hex_encode bs) = true.
Proof.
  induction bs as [|x bs IH]; [reflexivity|].
  cbn [hex_encode all_hex]. rewrite IH.
  pose proof (Byte.to_N_bounded x) as L.
  rewrite !is_hex_char_hex_char; [reflexivity | |].
  - apply N.mod_lt. discriminate.
  - apply N.Div0.div_lt_upper_bound.
    generalize dependent (Byte.to_N x). intros; lia.
Qed.

Lemma plain_char c :
  plain c = true ->
  (N_of_ascii c <? 128) = true /\ encode_char c = String c "" /\
  Ascii.eqb c dquote = false.
Proof.
  destruct c as [b0 b1 b2 b3 b4 b5 b6 b7].
  destruct b7, b0, b1, b2, b3, b4, b5, b6; intros A;
    solve [vm_compute in A; discriminate A | repeat split].
Qed.

Lemma all_plain_spec s :
  all_plain s = true ->
  ascii_only s = true /\ encode_chars s = s /\
  ReplaceAll s dquote "'" = s.
Proof.
  induction s as [|c s IH]; [repeat split|].
  cbn [all_plain]. intros A. apply andb_prop in A as [A1 A2].
  destruct (plain_char c A1) as (P1 & P2 & P3).
  destruct (IH A2) as (I1 & I2 & I3).
  cbn [ascii_only encode_chars ReplaceAll].
  rewrite P1, P2, P3, I1, I2, I3. repeat split.
Qed.

Lemma all_digits_plain s : all_digits s = true -> all_plain s = true.
Proof.
  induction s as [|c s IH]; [reflexivity|]. cbn [all_digits all_plain].
  intros A. apply andb_prop in A as [A1 A2]. unfold plain.
  now rewrite A1, IH.
Qed.

Lemma all_hex_plain s : all_hex s = true -> all_plain s = true.
Proof.
  induction s as [|c s IH]; [reflexivity|]. cbn [all_hex all_plain].
  intros A. apply andb_prop in A as [A1 A2]. unfold plain.
  rewrite A1, IH by assumption. now rewrite orb_true_r.
Qed.

Lemma plain_Sprintf_d n : all_plain (Sprintf_d n) = true.
Proof. apply all_digits_plain, all_digits_Sprintf_d. Qed.

Lemma plain_Sprintf_sharp_x bs : all_plain (Sprintf_sharp_x bs) = true.
Proof.
  unfold Sprintf_sharp_x. cbn [append all_plain].
  now rewrite all_hex_plain by apply all_hex_hex_encode.
Qed.

End RoundTrip.

Section RoundTripJSON.

Context {BeaconBlockBody : Type} `{TextCodec BeaconBlockBody}.
Implicit Types (b v : BeaconBlock BeaconBlockBody)
               (j : beaconBlockJSON BeaconBlockBody).

(** [unpack] takes the struct literal of [MarshalJSON] back to the
    block. *)
Lemma unpack_to_beaconBlockJSON b v body :
  well_typed b -> well_typed v -> Body v = Some body ->
  unpack b (to_beaconBlockJSON v) = (v, None).
Proof.
  intros (_ & _ & Lb1 & Lb2) (S1 & S2 & L1 & L2) B.
  unfold unpack, to_beaconBlockJSON.
  cbn [json_Slot json_ProposerIndex json_ParentRoot json_StateRoot json_Body].
  rewrite !Sprintf_d_nonempty, !ParseUint_Sprintf_d by assumption.
  pose proof (root_bytes_Sprintf_sharp_x (ParentRoot v)) as R1.
  pose proof (root_bytes_Sprintf_sharp_x (StateRoot v)) as R2.
  unfold root_bytes in R1, R2. rewrite R1, R2, L1, L2, B.
  change (String.eqb (Sprintf_sharp_x ?x) "") with false.
  rewrite Nat.eqb_refl.
  cbn [negb set_Slot set_ProposerIndex set_ParentRoot set_StateRoot set_Body
       Slot ProposerIndex ParentRoot StateRoot Body].
  rewrite !copy_same_length by congruence.
  destruct v; cbn in *; subst; reflexivity.
Qed.

(** The members [json.Marshal] writes are read into the fields they
    came from. *)
Lemma decode_tree_of j :
  match json_Body j with
  | Some x => reads_back x
  | None => True
  end ->
  decode_beaconBlockJSON (tree_of_beaconBlockJSON j) = OK j.
Proof.
  destruct j as [s1 s2 s3 s4 [x|]]; cbn [json_Body].
  - intros (_ & N & R). unfold decode_beaconBlockJSON, tree_of_beaconBlockJSON.
    cbn -[codec_MarshalJSON codec_UnmarshalJSON].
    destruct (codec_MarshalJSON x) eqn:E; try congruence;
      rewrite R; reflexivity.
  - intros _. reflexivity.
Qed.

Lemma json_wf_tree_of j :
  all_plain (json_Slot j) = true ->
  all_plain (json_ProposerIndex j) = true ->
  all_plain (json_ParentRoot j) = true ->
  all_plain (json_StateRoot j) = true ->
  match json_Body j with
  | Some x => reads_back x
  | None => True
  end ->
  json_wf (tree_of_beaconBlockJSON j) = true.
Proof.
  intros A1 A2 A3 A4 B.
  apply all_plain_spec in A1 as (A1 & _), A2 as (A2 & _),
      A3 as (A3 & _), A4 as (A4 & _).
  unfold tree_of_beaconBlockJSON.
  cbn [json_wf forallb fst snd ascii_only].
  rewrite A1, A2, A3, A4. cbn.
  destruct (json_Body j) as [x|]; [|reflexivity].
  destruct B as (W & _). cbn [encode_Body]. now rewrite W.
Qed.

Lemma UnmarshalJSON_MarshalJSON b v :
  well_typed b -> well_formed v ->
  Unmarshal_beaconBlockJSON (MarshalJSON v) = OK (to_beaconBlockJSON v) /\
  UnmarshalJSON b (MarshalJSON v) = (v, None).
Proof.
  intros Tb (Tv & body & B & R).
  assert (U : Unmarshal_beaconBlockJSON (MarshalJSON v)
              = OK (to_beaconBlockJSON v)).
  { unfold Unmarshal_beaconBlockJSON, MarshalJSON, Marshal_beaconBlockJSON.
    rewrite parse_encode.
    - cbn [bind]. apply decode_tree_of.
      cbn [json_Body to_beaconBlockJSON]. now rewrite B.
    - apply json_wf_tree_of;
        cbn [json_Slot json_ProposerIndex json_ParentRoot json_StateRoot
             json_Body to_beaconBlockJSON];
        auto using plain_Sprintf_d, plain_Sprintf_sharp_x.
      now rewrite B. }
  split; [exact U|].
  unfold UnmarshalJSON. rewrite U. now apply unpack_to_beaconBlockJSON with body.
Qed.

End RoundTripJSON.

(** C1.  For every well-formed [BeaconBlock] [v] (the integers below 2^64
    and the roots of 32 bytes, as their Go types hold them, and a body
    that is not nil and that its own methods write and read back),
    decoding the text [MarshalJSON] writes for [v] into any receiver [b]
    succeeds and leaves [v] in the receiver; the same holds when the text
    goes through [json.Unmarshal] as in the tests. *)
Theorem C1_UnmarshalJSON_MarshalJSON
    {BeaconBlockBody : Type} `{TextCodec BeaconBlockBody}
    (b v : BeaconBlock BeaconBlockBody) :
  well_typed b -> well_formed v ->
  UnmarshalJSON b (MarshalJSON v) = (v, None) /\
  json_Unmarshal b (MarshalJSON v) = (v, None).
Proof.
  intros Tb Wv.
  destruct (UnmarshalJSON_MarshalJSON Tb Wv) as [U R].
  split; [exact R|].
  unfold json_Unmarshal. unfold Unmarshal_beaconBlockJSON in U.
  destruct (parse (MarshalJSON v)); [exact R | discriminate U].
Qed.

Lemma sample_block_well_formed : well_formed sample_block.
Proof.
  split.
  - unfold well_typed. cbn. repeat split; try reflexivity; unfold maxUint64; lia.
  - exists sample_body. repeat split. discriminate.
Qed.

Lemma zero_BeaconBlock_well_typed {B : Type} : well_typed (@zero_BeaconBlock B).
Proof.
  unfold well_typed. cbn. repeat split; try reflexivity; unfold maxUint64; lia.
Qed.

Lemma C1_witness :
  UnmarshalJSON sample_zero (MarshalJSON sample_block)
    = (sample_block, None) /\
  json_Unmarshal sample_zero (MarshalJSON sample_block)
    = (sample_block, None).
Proof.
  apply (@C1_UnmarshalJSON_MarshalJSON _ _ sample_zero sample_block).
  - apply zero_BeaconBlock_well_typed.
  - apply sample_block_well_formed.
Defined.

(* ================================================================= *)
(** ** Errors and the receiver *)

Lemma reader_error_not_field_failure f cause :
  ~ field_failure f (SyntaxError UnexpectedEnd) /\
  ~ field_failure f (Wrap cause "invalid JSON").
Proof.
  unfold field_failure, missing, invalid_value, incorrect_length.
  split; intros [E | [[c E] | E]]; destruct f; discriminate E.
Qed.

(** C8.  Decoding zero bytes of JSON fails with the syntax error whose
    message is "unexpected end of JSON input": [json.Unmarshal] returns it
    as it is, the method [UnmarshalJSON] called on its own returns it
    wrapped by "invalid JSON".  The reader rejects the text, so [unpack]
    does not run: the receiver is as it was and the error is not an error
    of any field. *)
Theorem C8_empty_input
    {BeaconBlockBody : Type} `{TextCodec BeaconBlockBody}
    (b : BeaconBlock BeaconBlockBody) :
  Unmarshal_beaconBlockJSON (BeaconBlockBody := BeaconBlockBody) ""
    = Err (SyntaxError UnexpectedEnd) /\
  syntax_error_message UnexpectedEnd = "unexpected end of JSON input" /\
  json_Unmarshal b "" = (b, Some (SyntaxError UnexpectedEnd)) /\
  UnmarshalJSON b ""
    = (b, Some (Wrap (SyntaxError UnexpectedEnd) "invalid JSON")) /\
  Cause (Wrap (SyntaxError UnexpectedEnd) "invalid JSON")
    = SyntaxError UnexpectedEnd /\
  forall f, ~ field_failure f (SyntaxError UnexpectedEnd) /\
            ~ field_failure f (Wrap (SyntaxError UnexpectedEnd) "invalid JSON").
Proof.
  do 5 (split; [reflexivity|]).
  intros f. apply reader_error_not_field_failure.
Qed.

(** C4, as amended.  When [UnmarshalJSON] or [UnmarshalYAML] returns an
    error, either the reader of the text has refused it and the receiver
    is as it was, or [unpack] has stopped at a field [f] with an error
    of that field: then the field [f] and the fields declared after it,
    the body among them, are as they were, and, the receiver being of
    the types of Go, each field declared before [f] holds the value
    read from the text.  So the receiver is as it was when the slot is
    the field that fails. *)
Theorem C4_receiver_after_error
    {BeaconBlockBody : Type} `{TextCodec BeaconBlockBody}
    (yaml_Unmarshal : string -> result (beaconBlockJSON BeaconBlockBody))
    (reader : string -> result (beaconBlockJSON BeaconBlockBody))
    (b b' : BeaconBlock BeaconBlockBody) (input : string) (e : error) :
  (reader = Unmarshal_beaconBlockJSON /\
   UnmarshalJSON b input = (b', Some e)) \/
  (reader = yaml_Unmarshal /\
   UnmarshalYAML yaml_Unmarshal b input = (b', Some e)) ->
  (exists cause, reader input = Err cause /\ b' = b /\
     (e = Wrap cause "invalid JSON" \/ e = cause)) \/
  (exists j f,
     reader input = OK j /\
     reaches f j = true /\ passes f j = false /\ field_failure f e /\
     b' = stored_before f b j /\
     (forall g, (position f <= position g)%nat -> kept_at g b b') /\
     (well_typed b ->
      forall g, (position g < position f)%nat -> decoded_at g j b') /\
     (f = FSlot -> b' = b)).
Proof.
  assert (U : forall j, unpack b j = (b', Some e) ->
     exists f, reaches f j = true /\ passes f j = false /\ field_failure f e /\
       b' = stored_before f b j /\
       (forall g, (position f <= position g)%nat -> kept_at g b b') /\
       (well_typed b ->
        forall g, (position g < position f)%nat -> decoded_at g j b') /\
       (f = FSlot -> b' = b)).
  { intros j E. apply unpack_fails_at in E as (f & R & P & -> & F).
    exists f. repeat split; auto.
    - intros g L. destruct f, g; cbn in L; try lia; reflexivity.
    - intros (_ & _ & Lp & Ls) g L.
      destruct f, g; cbn in L; try lia; cbn [stored_before decoded_at];
        first [ apply reaches_body in R as (S1 & S2 & S3 & S4)
              | apply reaches_state_root in R as (S1 & S2 & S3)
              | apply reaches_parent_root in R as (S1 & S2)
              | apply reaches_proposer_index in R as S1 ];
        repeat match goal with
               | S : is_uint _ = true |- _ =>
                   apply is_uint_inv in S as (_ & ? & S); rewrite ?S
               | S : is_root _ = true |- _ =>
                   let L := fresh "L" in
                   apply is_root_inv in S as (_ & ? & S & L); rewrite ?S
               end;
        cbn [Slot ProposerIndex ParentRoot StateRoot];
        try reflexivity;
        rewrite copy_same_length by congruence; reflexivity.
    - now intros ->. }
  unfold UnmarshalJSON, UnmarshalYAML. intros [[-> E] | [-> E]].
  - destruct (Unmarshal_beaconBlockJSON input) as [j|err] eqn:R.
    + right. destruct (U j E) as (f & F). exists j, f. tauto.
    + left. exists err. inversion E; subst. auto.
  - destruct (yaml_Unmarshal input) as [j|err] eqn:R.
    + right. destruct (U j E) as (f & F). exists j, f. tauto.
    + left. exists err. inversion E; subst. auto.
Qed.

Lemma C4_witness :
  UnmarshalJSON sample_zero text_slot_only
    = (set_Slot sample_zero 1, Some (missing FProposerIndex)) /\
  ((exists cause,
      Unmarshal_beaconBlockJSON text_slot_only = Err cause /\
      set_Slot sample_zero 1 = sample_zero /\
      (missing FProposerIndex = Wrap cause "invalid JSON" \/
       missing FProposerIndex = cause)) \/
   (exists j f,
      Unmarshal_beaconBlockJSON text_slot_only = OK j /\
      reaches f j = true /\ passes f j = false /\
      field_failure f (missing FProposerIndex) /\
      set_Slot sample_zero 1 = stored_before f sample_zero j /\
      (forall g, (position f <= position g)%nat ->
         kept_at g sample_zero (set_Slot sample_zero 1)) /\
      (well_typed sample_zero ->
       forall g, (position g < position f)%nat ->
         decoded_at g j (set_Slot sample_zero 1)) /\
      (f = FSlot -> set_Slot sample_zero 1 = sample_zero))).
Proof.
  assert (E : UnmarshalJSON sample_zero text_slot_only
    = (set_Slot sample_zero 1, Some (missing FProposerIndex)))
    by reflexivity.
  split; [exact E|].
  exact (@C4_receiver_after_error _ _ sample_yaml_Unmarshal
           Unmarshal_beaconBlockJSON _ _ _ _ (or_introl (conj eq_refl E))).
Defined.

(** C4, as stated, fails: the text with the slot alone is rejected for
    its missing proposer index after the slot has been stored, so the
    receiver is not as it was. *)
Lemma C4_counterexample :
  UnmarshalJSON sample_zero text_slot_only
    = (set_Slot sample_zero 1, Some (New "proposer index missing")) /\
  Slot sample_zero = 0 /\
  Slot (set_Slot sample_zero 1) = 1 /\
  set_Slot sample_zero 1 <> sample_zero.
Proof. repeat split. discriminate. Qed.

(* ================================================================= *)
(** ** Roots with and without the prefix *)

Lemma TrimPrefix_all_hex s : all_hex s = true -> TrimPrefix s "0x" = s.
Proof.
  intros A. unfold TrimPrefix.
  destruct s as [|c1 [|c2 s]].
  - reflexivity.
  - cbn [String.prefix]. now destruct (ascii_dec "0" c1).
  - cbn [String.prefix]. destruct (ascii_dec "0" c1); [|reflexivity].
    destruct (ascii_dec "x" c2) as [<-|]; [|reflexivity].
    cbn in A. rewrite andb_false_r in A. discriminate A.
Qed.

Lemma DecodeString_all_hex n : forall s,
  String.length s = (2 * n)%nat -> all_hex s = true ->
  exists bs, DecodeString s = OK bs /\ List.length bs = n.
Proof.
  induction n as [|n IH]; intros s L A.
  - destruct s; [|discriminate L]. now exists [].
  - destruct s as [|p [|q s]]; try (cbn in L; lia).
    cbn [all_hex] in A. apply andb_prop in A as [Ap A].
    apply andb_prop in A as [Aq A].
    destruct (IH s) as (bs & D & Lb); [cbn in L; lia | assumption |].
    unfold is_hex_char in Ap, Aq. cbn [DecodeString].
    destruct (fromHexChar p); [|discriminate Ap].
    destruct (fromHexChar q); [|discriminate Aq].
    rewrite D. cbn [bind]. eexists. split; [reflexivity|]. cbn. now rewrite Lb.
Qed.

Section Prefix.

Context {BeaconBlockBody : Type}.
Implicit Types (b : BeaconBlock BeaconBlockBody)
               (j : beaconBlockJSON BeaconBlockBody).

(** The parent root [unpack] has stored once it is past that field. *)
Lemma unpack_stores_ParentRoot b j bs :
  reaches FParentRoot j = true ->
  json_ParentRoot j <> "" ->
  root_bytes (json_ParentRoot j) = OK bs -> List.length bs = RootLength ->
  ParentRoot (fst (unpack b j)) = copy (ParentRoot b) bs.
Proof.
  intros R Z D L. apply reaches_parent_root in R as [S1 S2].
  apply is_uint_inv in S1 as [Z1 [n1 P1]].
  apply is_uint_inv in S2 as [Z2 [n2 P2]].
  apply String.eqb_neq in Z. unfold root_bytes in D.
  unfold unpack. rewrite Z1, P1, Z2, P2, Z, D, L, Nat.eqb_refl. cbn [negb].
  destruct (String.eqb (json_StateRoot j) ""); [reflexivity|].
  destruct (DecodeString (TrimPrefix (json_StateRoot j) "0x")); [|reflexivity].
  destruct (negb _); [reflexivity|].
  destruct (json_Body j); reflexivity.
Qed.

(** The state root [unpack] has stored once it is past that field. *)
Lemma unpack_stores_StateRoot b j bs :
  reaches FStateRoot j = true ->
  json_StateRoot j <> "" ->
  root_bytes (json_StateRoot j) = OK bs -> List.length bs = RootLength ->
  StateRoot (fst (unpack b j)) = copy (StateRoot b) bs.
Proof.
  intros R Z D L. apply reaches_state_root in R as (S1 & S2 & S3).
  apply is_uint_inv in S1 as [Z1 [n1 P1]].
  apply is_uint_inv in S2 as [Z2 [n2 P2]].
  apply is_root_inv in S3 as [Z3 [bs3 [P3 L3]]].
  apply String.eqb_neq in Z. unfold root_bytes in D, P3.
  unfold unpack.
  rewrite Z1, P1, Z2, P2, Z3, P3, L3, Z, D, L, Nat.eqb_refl. cbn [negb].
  destruct (json_Body j); reflexivity.
Qed.

End Prefix.

(** C10.  For every string [s] of 64 hexadecimal digits, the root fields
    are taken with and without the prefix 0x: both spellings decode to
    the same 32 bytes, each passes the checks of its field, and [unpack]
    returns the same receiver and the same error or success for both.
    The decoded bytes are what [unpack] stores: once it is past the
    fields before the parent root, the parent root of the receiver, an
    array of 32 bytes, is these bytes for either spelling, and so is the
    state root once [unpack] is past the fields before it. *)
Theorem C10_prefix_optional
    {BeaconBlockBody : Type}
    (b : BeaconBlock BeaconBlockBody) (j : beaconBlockJSON BeaconBlockBody)
    (s : string) :
  String.length s = 64%nat -> all_hex s = true ->
  exists bs,
    List.length bs = RootLength /\
    root_bytes s = OK bs /\ root_bytes ("0x" ++ s) = OK bs /\
    passes FParentRoot (with_ParentRoot j s) = true /\
    passes FParentRoot (with_ParentRoot j ("0x" ++ s)) = true /\
    passes FStateRoot (with_StateRoot j s) = true /\
    passes FStateRoot (with_StateRoot j ("0x" ++ s)) = true /\
    unpack b (with_ParentRoot j s) = unpack b (with_ParentRoot j ("0x" ++ s)) /\
    unpack b (with_StateRoot j s) = unpack b (with_StateRoot j ("0x" ++ s)) /\
    (reaches FParentRoot j = true ->
     ParentRoot (fst (unpack b (with_ParentRoot j s)))
       = copy (ParentRoot b) bs /\
     ParentRoot (fst (unpack b (with_ParentRoot j ("0x" ++ s))))
       = copy (ParentRoot b) bs) /\
    (List.length (ParentRoot b) = RootLength ->
     reaches FParentRoot j = true ->
     ParentRoot (fst (unpack b (with_ParentRoot j s))) = bs /\
     ParentRoot (fst (unpack b (with_ParentRoot j ("0x" ++ s)))) = bs) /\
    (List.length (StateRoot b) = RootLength ->
     reaches FStateRoot j = true ->
     StateRoot (fst (unpack b (with_StateRoot j s))) = bs /\
     StateRoot (fst (unpack b (with_StateRoot j ("0x" ++ s)))) = bs).
Proof.
  intros L A.
  destruct (DecodeString_all_hex 32 s L A) as (bs & D & Lb).
  assert (R1 : root_bytes s = OK bs)
    by (unfold root_bytes; now rewrite TrimPrefix_all_hex).
  assert (R2 : root_bytes ("0x" ++ s) = OK bs)
    by (unfold root_bytes; now rewrite TrimPrefix_0x).
  assert (N1 : s <> "") by (destruct s; [discriminate L | discriminate]).
  assert (E1 : String.eqb s "" = false) by now apply String.eqb_neq.
  exists bs. split; [exact Lb|]. split; [exact R1|]. split; [exact R2|].
  assert (P : is_root s = true /\ is_root ("0x" ++ s) = true).
  { unfold is_root. rewrite R1, R2, Lb. now split. }
  destruct P as [P1 P2].
  do 4 (split; [assumption|]).
  assert (Sp : reaches FParentRoot j = true ->
               ParentRoot (fst (unpack b (with_ParentRoot j s)))
                 = copy (ParentRoot b) bs /\
               ParentRoot (fst (unpack b (with_ParentRoot j ("0x" ++ s))))
                 = copy (ParentRoot b) bs).
  { intros R. split; apply unpack_stores_ParentRoot; auto; discriminate. }
  assert (Ss : reaches FStateRoot j = true ->
               StateRoot (fst (unpack b (with_StateRoot j s)))
                 = copy (StateRoot b) bs /\
               StateRoot (fst (unpack b (with_StateRoot j ("0x" ++ s))))
                 = copy (StateRoot b) bs).
  { intros R. split; apply unpack_stores_StateRoot; auto; discriminate. }
  unfold root_bytes in R1, R2.
  split; [|split; [|split; [exact Sp|split]]].
  - unfold unpack, with_ParentRoot.
    cbn [json_Slot json_ProposerIndex json_ParentRoot json_StateRoot json_Body].
    change (String.eqb ("0x" ++ s) "") with false. now rewrite E1, R1, R2.
  - unfold unpack, with_StateRoot.
    cbn [json_Slot json_ProposerIndex json_ParentRoot json_StateRoot json_Body].
    change (String.eqb ("0x" ++ s) "") with false. now rewrite E1, R1, R2.
  - intros Lp R. destruct (Sp R) as [S1 S2].
    rewrite S1, S2, copy_same_length by (rewrite Lp; symmetry; exact Lb).
    now split.
  - intros Ls R. destruct (Ss R) as [S1 S2].
    rewrite S1, S2, copy_same_length by (rewrite Ls; symmetry; exact Lb).
    now split.
Qed.

Lemma C10_witness :
  let s := hex_encode (repeat x11 32) in
  let j := to_beaconBlockJSON sample_block in
  exists bs,
    List.length bs = RootLength /\
    root_bytes s = OK bs /\ root_bytes ("0x" ++ s) = OK bs /\
    unpack sample_zero (with_ParentRoot j s)
      = unpack sample_zero (with_ParentRoot j ("0x" ++ s)) /\
    unpack sample_zero (with_StateRoot j s)
      = unpack sample_zero (with_StateRoot j ("0x" ++ s)) /\
    ParentRoot (fst (unpack sample_zero (with_ParentRoot j s))) = bs /\
    ParentRoot (fst (unpack sample_zero (with_ParentRoot j ("0x" ++ s)))) = bs /\
    StateRoot (fst (unpack sample_zero (with_StateRoot j s))) = bs /\
    StateRoot (fst (unpack sample_zero (with_StateRoot j ("0x" ++ s)))) = bs.
Proof.
  intros s j.
  destruct (C10_prefix_optional sample_zero j s eq_refl eq_refl)
    as (bs & L & R1 & R2 & _ & _ & _ & _ & U1 & U2 & _ & Sp & Ss).
  exists bs. destruct (Sp eq_refl eq_refl) as [S1 S2].
  destruct (Ss eq_refl eq_refl) as [S3 S4].
  repeat split; assumption.
Defined.

(* ================================================================= *)
(** ** How the integers are written *)

Lemma ReplaceAll_app s1 s2 old new :
  ReplaceAll (s1 ++ s2) old new = ReplaceAll s1 old new ++ ReplaceAll s2 old new.
Proof. induction s1 as [|c s1 IH]; cbn; [reflexivity | now rewrite IH]. Qed.

Lemma encode_string_plain s :
  all_plain s = true -> encode_string s = quoted dquote s.
Proof.
  intros A. apply all_plain_spec in A as (_ & E & _).
  unfold encode_string, quoted. now rewrite E.
Qed.

Lemma yaml_string_root bs :
  yaml_string (Sprintf_sharp_x bs) = quoted dquote (Sprintf_sharp_x bs).
Proof. reflexivity. Qed.

Lemma ReplaceAll_quoted s :
  all_plain s = true ->
  ReplaceAll (quoted dquote s) dquote "'" = quoted "'" s.
Proof.
  intros A. apply all_plain_spec in A as (_ & _ & E).
  unfold quoted. cbn [ReplaceAll]. rewrite ReplaceAll_app, E. reflexivity.
Qed.

(** C5, as amended.  For every block, [MarshalJSON] writes the slot and
    the proposer index, which are 64 bits wide, as string literals in
    double quotes that hold decimal digits alone; [MarshalYAML] writes
    the same two integers as bare decimal numbers, with no quotes around
    them, while the roots are quoted in both forms. *)
Theorem C5_integers_in_text
    {BeaconBlockBody : Type} `{TextCodec BeaconBlockBody}
    (v : BeaconBlock BeaconBlockBody) :
  all_digits (Sprintf_d (Slot v)) = true /\
  all_digits (Sprintf_d (ProposerIndex v)) = true /\
  MarshalJSON v =
    "{" ++ quoted dquote "slot" ++ ":"
        ++ quoted dquote (Sprintf_d (Slot v)) ++ ","
        ++ quoted dquote "proposer_index" ++ ":"
        ++ quoted dquote (Sprintf_d (ProposerIndex v)) ++ ","
        ++ quoted dquote "parent_root" ++ ":"
        ++ quoted dquote (Sprintf_sharp_x (ParentRoot v)) ++ ","
        ++ quoted dquote "state_root" ++ ":"
        ++ quoted dquote (Sprintf_sharp_x (StateRoot v)) ++ ","
        ++ quoted dquote "body" ++ ":"
        ++ encode (encode_Body (Body v)) ++ "}" /\
  MarshalYAML v =
    "{slot: " ++ Sprintf_d (Slot v)
      ++ ", proposer_index: " ++ Sprintf_d (ProposerIndex v)
      ++ ", parent_root: " ++ quoted "'" (Sprintf_sharp_x (ParentRoot v))
      ++ ", state_root: " ++ quoted "'" (Sprintf_sharp_x (StateRoot v))
      ++ ", body: "
      ++ ReplaceAll
           (yaml_flow
              (match Body v with
               | None => YNull
               | Some x => codec_MarshalYAML x
               end)) dquote "'"
      ++ "}" ++ String (ascii_of_N 10) "".
Proof.
  split; [apply all_digits_Sprintf_d|].
  split; [apply all_digits_Sprintf_d|].
  split.
  - unfold MarshalJSON, Marshal_beaconBlockJSON, tree_of_beaconBlockJSON,
      to_beaconBlockJSON.
    cbn [json_Slot json_ProposerIndex json_ParentRoot json_StateRoot json_Body
         encode map join fst snd].
    rewrite (encode_string_plain _ (plain_Sprintf_d (Slot v))),
      (encode_string_plain _ (plain_Sprintf_d (ProposerIndex v))),
      (encode_string_plain _ (plain_Sprintf_sharp_x (ParentRoot v))),
      (encode_string_plain _ (plain_Sprintf_sharp_x (StateRoot v))).
    rewrite !append_assoc. reflexivity.
  - unfold MarshalYAML, yaml_Marshal_flow, tree_of_beaconBlockYAML,
      to_beaconBlockYAML.
    cbn [yaml_Slot yaml_ProposerIndex yaml_ParentRoot yaml_StateRoot yaml_Body
         yaml_flow map join fst snd].
    rewrite !yaml_string_root.
    repeat rewrite ?ReplaceAll_app, ?append_assoc.
    rewrite !ReplaceAll_quoted by apply plain_Sprintf_sharp_x.
    pose proof (plain_Sprintf_d (Slot v)) as P1.
    pose proof (plain_Sprintf_d (ProposerIndex v)) as P2.
    apply all_plain_spec in P1 as (_ & _ & ->), P2 as (_ & _ & ->).
    reflexivity.
Qed.

(** C5, as stated, fails for YAML: the document of [sample_block] holds
    the slot and the proposer index as integer scalars, and its text has
    them bare. *)
Lemma C5_counterexample :
  tree_of_beaconBlockYAML (to_beaconBlockYAML sample_block) =
    YMapping [ ("slot", YInteger 1);
               ("proposer_index", YInteger 2);
               ("parent_root",
                YString "0x1111111111111111111111111111111111111111111111111111111111111111");
               ("state_root",
                YString "0x2222222222222222222222222222222222222222222222222222222222222222");
               ("body", YMapping [("graffiti", YString "lighthouse")]) ] /\
  yaml_member "slot" (tree_of_beaconBlockYAML (to_beaconBlockYAML sample_block))
    = Some (YInteger 1) /\
  (forall s,
     yaml_member "slot" (tree_of_beaconBlockYAML (to_beaconBlockYAML sample_block))
       <> Some (YString s)) /\
  MarshalYAML sample_block =
    "{slot: 1, proposer_index: 2, parent_root: '0x1111111111111111111111111111111111111111111111111111111111111111', state_root: '0x2222222222222222222222222222222222222222222222222222222222222222', body: {graffiti: lighthouse}}"
    ++ String (ascii_of_N 10) "".
Proof. repeat split; try reflexivity. discriminate. Qed.

(* ================================================================= *)
(** ** Fields that are not in the text *)

Section Absent.

Context {BeaconBlockBody : Type} `{TextCodec BeaconBlockBody}.
Implicit Types (b : BeaconBlock BeaconBlockBody)
               (j : beaconBlockJSON BeaconBlockBody).

Lemma absent_not_passes f j : absent f j = true -> passes f j = false.
Proof.
  destruct f; cbn [absent passes]; intros A;
    try (apply String.eqb_eq in A; rewrite A; reflexivity).
  now destruct (json_Body j).
Qed.

(** When [unpack] succeeds every field has passed. *)
Lemma unpack_succeeds_inv b j b' :
  unpack b j = (b', None) -> forall f, passes f j = true.
Proof.
  unfold unpack.
  destruct (String.eqb (json_Slot j) ""); [discriminate|].
  destruct (ParseUint (json_Slot j)) eqn:P1; [|discriminate].
  destruct (String.eqb (json_ProposerIndex j) ""); [discriminate|].
  destruct (ParseUint (json_ProposerIndex j)) eqn:P2; [|discriminate].
  destruct (String.eqb (json_ParentRoot j) ""); [discriminate|].
  destruct (DecodeString (TrimPrefix (json_ParentRoot j) "0x")) eqn:P3;
    [|discriminate].
  destruct (Nat.eqb (List.length a1) RootLength) eqn:L3; [|discriminate].
  cbn [negb].
  destruct (String.eqb (json_StateRoot j) ""); [discriminate|].
  destruct (DecodeString (TrimPrefix (json_StateRoot j) "0x")) eqn:P4;
    [|discriminate].
  destruct (Nat.eqb (List.length a2) RootLength) eqn:L4; [|discriminate].
  cbn [negb].
  destruct (json_Body j) eqn:B; [|discriminate].
  intros _ f. destruct f; cbn [passes]; unfold is_uint, is_root, root_bytes;
    rewrite ?P1, ?P2, ?P3, ?P4, ?B; auto.
Qed.




End Absent.




(* ================================================================= *)
(** ** Roots of the wrong length *)

(** C7.  For the parent root and the state root, which are
    the fields of fixed length, and a text read as the fields [j]: when
    every field declared before the root passes and the root is
    hexadecimal for one byte fewer or one byte more than 32, the decoder
    fails with "incorrect length for <field>"; when it stands for exactly
    32 bytes the field passes, and the text is accepted if the other
    fields pass too. *)
Theorem C7_root_length
    {BeaconBlockBody : Type} `{TextCodec BeaconBlockBody}
    (b : BeaconBlock BeaconBlockBody) (input : string)
    (j : beaconBlockJSON BeaconBlockBody) (f : field) (s : string)
    (bs : list byte) :
  Unmarshal_beaconBlockJSON input = OK j ->
  (f = FParentRoot /\ s = json_ParentRoot j) \/
  (f = FStateRoot /\ s = json_StateRoot j) ->
  reaches f j = true -> root_bytes s = OK bs ->
  (List.length bs = (RootLength - 1)%nat \/
   List.length bs = (RootLength + 1)%nat ->
   UnmarshalJSON b input = (stored_before f b j, Some (incorrect_length f))) /\
  (List.length bs = RootLength ->
   passes f j = true /\
   ((forall g, g <> f -> passes g j = true) ->
    snd (UnmarshalJSON b input) = None)).
Proof.
  intros U F R D. unfold UnmarshalJSON. rewrite U. split.
  - intros L.
    assert (NE : s <> "").
    { intros ->. cbn in D. inversion D; subst. cbn in L. lia. }
    apply unpack_incorrect_length with s bs; auto.
    unfold RootLength in *. lia.
  - intros L.
    assert (P : passes f j = true).
    { destruct F as [[-> ->] | [-> ->]]; cbn [passes]; unfold is_root;
        rewrite D, L; apply Nat.eqb_refl. }
    split; [exact P|]. intros O.
    assert (A : forallb (fun g => passes g j) all_fields = true).
    { apply forallb_forall. intros g _.
      destruct F as [[-> _] | [-> _]]; destruct g;
        solve [exact P | apply O; discriminate]. }
    destruct (unpack_accepts b j A) as (? & ? & ? & ? & ? & _ & _ & _ & _ & _ & E).
    now rewrite E.
Qed.

Lemma C7_witness :
  UnmarshalJSON sample_zero text_short_parent_root
    = (mkBeaconBlock 1 2 (ParentRoot sample_zero) (StateRoot sample_zero) None,
       Some (New "incorrect length for parent root")).
Proof.
  refine (proj1 (@C7_root_length _ _ sample_zero text_short_parent_root
                   (with_ParentRoot (to_beaconBlockJSON sample_block)
                      (Sprintf_sharp_x (repeat x11 31)))
                   FParentRoot (Sprintf_sharp_x (repeat x11 31))
                   (repeat x11 31) _ _ _ _) (or_introl eq_refl)).
  - vm_compute. reflexivity.
  - left. split; reflexivity.
  - reflexivity.
  - vm_compute. reflexivity.
Defined.

(* ================================================================= *)
(** ** Fields that are there and empty *)

Section Empty.

Context {BeaconBlockBody : Type} `{TextCodec BeaconBlockBody}.
Implicit Types (b : BeaconBlock BeaconBlockBody)
               (j : beaconBlockJSON BeaconBlockBody).

(** A type error, once saved, is the error of the whole decoding. *)
Lemma decode_members_saved ms : forall j e st',
  decode_members ms (j, Some e) = OK st' -> snd st' = Some e.
Proof.
  induction ms as [|[key v] ms IH]; intros j e st' D.
  - cbn in D. now inversion D.
  - cbn [decode_members] in D.
    destruct (decode_member (j, Some e) (key, v)) as [[j1 s1]|e1] eqn:E;
      [|discriminate D].
    cbn [bind] in D.
    assert (S : s1 = Some e).
    { unfold decode_member in E.
      repeat match type of E with
             | (if ?c then _ else _) = _ => destruct c
             | (let (_, _) := ?p in _) = _ => destruct p
             end;
        try (inversion E; reflexivity).
      destruct v; cbn [bind] in E;
        try (destruct (codec_UnmarshalJSON _); cbn [bind] in E);
        inversion E; reflexivity. }
    subst s1. eapply IH; eassumption.
Qed.

(** A member with the key of [f] changes the field [f] alone. *)
Lemma decode_member_same f x j m j1 :
  f <> FBody -> key_is (tag f) (fst m) = true ->
  decode_member (j, None) m = OK (j1, None) ->
  with_string f x j1 = with_string f x j.
Proof.
  destruct m as [key v]. cbn [fst]. intros NB K. unfold key_is in K.
  apply String.eqb_eq in K. unfold decode_member, key_is. rewrite K.
  destruct f; try congruence; cbn [tag String.eqb Ascii.eqb Bool.eqb];
    destruct (store_string _ v _); intros E; inversion E; reflexivity.
Qed.

(** A member with another key is stored the same way whatever the
    field [f] holds. *)
Lemma decode_member_commutes f x j m j1 s1 :
  key_is (tag f) (fst m) = false ->
  decode_member (j, None) m = OK (j1, s1) ->
  decode_member (with_string f x j, None) m = OK (with_string f x j1, s1).
Proof.
  destruct m as [key v]. cbn [fst]. intros K. unfold decode_member.
  destruct (key_is "slot" key) eqn:K1.
  { destruct f; try (cbn in K; congruence);
      destruct v; cbn; intros E; inversion E; reflexivity. }
  destruct (key_is "proposer_index" key) eqn:K2.
  { destruct f; try (cbn in K; congruence);
      destruct v; cbn; intros E; inversion E; reflexivity. }
  destruct (key_is "parent_root" key) eqn:K3.
  { destruct f; try (cbn in K; congruence);
      destruct v; cbn; intros E; inversion E; reflexivity. }
  destruct (key_is "state_root" key) eqn:K4.
  { destruct f; try (cbn in K; congruence);
      destruct v; cbn; intros E; inversion E; reflexivity. }
  destruct (key_is "body" key) eqn:K5.
  { destruct f; try (cbn in K; congruence);
      (destruct v; [intros E; inversion E; reflexivity | ..];
       (destruct (codec_UnmarshalJSON _); cbn [bind];
        intros E; inversion E; reflexivity)). }
  intros E; inversion E; subst. reflexivity.
Qed.

Lemma decode_members_without f x ms : forall j j',
  f <> FBody ->
  decode_members ms (j, None) = OK (j', None) ->
  decode_members (without f ms) (with_string f x j, None)
    = OK (with_string f x j', None).
Proof.
  induction ms as [|m ms IH]; intros j j' NB D.
  - cbn in *. now inversion D.
  - cbn [decode_members] in D.
    destruct (decode_member (j, None) m) as [[j1 s1]|e] eqn:E; [|discriminate D].
    cbn [bind] in D.
    assert (S : s1 = None).
    { destruct s1 as [e|]; [|reflexivity].
      apply decode_members_saved in D. discriminate D. }
    subst s1. cbn [without filter].
    destruct (key_is (tag f) (fst m)) eqn:K; cbn [negb].
    + rewrite <- (@decode_member_same f x j m j1 NB K E). now apply IH.
    + cbn [decode_members].
      rewrite (@decode_member_commutes f x j m j1 None K E). cbn [bind].
      now apply IH.
Qed.

(** The object with the members of [f] taken out is read as the same
    fields, when [f] has come out empty. *)
Lemma decode_without f ms j :
  f <> FBody ->
  decode_beaconBlockJSON (JObject ms) = OK j -> absent f j = true ->
  decode_beaconBlockJSON (JObject (without f ms)) = OK j.
Proof.
  intros NB D A. cbn [decode_beaconBlockJSON] in *.
  destruct (decode_members ms (zero_beaconBlockJSON, None)) as [[j' s']|e] eqn:E;
    [|discriminate D].
  cbn [bind snd fst] in D. destruct s'; inversion D; subst.
  pose proof (@decode_members_without f "" ms _ _ NB E) as W.
  assert (Z : with_string f "" (@zero_beaconBlockJSON BeaconBlockBody)
               = zero_beaconBlockJSON)
    by now destruct f.
  assert (J : with_string f "" j = j).
  { destruct j, f; cbn in *; try congruence;
      apply String.eqb_eq in A; now subst. }
  rewrite Z, J in W. rewrite W. reflexivity.
Qed.

End Empty.

(* ================================================================= *)
(** ** The binary codec: round trips *)

Module SSZ_Facts.

Import SSZ.

(** *** Integers *)

Lemma to_N_byte_of_N n : n < 256 -> Byte.to_N (byte_of_N n) = n.
Proof.
  intros L. unfold byte_of_N.
  destruct (Byte.of_N n) as [b|] eqn:E.
  - now apply Byte.to_of_N.
  - apply Byte.of_N_None_iff in E. lia.
Qed.

Lemma byte_of_N_to_N b : byte_of_N (Byte.to_N b) = b.
Proof. unfold byte_of_N. now rewrite Byte.of_to_N. Qed.

Lemma length_le_bytes w : forall n, List.length (le_bytes w n) = w.
Proof. induction w as [|w IH]; intros n; cbn; [reflexivity | now rewrite IH]. Qed.

Lemma le_value_le_bytes w : forall n,
  n < 2 ^ (8 * N.of_nat w) -> le_value (le_bytes w n) = n.
Proof.
  induction w as [|w IH]; intros n L.
  - cbn in *. lia.
  - cbn [le_bytes le_value].
    assert (M : n mod 256 < 256) by (apply N.mod_lt; discriminate).
    rewrite to_N_byte_of_N by exact M.
    rewrite IH.
    + pose proof (N.div_mod n 256 ltac:(discriminate)) as DM.
      generalize dependent (n / 256). generalize dependent (n mod 256).
      intros; lia.
    + apply N.Div0.div_lt_upper_bound.
      replace (8 * N.of_nat (S w)) with (8 + 8 * N.of_nat w) in L by lia.
      rewrite N.pow_add_r in L. exact L.
Qed.

Lemma le_value_bound bs : le_value bs < 2 ^ (8 * N.of_nat (List.length bs)).
Proof.
  induction bs as [|b bs IH].
  - cbn. lia.
  - cbn [le_value List.length].
    replace (8 * N.of_nat (S (List.length bs)))
      with (8 + 8 * N.of_nat (List.length bs)) by lia.
    rewrite N.pow_add_r. pose proof (Byte.to_N_bounded b).
    change (2 ^ 8) with 256.
    generalize dependent (2 ^ (8 * N.of_nat (List.length bs))).
    generalize dependent (le_value bs). intros; lia.
Qed.

Lemma le_bytes_le_value bs : le_bytes (List.length bs) (le_value bs) = bs.
Proof.
  induction bs as [|b bs IH]; [reflexivity|].
  cbn [List.length le_bytes le_value].
  pose proof (Byte.to_N_bounded b) as B.
  assert (M : (Byte.to_N b + 256 * le_value bs) mod 256 = Byte.to_N b).
  { rewrite (N.mul_comm 256), N.Div0.mod_add. apply N.mod_small. lia. }
  assert (D : (Byte.to_N b + 256 * le_value bs) / 256 = le_value bs).
  { rewrite (N.mul_comm 256), N.div_add by discriminate.
    rewrite N.div_small by lia. lia. }
  rewrite M, D, byte_of_N_to_N, IH. reflexivity.
Qed.

(** *** Bits *)

(** Induction on a list of bits, eight at a time. *)
Lemma bits_induction (P : list bool -> Prop) :
  (forall l, (List.length l < 8)%nat -> P l) ->
  (forall b0 b1 b2 b3 b4 b5 b6 b7 rest,
     P rest -> P (b0 :: b1 :: b2 :: b3 :: b4 :: b5 :: b6 :: b7 :: rest)) ->
  forall l, P l.
Proof.
  intros Short Step l.
  assert (G : forall n l, (List.length l < n)%nat -> P l).
  { induction n as [|n IH]; intros l0 L; [lia|].
    destruct l0 as [|b0 [|b1 [|b2 [|b3 [|b4 [|b5 [|b6 [|b7 rest]]]]]]]];
      try (apply Short; cbn; lia).
    apply Step. apply IH. cbn in L. lia. }
  apply (G (S (List.length l))). lia.
Qed.

Lemma bits_of_byte_of_bits b0 b1 b2 b3 b4 b5 b6 b7 :
  bits_of_byte (byte_of_bits b0 b1 b2 b3 b4 b5 b6 b7)
  = [b0; b1; b2; b3; b4; b5; b6; b7].
Proof.
  unfold bits_of_byte, byte_of_bits. now rewrite Byte.to_bits_of_bits.
Qed.

Lemma pack_bits_of_byte b rest :
  pack (bits_of_byte b ++ rest) = b :: pack rest.
Proof.
  unfold bits_of_byte.
  destruct (Byte.to_bits b) as (b0 & b1 & b2 & b3 & b4 & b5 & b6 & b7) eqn:E.
  cbn [app pack]. unfold byte_of_bits. now rewrite <- E, Byte.of_bits_to_bits.
Qed.

Lemma pack_unpack bs : pack (unpack bs) = bs.
Proof.
  induction bs as [|b bs IH]; [reflexivity|].
  unfold unpack in *. cbn [flat_map]. now rewrite pack_bits_of_byte, IH.
Qed.

Lemma length_unpack bs : List.length (unpack bs) = (8 * List.length bs)%nat.
Proof.
  induction bs as [|b bs IH]; [reflexivity|].
  unfold unpack in *. cbn [flat_map List.length]. rewrite length_app, IH.
  unfold bits_of_byte.
  destruct (Byte.to_bits b) as (b0 & b1 & b2 & b3 & b4 & b5 & b6 & b7).
  cbn. lia.
Qed.

(** The bits of the bytes [pack] writes: the bits given, and zeros up to
    the next byte. *)
Lemma unpack_pack bits :
  exists z, unpack (pack bits) = (bits ++ z)%list /\ all_zero z = true /\
            (List.length z < 8)%nat.
Proof.
  induction bits as [l L | b0 b1 b2 b3 b4 b5 b6 b7 rest IH] using bits_induction.
  - destruct l as [|b0 [|b1 [|b2 [|b3 [|b4 [|b5 [|b6 [|b7 rest]]]]]]]];
      try (cbn in L; lia); unfold unpack; cbn [pack flat_map];
      rewrite ?bits_of_byte_of_bits.
    + exists []. cbn. repeat split. lia.
    + exists (repeat false 7). cbn. repeat split. lia.
    + exists (repeat false 6). cbn. repeat split. lia.
    + exists (repeat false 5). cbn. repeat split. lia.
    + exists (repeat false 4). cbn. repeat split. lia.
    + exists (repeat false 3). cbn. repeat split. lia.
    + exists (repeat false 2). cbn. repeat split. lia.
    + exists (repeat false 1). cbn. repeat split. lia.
  - destruct IH as (z & E & Z & L). exists z. unfold unpack in *.
    cbn [pack flat_map]. rewrite bits_of_byte_of_bits, E. auto.
Qed.

Lemma length_pack bits :
  List.length (pack bits) = ((List.length bits + 7) / 8)%nat.
Proof.
  induction bits as [l L | b0 b1 b2 b3 b4 b5 b6 b7 rest IH] using bits_induction.
  - destruct l as [|b0 [|b1 [|b2 [|b3 [|b4 [|b5 [|b6 [|b7 rest]]]]]]]];
      try (cbn in L; lia); reflexivity.
  - cbn [pack List.length]. rewrite IH.
    replace (S (S (S (S (S (S (S (S (List.length rest)))))))) + 7)%nat
      with (List.length rest + 7 + 1 * 8)%nat by lia.
    rewrite Nat.div_add by discriminate. lia.
Qed.

Lemma all_zero_repeat z : all_zero z = true -> z = repeat false (List.length z).
Proof.
  induction z as [|b z IH]; [reflexivity|]. cbn [all_zero].
  intros A. apply andb_prop in A as [A1 A2]. destruct b; [discriminate|].
  cbn. now rewrite <- IH.
Qed.

(** Zeros up to the next byte change nothing in the bytes. *)
Lemma pack_app_zeros bits : forall z,
  all_zero z = true -> (List.length z < 8)%nat ->
  (List.length (bits ++ z) mod 8 = 0)%nat ->
  pack (bits ++ z) = pack bits.
Proof.
  induction bits as [l L | b0 b1 b2 b3 b4 b5 b6 b7 rest IH] using bits_induction;
    intros z Z Lz M.
  - apply all_zero_repeat in Z. rewrite length_app in M.
    remember (List.length z) as n eqn:Hn. subst z. clear Hn.
    destruct l as [|b0 [|b1 [|b2 [|b3 [|b4 [|b5 [|b6 [|b7 rest]]]]]]]];
      try (cbn in L; lia); cbn [List.length] in M;
      do 8 (destruct n as [|n];
            [first [reflexivity | cbn in M; discriminate M]|]);
      lia.
  - cbn [app pack]. f_equal. apply IH; auto.
    cbn [app List.length] in M.
    replace (S (S (S (S (S (S (S (S (List.length (rest ++ z))))))))))
      with (List.length (rest ++ z) + 1 * 8)%nat in M by lia.
    now rewrite Nat.Div0.mod_add in M.
Qed.

Lemma all_zero_app a b : all_zero (a ++ b) = all_zero a && all_zero b.
Proof.
  induction a as [|x a IH]; [reflexivity|]. cbn. rewrite IH.
  now rewrite andb_assoc.
Qed.

Lemma all_zero_rev a : all_zero (rev a) = all_zero a.
Proof.
  induction a as [|x a IH]; [reflexivity|]. cbn [rev all_zero].
  rewrite all_zero_app, IH. cbn. rewrite andb_true_r. apply andb_comm.
Qed.

Lemma drop_zeros_app a l : all_zero a = true -> drop_zeros (a ++ l) = drop_zeros l.
Proof.
  induction a as [|x a IH]; [reflexivity|]. cbn [all_zero].
  intros A. apply andb_prop in A as [A1 A2]. destruct x; [discriminate|].
  cbn. auto.
Qed.


(** *** The table of offsets *)

(** Takes apart an equation between two results without unfolding
    what they hold. *)
Ltac some_pair J :=
  match type of J with
  | Some (?a, ?b) = Some (?c, ?d) =>
      let E1 := fresh in let E2 := fresh in
      assert (E1 : c = a) by congruence;
      assert (E2 : d = b) by congruence;
      clear J; subst c; subst d
  end.

Lemma join_at_length sizes : forall off parts fx vr,
  join_at off sizes parts = Some (fx, vr) ->
  List.length fx = prefix_len sizes /\ List.length parts = List.length sizes.
Proof.
  induction sizes as [|[k|] sizes IH]; intros off [|p parts] fx vr J;
    cbn [join_at] in J; try discriminate J.
  - some_pair J. now split.
  - destruct (Nat.eqb (List.length p) k) eqn:E; [|discriminate J].
    destruct (join_at off sizes parts) as [[fx' vr']|] eqn:J'; [|discriminate J].
    some_pair J. apply Nat.eqb_eq in E.
    destruct (IH _ _ _ _ J') as [L1 L2].
    rewrite length_app. unfold prefix_len in *.
    cbn [fold_right prefix_size List.length]. split; lia.
  - destruct (2 ^ 32 <=? N.of_nat off); [discriminate J|].
    destruct (join_at (off + List.length p) sizes parts) as [[fx' vr']|] eqn:J';
      [|discriminate J].
    some_pair J. destruct (IH _ _ _ _ J') as [L1 L2].
    rewrite length_app, length_le_bytes. unfold prefix_len in *.
    cbn [fold_right prefix_size List.length]. split; lia.
Qed.

Lemma firstn_app_exact {A : Type} (a b : list A) n :
  List.length a = n -> firstn n (a ++ b) = a.
Proof.
  intros <-. rewrite firstn_app, firstn_all, Nat.sub_diag. apply app_nil_r.
Qed.

Lemma skipn_app_exact {A : Type} (a b : list A) n :
  List.length a = n -> skipn n (a ++ b) = b.
Proof. intros <-. now rewrite skipn_app, skipn_all, Nat.sub_diag. Qed.

Lemma slice_middle (a p r : list byte) :
  slice (List.length a) (List.length a + List.length p) (a ++ p ++ r) = p.
Proof.
  unfold slice. rewrite skipn_app, skipn_all, Nat.sub_diag. cbn [skipn app].
  replace (List.length a + List.length p - List.length a)%nat
    with (List.length p + 0)%nat by lia.
  rewrite firstn_app_2. cbn. apply app_nil_r.
Qed.

(** Reading the fields back out of what [join_at] wrote.  [done] is what
    stands in the whole text before the bytes that are still to come. *)
Lemma split_at_join_at sizes : forall off parts fx vr done,
  join_at off sizes parts = Some (fx, vr) ->
  List.length done = off ->
  split_at sizes fx (done ++ vr) = Some (parts, off).
Proof.
  induction sizes as [|[k|] sizes IH]; intros off [|p parts] fx vr done J D;
    subst off; cbn [join_at] in J; try discriminate J.
  - some_pair J. cbn. now rewrite app_nil_r.
  - destruct (Nat.eqb (List.length p) k) eqn:E; [|discriminate J].
    destruct (join_at (List.length done) sizes parts) as [[fx' vr']|] eqn:J';
      [|discriminate J].
    some_pair J. apply Nat.eqb_eq in E. subst k.
    cbn [split_at].
    replace (Nat.ltb (List.length (p ++ fx')) (List.length p)) with false
      by (symmetry; apply Nat.ltb_ge; rewrite length_app; lia).
    rewrite skipn_app_exact by reflexivity.
    rewrite (IH _ _ _ _ done J' eq_refl).
    now rewrite firstn_app_exact by reflexivity.
  - destruct (2 ^ 32 <=? N.of_nat (List.length done)) eqn:B; [discriminate J|].
    destruct (join_at (List.length done + List.length p) sizes parts)
      as [[fx' vr']|] eqn:J'; [|discriminate J].
    some_pair J. apply N.leb_gt in B.
    cbn [split_at].
    replace (Nat.ltb (List.length (le_bytes 4 (N.of_nat (List.length done)) ++ fx')) 4)
      with false
      by (symmetry; apply Nat.ltb_ge; rewrite length_app, length_le_bytes; lia).
    assert (F : firstn 4 (le_bytes 4 (N.of_nat (List.length done)) ++ fx')
                = le_bytes 4 (N.of_nat (List.length done))).
    { apply firstn_app_exact, length_le_bytes. }
    assert (K : skipn 4 (le_bytes 4 (N.of_nat (List.length done)) ++ fx') = fx').
    { apply skipn_app_exact, length_le_bytes. }
    rewrite F, K. cbv zeta. rewrite le_value_le_bytes by exact B.
    rewrite Nat2N.id.
    assert (I : split_at sizes fx' (done ++ p ++ vr')
                = Some (parts, (List.length done + List.length p)%nat)).
    { rewrite app_assoc. apply IH; [exact J' | apply length_app]. }
    rewrite I.
    replace (Nat.leb (List.length done) (List.length done + List.length p))
      with true by (symmetry; apply Nat.leb_le; lia).
    now rewrite slice_middle.
Qed.

Lemma split_fields_join_fields sizes parts bs :
  join_fields sizes parts = Some bs -> split_fields sizes bs = Some parts.
Proof.
  unfold join_fields, split_fields.
  destruct (join_at (prefix_len sizes) sizes parts) as [[fx vr]|] eqn:J;
    [|discriminate].
  intros E. assert (E' : bs = (fx ++ vr)%list) by congruence. subst bs. clear E.
  destruct (@join_at_length sizes _ _ _ _ J) as [L _].
  replace (Nat.ltb (List.length (fx ++ vr)) (prefix_len sizes)) with false
    by (symmetry; apply Nat.ltb_ge; rewrite length_app; lia).
  rewrite (firstn_app_exact fx vr L).
  rewrite (@split_at_join_at sizes _ _ _ _ fx J L).
  now rewrite Nat.eqb_refl.
Qed.

Lemma slice_skipn off next (whole : list byte) :
  (off <= next)%nat -> (next <= List.length whole)%nat ->
  (slice off next whole ++ skipn next whole)%list = skipn off whole /\
  List.length (slice off next whole) = (next - off)%nat.
Proof.
  intros L1 L2. unfold slice. split.
  - replace next with ((next - off) + off)%nat at 2 by lia.
    rewrite <- skipn_skipn. apply firstn_skipn.
  - rewrite length_firstn, length_skipn. lia.
Qed.

(** Writing again the fields [split_at] has read. *)
Lemma join_at_split_at sizes : forall prefix whole parts next,
  split_at sizes prefix whole = Some (parts, next) ->
  (next <= List.length whole)%nat /\
  join_at next sizes parts = Some (prefix, skipn next whole).
Proof.
  induction sizes as [|[k|] sizes IH]; intros prefix whole parts next S;
    cbn [split_at] in S.
  - destruct prefix; [|discriminate S]. some_pair S.
    split; [lia|]. cbn. now rewrite skipn_all.
  - destruct (Nat.ltb (List.length prefix) k) eqn:L; [discriminate S|].
    apply Nat.ltb_ge in L.
    destruct (split_at sizes (skipn k prefix) whole) as [[parts' next']|] eqn:S';
      [|discriminate S].
    some_pair S. destruct (IH _ _ _ _ S') as [B J].
    split; [exact B|]. cbn [join_at].
    rewrite length_firstn, Nat.min_l, Nat.eqb_refl by exact L.
    now rewrite J, firstn_skipn.
  - destruct (Nat.ltb (List.length prefix) 4) eqn:L; [discriminate S|].
    apply Nat.ltb_ge in L. cbv zeta in S.
    destruct (split_at sizes (skipn 4 prefix) whole) as [[parts' next']|] eqn:S';
      [|discriminate S].
    destruct (Nat.leb (N.to_nat (le_value (firstn 4 prefix))) next') eqn:O;
      [|discriminate S].
    some_pair S. apply Nat.leb_le in O.
    destruct (IH _ _ _ _ S') as [B J].
    split; [lia|]. cbn [join_at].
    assert (L4 : List.length (firstn 4 prefix) = 4%nat)
      by (rewrite length_firstn; lia).
    pose proof (le_value_bound (firstn 4 prefix)) as V. rewrite L4 in V.
    rewrite N2Nat.id.
    replace (2 ^ 32 <=? le_value (firstn 4 prefix)) with false
      by (symmetry; apply N.leb_gt; exact V).
    destruct (@slice_skipn _ _ whole O B) as [A Ls].
    rewrite Ls.
    replace (N.to_nat (le_value (firstn 4 prefix))
             + (next' - N.to_nat (le_value (firstn 4 prefix))))%nat
      with next' by lia.
    rewrite J, A. rewrite <- L4 at 1. rewrite le_bytes_le_value.
    now rewrite firstn_skipn.
Qed.

Lemma join_fields_split_fields sizes parts bs :
  split_fields sizes bs = Some parts -> join_fields sizes parts = Some bs.
Proof.
  unfold join_fields, split_fields.
  destruct (Nat.ltb (List.length bs) (prefix_len sizes)); [discriminate|].
  destruct (split_at sizes (firstn (prefix_len sizes) bs) bs)
    as [[parts' start]|] eqn:S; [|discriminate].
  destruct (Nat.eqb start (prefix_len sizes)) eqn:E; [|discriminate].
  intros I; inversion I; subst. apply Nat.eqb_eq in E. subst start.
  destruct (@join_at_split_at sizes _ _ _ _ S) as [_ J].
  now rewrite J, firstn_skipn.
Qed.

(** *** Lists of parts *)

Lemma map_option_length {A B : Type} (f : A -> option B) l : forall l',
  map_option f l = Some l' -> List.length l' = List.length l.
Proof.
  induction l as [|x l IH]; intros l' M; cbn in M.
  - now inversion M.
  - destruct (f x); [|discriminate M].
    destruct (map_option f l) as [ys|]; [|discriminate M].
    inversion M; subst. cbn. now rewrite (IH ys).
Qed.

Lemma map_option_inverse {A B : Type} (f : A -> option B) (g : B -> option A) l :
  (forall x y, f x = Some y -> g y = Some x) ->
  forall l', map_option f l = Some l' -> map_option g l' = Some l.
Proof.
  intros Inv. induction l as [|x l IH]; intros l' M; cbn in M.
  - now inversion M.
  - destruct (f x) as [y|] eqn:F; [|discriminate M].
    destruct (map_option f l) as [ys|]; [|discriminate M].
    inversion M; subst. cbn. now rewrite (Inv x y F), (IH ys).
Qed.

Lemma map_option_Forall {A B : Type} (f : A -> option B) (Q : B -> Prop) l :
  (forall x y, f x = Some y -> Q y) ->
  forall l', map_option f l = Some l' -> Forall Q l'.
Proof.
  intros H. induction l as [|x l IH]; intros l' M; cbn in M.
  - inversion M. constructor.
  - destruct (f x) as [y|] eqn:F; [|discriminate M].
    destruct (map_option f l) as [ys|]; [|discriminate M].
    inversion M; subst. constructor; eauto.
Qed.

Lemma map2_option_inverse {A B C : Type}
    (f : A -> B -> option C) (g : A -> C -> option B) l1 :
  Forall (fun a => forall b c, f a b = Some c -> g a c = Some b) l1 ->
  forall l2 l3, map2_option f l1 l2 = Some l3 -> map2_option g l1 l3 = Some l2.
Proof.
  induction 1 as [|a l1 Ha _ IH]; intros [|b l2] l3 M; cbn in M;
    try discriminate M.
  - now inversion M.
  - destruct (f a b) as [c|] eqn:F; [|discriminate M].
    destruct (map2_option f l1 l2) as [cs|] eqn:M'; [|discriminate M].
    inversion M; subst. cbn. now rewrite (Ha b c F), (IH l2 cs).
Qed.

Lemma length_chunks k n : forall bs, List.length (chunks k n bs) = n.
Proof. induction n as [|n IH]; intros bs; cbn; [reflexivity | now rewrite IH]. Qed.

Lemma concat_chunks k n : forall bs,
  List.length bs = (n * k)%nat -> List.concat (chunks k n bs) = bs.
Proof.
  induction n as [|n IH]; intros bs L; cbn.
  - destruct bs; [reflexivity | discriminate L].
  - rewrite IH; [apply firstn_skipn|]. rewrite length_skipn. cbn in L. lia.
Qed.

Lemma chunks_concat k parts :
  Forall (fun p => List.length p = k) parts ->
  chunks k (List.length parts) (List.concat parts) = parts /\
  List.length (List.concat parts) = (List.length parts * k)%nat.
Proof.
  induction 1 as [|p parts Hp _ [IH1 IH2]]; [now split|].
  cbn [List.length List.concat chunks].
  rewrite firstn_app_exact, skipn_app_exact, IH1 by exact Hp.
  split; [reflexivity|]. rewrite length_app, IH2, Hp. cbn. lia.
Qed.

Lemma prefix_len_repeat n : prefix_len (repeat None n) = (4 * n)%nat.
Proof.
  induction n as [|n IH]; [reflexivity|]. unfold prefix_len in *. cbn.
  rewrite IH. lia.
Qed.

(** *** Shapes of fixed size *)

Lemma fixed_size_record fields :
  fixed_size (SRecord fields) =
  fold_right
    (fun size acc =>
       match size, acc with
       | Some k, Some n => Some (k + n)%nat
       | _, _ => None
       end)
    (Some 0%nat) (map fixed_size fields).
Proof.
  cbn [fixed_size]. induction fields as [|f fields IH]; [reflexivity|].
  cbn [fold_right map]. now rewrite IH.
Qed.

Lemma join_at_all_fixed sizes : forall off parts fx vr k,
  fold_right
    (fun size acc =>
       match size, acc with
       | Some k, Some n => Some (k + n)%nat
       | _, _ => None
       end)
    (Some 0%nat) sizes = Some k ->
  join_at off sizes parts = Some (fx, vr) ->
  vr = [] /\ List.length fx = k.
Proof.
  induction sizes as [|[k0|] sizes IH]; intros off [|p parts] fx vr k T J;
    cbn [join_at] in J; cbn [fold_right] in T; try discriminate J;
    try discriminate T.
  - some_pair J. inversion T. now split.
  - destruct (fold_right _ _ sizes) as [n|] eqn:T'; [|discriminate T].
    destruct (Nat.eqb (List.length p) k0) eqn:E; [|discriminate J].
    destruct (join_at off sizes parts) as [[fx' vr']|] eqn:J'; [|discriminate J].
    some_pair J. apply Nat.eqb_eq in E.
    destruct (IH _ _ _ _ _ eq_refl J') as [V L].
    inversion T; subst. split; [reflexivity|]. now rewrite length_app.
Qed.

(** The encoding of a value of a shape of fixed size has that size. *)
Lemma Encode_length s v bs k :
  Encode s v = Some bs -> fixed_size s = Some k -> List.length bs = k.
Proof.
  destruct s as [w| |n|n|max|elem max|fields]; destruct v; cbn [Encode];
    try discriminate; intros E F.
  - destruct (_ <? _); [|discriminate E]. inversion E; inversion F; subst.
    apply length_le_bytes.
  - inversion E; inversion F; subst. reflexivity.
  - destruct (Nat.eqb _ _) eqn:L; [|discriminate E]. apply Nat.eqb_eq in L.
    inversion E; inversion F; subst. reflexivity.
  - destruct (Nat.eqb _ _) eqn:L; [|discriminate E]. apply Nat.eqb_eq in L.
    inversion E; inversion F; subst. apply length_pack.
  - rewrite fixed_size_record in F.
    destruct (map2_option Encode fields fields0) as [parts|]; [|discriminate E].
    unfold join_fields in E.
    destruct (join_at _ _ parts) as [[fx vr]|] eqn:J; [|discriminate E].
    destruct (join_at_all_fixed _ _ _ F J) as [-> L].
    inversion E; subst. now rewrite app_nil_r.
Qed.

(** *** Decode after Encode *)

Lemma Decode_Encode_bitvector n bits :
  List.length bits = n -> Decode (SBitvector n) (pack bits) = Some (VBits bits).
Proof.
  intros L. cbn [Decode]. rewrite length_pack, L, Nat.eqb_refl.
  destruct (unpack_pack bits) as (z & -> & _ & _).
  rewrite firstn_app_exact by exact L. reflexivity.
Qed.

Lemma Decode_Encode_bitlist max bits :
  (List.length bits <= max)%nat ->
  Decode (SBitlist max) (pack (bits ++ [true])) = Some (VBits bits).
Proof.
  intros L. cbn [Decode].
  destruct (unpack_pack (bits ++ [true])) as (z & -> & Z & Lz).
  rewrite rev_app_distr, rev_unit, drop_zeros_app by now rewrite all_zero_rev.
  cbn [drop_zeros]. rewrite length_rev.
  replace (Nat.leb (List.length bits) max) with true
    by (symmetry; apply Nat.leb_le; lia).
  now rewrite rev_involutive.
Qed.

Lemma Decode_Encode_list_fixed elem max k elems bs :
  (forall v bs, Encode elem v = Some bs -> Decode elem bs = Some v) ->
  fixed_size elem = Some k -> k <> 0%nat ->
  Encode (SList elem max) (VList elems) = Some bs ->
  Decode (SList elem max) bs = Some (VList elems).
Proof.
  intros IH F K E. cbn [Encode] in E. cbn [Decode]. rewrite F in *.
  destruct (Nat.leb _ _) eqn:L; [|discriminate E]. apply Nat.leb_le in L.
  destruct (map_option (Encode elem) elems) as [parts|] eqn:M; [|discriminate E].
  pose proof (map_option_length _ _ M) as Lp.
  pose proof (map_option_inverse (Encode elem) (Decode elem) elems IH M) as D.
  assert (Eb : bs = List.concat parts) by congruence. clear E. subst bs.
  assert (U : Forall (fun p => List.length p = k) parts).
  { apply (map_option_Forall (Encode elem) _ elems); [|exact M].
    intros x y Ex. now apply Encode_length with elem x. }
  destruct (chunks_concat U) as [C Lc].
  rewrite Lc, Nat.Div0.mod_mul, Nat.div_mul by exact K.
  rewrite Nat.eqb_refl. cbn [andb].
  replace (Nat.leb (List.length parts) max) with true
    by (symmetry; apply Nat.leb_le; lia).
  now rewrite C, D.
Qed.

Lemma Decode_Encode_list_variable elem max elems bs :
  (forall v bs, Encode elem v = Some bs -> Decode elem bs = Some v) ->
  fixed_size elem = None ->
  Encode (SList elem max) (VList elems) = Some bs ->
  Decode (SList elem max) bs = Some (VList elems).
Proof.
  intros IH F E. cbn [Encode] in E. cbn [Decode]. rewrite F in *.
  destruct (Nat.leb _ _) eqn:L; [|discriminate E]. apply Nat.leb_le in L.
  destruct (map_option (Encode elem) elems) as [parts|] eqn:M; [|discriminate E].
  pose proof (map_option_length _ _ M) as Lp.
  pose proof (map_option_inverse (Encode elem) (Decode elem) elems IH M) as D.
  pose proof (split_fields_join_fields _ _ E) as Sp.
  destruct elems as [|e elems].
  { destruct parts; [|discriminate Lp]. cbn in E.
    assert (Eb : bs = []) by congruence. now subst bs. }
  destruct parts as [|p parts]; [discriminate Lp|].
  remember (List.length (e :: elems)) as n eqn:Hn.
  assert (Pn : (0 < n)%nat) by (subst n; cbn; lia).
  unfold join_fields in E. rewrite prefix_len_repeat in E.
  destruct n as [|n]; [lia|]. cbn [repeat join_at] in E.
  destruct (2 ^ 32 <=? N.of_nat (4 * S n)) eqn:B; [discriminate E|].
  apply N.leb_gt in B.
  destruct (join_at _ _ parts) as [[fx vr]|]; [|discriminate E].
  assert (Eb : bs = (le_bytes 4 (N.of_nat (4 * S n)) ++ fx ++ p ++ vr)%list).
  { rewrite app_assoc. congruence. }
  clear E.
  assert (Lo : List.length (le_bytes 4 (N.of_nat (4 * S n))) = 4%nat)
    by apply length_le_bytes.
  assert (F4 : firstn 4 bs = le_bytes 4 (N.of_nat (4 * S n)))
    by (rewrite Eb; apply firstn_app_exact, Lo).
  assert (Lb : (4 <= List.length bs)%nat)
    by (rewrite Eb, length_app; lia).
  replace (Nat.eqb (List.length bs) 0) with false
    by (symmetry; apply Nat.eqb_neq; lia).
  replace (Nat.ltb (List.length bs) 4) with false
    by (symmetry; apply Nat.ltb_ge; lia).
  cbv zeta. rewrite F4.
  rewrite (@le_value_le_bytes 4 (N.of_nat (4 * S n)) B), Nat2N.id.
  rewrite (Nat.mul_comm 4), Nat.Div0.mod_mul, Nat.div_mul by discriminate.
  rewrite Nat.eqb_refl. cbn [andb].
  replace (Nat.leb (S n) max) with true
    by (symmetry; apply Nat.leb_le; lia).
  now rewrite Sp, D.
Qed.

(** The hypothesis of an induction on the fields of a legal record. *)
Lemma Forall_legal (P : Shape -> Prop) fields :
  Forall (fun s => legal s = true -> P s) fields ->
  forallb legal fields = true -> Forall P fields.
Proof.
  induction 1 as [|f fields Hf _ IH]; intros Lg; [constructor|].
  cbn [forallb] in Lg. apply andb_prop in Lg. destruct Lg as [Lf Lg].
  constructor; [exact (Hf Lf) | exact (IH Lg)].
Qed.

(** What [Encode] writes for a value of a legal shape, [Decode] reads
    back as that value. *)
Lemma Decode_Encode s : legal s = true -> forall v bs,
  Encode s v = Some bs -> Decode s bs = Some v.
Proof.
  induction s as [w| |n|n|max|elem max IH|fields IH] using Shape_induction;
    intros Lg v bs E.
  - destruct v; cbn [Encode] in E; try discriminate E.
    destruct (n <? _) eqn:B; [|discriminate E]. apply N.ltb_lt in B.
    assert (Eb : bs = le_bytes (width_bytes w) n) by congruence. subst bs.
    cbn [Decode].
    now rewrite length_le_bytes, Nat.eqb_refl, le_value_le_bytes.
  - destruct v; cbn [Encode] in E; try discriminate E.
    assert (Eb : bs = [if b then x01 else x00]) by congruence. subst bs.
    now destruct b.
  - destruct v; cbn [Encode] in E; try discriminate E.
    destruct (Nat.eqb _ _) eqn:L; [|discriminate E].
    assert (Eb : bs = bs0) by congruence. subst bs.
    cbn [Decode]. now rewrite L.
  - destruct v; cbn [Encode] in E; try discriminate E.
    destruct (Nat.eqb _ _) eqn:L; [|discriminate E]. apply Nat.eqb_eq in L.
    assert (Eb : bs = pack bits) by congruence. subst bs.
    now apply Decode_Encode_bitvector.
  - destruct v; cbn [Encode] in E; try discriminate E.
    destruct (Nat.leb _ _) eqn:L; [|discriminate E]. apply Nat.leb_le in L.
    assert (Eb : bs = pack (bits ++ [true])) by congruence. subst bs.
    now apply Decode_Encode_bitlist.
  - destruct v; try (cbn [Encode] in E; discriminate E).
    cbn [legal] in Lg. apply andb_prop in Lg. destruct Lg as [Le Lk].
    destruct (fixed_size elem) as [k|] eqn:F.
    + apply Decode_Encode_list_fixed with k; auto.
      apply negb_true_iff in Lk. now apply Nat.eqb_neq.
    + apply Decode_Encode_list_variable; auto.
  - destruct v; cbn [Encode] in E; try discriminate E.
    destruct (map2_option Encode fields fields0) as [parts|] eqn:M;
      [|discriminate E].
    cbn [legal] in Lg. pose proof (Forall_legal _ IH Lg) as IH'.
    cbn [Decode]. rewrite (split_fields_join_fields _ _ E).
    now rewrite (map2_option_inverse Encode Decode IH' _ M).
Qed.

(** A list of elements that take no byte is written as no byte,
    whatever the number of its elements, and read as the empty list:
    the shapes that are not legal are those whose values are not all
    read back. *)
Lemma Decode_Encode_not_legal :
  legal (SList (SBytes 0) 2) = false /\
  well_formed (SList (SBytes 0) 2) (VList [VBytes []]) = true /\
  Encode (SList (SBytes 0) 2) (VList [VBytes []]) = Some [] /\
  Decode (SList (SBytes 0) 2) [] = Some (VList []).
Proof. repeat split. Qed.

Lemma join_fields_length sizes parts bs :
  join_fields sizes parts = Some bs -> List.length parts = List.length sizes.
Proof.
  unfold join_fields.
  destruct (join_at (prefix_len sizes) sizes parts) as [[fx vr]|] eqn:J;
    [|discriminate].
  intros _. exact (proj2 (join_at_length _ _ _ J)).
Qed.

(** *** The values [Encode] accepts *)




(** *** The size of an encoding *)

Lemma join_at_var_len sizes : forall off parts fx vr,
  join_at off sizes parts = Some (fx, vr) ->
  List.length vr = var_len sizes parts.
Proof.
  unfold var_len.
  induction sizes as [|[k|] sizes IH]; intros off [|p parts] fx vr J;
    cbn [join_at] in J; try discriminate J; cbn [sum2 var_size].
  - now some_pair J.
  - destruct (Nat.eqb (List.length p) k); [|discriminate J].
    destruct (join_at off sizes parts) as [[fx' vr']|] eqn:J'; [|discriminate J].
    some_pair J. exact (IH _ _ _ _ J').
  - destruct (2 ^ 32 <=? N.of_nat off); [discriminate J|].
    destruct (join_at (off + List.length p) sizes parts) as [[fx' vr']|] eqn:J';
      [|discriminate J].
    some_pair J. rewrite length_app. now rewrite (IH _ _ _ _ J').
Qed.

Lemma join_fields_size sizes parts bs :
  join_fields sizes parts = Some bs ->
  List.length bs = (prefix_len sizes + var_len sizes parts)%nat.
Proof.
  unfold join_fields.
  destruct (join_at (prefix_len sizes) sizes parts) as [[fx vr]|] eqn:J;
    [|discriminate].
  intros E. assert (Eb : bs = (fx ++ vr)%list) by congruence. subst bs.
  rewrite length_app, (join_at_var_len _ _ _ J).
  now rewrite (proj1 (join_at_length _ _ _ J)).
Qed.

Lemma var_len_repeat parts :
  var_len (repeat None (List.length parts)) parts
  = list_sum (map (@List.length byte) parts).
Proof.
  unfold var_len. induction parts as [|p parts IH]; [reflexivity|].
  cbn [List.length repeat sum2 var_size map list_sum]. now rewrite IH.
Qed.

Lemma map_option_map {A B C : Type} (f : A -> option B)
    (g : A -> C) (h : B -> C) l :
  (forall x y, f x = Some y -> h y = g x) ->
  forall l', map_option f l = Some l' -> map h l' = map g l.
Proof.
  intros H. induction l as [|x l IH]; intros l' M; cbn [map_option] in M.
  - assert (El : l' = []) by congruence. now subst l'.
  - destruct (f x) as [y|] eqn:Fx; [|discriminate M].
    destruct (map_option f l) as [ys|]; [|discriminate M].
    assert (El : l' = y :: ys) by congruence. subst l'.
    cbn [map]. now rewrite (H _ _ Fx), (IH _ eq_refl).
Qed.

Lemma size_fixed s v k : fixed_size s = Some k -> size s v = k.
Proof.
  intros F. destruct s; cbn [size]; now rewrite F.
Qed.

Lemma size_list elem max elems :
  size (SList elem max) (VList elems)
  = (match fixed_size elem with
     | Some _ => 0
     | None => 4 * List.length elems
     end + list_sum (map (size elem) elems))%nat.
Proof. reflexivity. Qed.

Lemma size_record fields values :
  fixed_size (SRecord fields) = None ->
  size (SRecord fields) (VRecord values)
  = (prefix_len (map fixed_size fields)
     + sum2 (fun f x =>
               match fixed_size f with
               | Some _ => 0%nat
               | None => size f x
               end) fields values)%nat.
Proof. intros F. cbn [size]. now rewrite F. Qed.

Lemma var_len_fields fields :
  Forall (fun s => forall v bs,
            Encode s v = Some bs -> List.length bs = size s v) fields ->
  forall values parts,
  map2_option Encode fields values = Some parts ->
  var_len (map fixed_size fields) parts
  = sum2 (fun f x =>
            match fixed_size f with
            | Some _ => 0%nat
            | None => size f x
            end) fields values.
Proof.
  unfold var_len.
  induction 1 as [|f fields Hf _ IH]; intros [|x values] parts M;
    cbn [map2_option] in M; try discriminate M.
  - assert (Ep : parts = []) by congruence. now subst parts.
  - destruct (Encode f x) as [p|] eqn:E; [|discriminate M].
    destruct (map2_option Encode fields values) as [ps|] eqn:M';
      [|discriminate M].
    assert (Ep : parts = p :: ps) by congruence. subst parts.
    cbn [map sum2]. rewrite (IH _ _ M'). f_equal.
    unfold var_size. destruct (fixed_size f); [reflexivity|].
    exact (Hf _ _ E).
Qed.

(** [Encode] writes [size] bytes. *)
Lemma Encode_size s : forall v bs,
  Encode s v = Some bs -> List.length bs = size s v.
Proof.
  induction s as [w| |n|n|max|elem max IH|fields IH] using Shape_induction;
    intros v bs E.
  1-4: erewrite size_fixed by reflexivity;
       now apply Encode_length with (1 := E).
  - destruct v; cbn [Encode] in E; try discriminate E.
    destruct (Nat.leb _ _); [|discriminate E].
    assert (Eb : bs = pack (bits ++ [true])) by congruence. subst bs.
    rewrite length_pack, length_app. cbn [List.length size fixed_size].
    f_equal. lia.
  - destruct v; cbn [Encode] in E; try discriminate E.
    destruct (Nat.leb _ _); [|discriminate E].
    destruct (map_option (Encode elem) elems) as [parts|] eqn:M;
      [|discriminate E].
    rewrite size_list.
    rewrite <- (map_option_map (Encode elem) (size elem) (@List.length byte)
                  elems IH M).
    destruct (fixed_size elem) as [k|].
    + assert (Eb : bs = List.concat parts) by congruence. subst bs.
      apply length_concat.
    + rewrite (join_fields_size _ _ E), prefix_len_repeat.
      rewrite <- (map_option_length _ _ M). now rewrite var_len_repeat.
  - destruct (fixed_size (SRecord fields)) as [k|] eqn:F.
    + rewrite (@size_fixed _ v _ F). now apply Encode_length with (1 := E).
    + destruct v; cbn [Encode] in E; try discriminate E.
      destruct (map2_option Encode fields fields0) as [parts|] eqn:M;
        [|discriminate E].
      rewrite (@size_record _ fields0 F), (join_fields_size _ _ E).
      now rewrite (var_len_fields IH _ M).
Qed.

(** *** The values [Encode] writes *)

Lemma join_at_total sizes : forall off parts,
  Forall2 fits sizes parts ->
  N.of_nat (off + var_len sizes parts) < 2 ^ 32 ->
  exists fx vr, join_at off sizes parts = Some (fx, vr).
Proof.
  unfold var_len.
  induction sizes as [|[k|] sizes IH]; intros off parts Ft B;
    inversion Ft as [|size p sizes' parts' Fp Ft' E1 E2]; subst;
    cbn [join_at]; cbn [sum2 var_size] in B.
  - now exists [], [].
  - rewrite (Fp _ eq_refl), Nat.eqb_refl.
    destruct (IH off _ Ft' B) as (fx & vr & J). rewrite J. eauto.
  - replace (2 ^ 32 <=? N.of_nat off) with false
      by (symmetry; apply N.leb_gt; lia).
    destruct (IH (off + List.length p)%nat _ Ft') as (fx & vr & J);
      [rewrite <- Nat.add_assoc; exact B|].
    rewrite J. eauto.
Qed.

Lemma join_fields_total sizes parts :
  Forall2 fits sizes parts ->
  N.of_nat (prefix_len sizes + var_len sizes parts) < 2 ^ 32 ->
  exists bs, join_fields sizes parts = Some bs.
Proof.
  intros Ft B. unfold join_fields.
  destruct (join_at_total _ Ft B) as (fx & vr & J). rewrite J. eauto.
Qed.

Lemma fits_repeat parts :
  Forall2 fits (repeat None (List.length parts)) parts.
Proof.
  induction parts as [|p parts IH]; cbn [List.length repeat]; constructor;
    [intros k E; discriminate E | exact IH].
Qed.

Lemma fits_fields fields : forall values parts,
  map2_option Encode fields values = Some parts ->
  Forall2 fits (map fixed_size fields) parts.
Proof.
  induction fields as [|f fields IH]; intros [|x values] parts M;
    cbn [map2_option] in M; try discriminate M.
  - assert (Ep : parts = []) by congruence. subst parts. constructor.
  - destruct (Encode f x) as [p|] eqn:E; [|discriminate M].
    destruct (map2_option Encode fields values) as [ps|] eqn:M';
      [|discriminate M].
    assert (Ep : parts = p :: ps) by congruence. subst parts.
    cbn [map]. constructor; [|exact (IH _ _ M')].
    intros k F. exact (@Encode_length _ _ _ _ E F).
Qed.

Lemma map_option_total {A B : Type} (f : A -> option B) l :
  Forall (fun x => exists y, f x = Some y) l ->
  exists l', map_option f l = Some l'.
Proof.
  induction 1 as [|x l [y Fx] _ [ys IH]]; cbn [map_option].
  - now exists [].
  - rewrite Fx, IH. eauto.
Qed.

Lemma list_sum_In {A : Type} (f : A -> nat) l x :
  In x l -> (f x <= list_sum (map f l))%nat.
Proof.
  unfold list_sum.
  induction l as [|y l IH]; intros I; [destruct I|].
  destruct I as [->|I]; cbn [map fold_right]; [lia|].
  specialize (IH I). lia.
Qed.

Lemma size_record_all fields values :
  size (SRecord fields) (VRecord values)
  = (prefix_len (map fixed_size fields)
     + sum2 (fun f x =>
               match fixed_size f with
               | Some _ => 0%nat
               | None => size f x
               end) fields values)%nat.
Proof.
  destruct (fixed_size (SRecord fields)) as [k|] eqn:F;
    [|exact (@size_record _ values F)].
  rewrite (@size_fixed _ (VRecord values) _ F).
  rewrite fixed_size_record in F. unfold prefix_len.
  revert k values F.
  induction fields as [|f fields IH]; intros k values T; cbn [map fold_right] in *.
  - assert (Ek : k = 0%nat) by congruence. subst k. now destruct values.
  - destruct (fixed_size f) as [k0|] eqn:Ff; [|discriminate T].
    destruct (fold_right _ _ (map fixed_size fields)) as [n|] eqn:T';
      [|discriminate T].
    assert (Ek : k = (k0 + n)%nat) by congruence. subst k.
    destruct values as [|x values]; cbn [sum2 prefix_size].
    + pose proof (IH n [] eq_refl) as I.
      replace (sum2 _ fields []) with 0%nat in I by now destruct fields.
      lia.
    + rewrite Ff. pose proof (IH n values eq_refl) as I. lia.
Qed.

Lemma fields_total fields :
  Forall (fun s => forall v,
            well_formed s v = true ->
            N.of_nat (size s v) < 2 ^ 32 ->
            exists bs, Encode s v = Some bs) fields ->
  forall values,
  all2 well_formed fields values = true ->
  N.of_nat (size (SRecord fields) (VRecord values)) < 2 ^ 32 ->
  exists parts, map2_option Encode fields values = Some parts.
Proof.
  intros IH values. rewrite size_record_all. unfold prefix_len.
  revert values.
  induction IH as [|f fields Hf _ IH]; intros [|x values] W B;
    cbn [all2] in W; try discriminate W; cbn [map2_option].
  - now exists [].
  - apply andb_prop in W. destruct W as [Wf W].
    cbn [map fold_right sum2] in B.
    destruct (Hf x Wf) as [p E].
    { destruct (fixed_size f) as [k|] eqn:F.
      - rewrite (@size_fixed _ x _ F). cbn [prefix_size] in B. lia.
      - lia. }
    destruct (IH values W) as [ps M]; [lia|].
    rewrite E, M. eauto.
Qed.

(** [Encode] writes every value that keeps the invariants of its shape
    and takes less than 2^32 bytes. *)
Lemma Encode_total s : forall v,
  well_formed s v = true ->
  N.of_nat (size s v) < 2 ^ 32 ->
  exists bs, Encode s v = Some bs.
Proof.
  induction s as [w| |n|n|max|elem max IH|fields IH] using Shape_induction;
    intros v W B; destruct v; cbn [well_formed] in W; try discriminate W.
  - cbn [Encode]. rewrite W. eauto.
  - cbn [Encode]. eauto.
  - cbn [Encode]. rewrite W. eauto.
  - cbn [Encode]. rewrite W. eauto.
  - cbn [Encode]. rewrite W. eauto.
  - apply andb_prop in W. destruct W as [Wl We].
    rewrite size_list in B.
    destruct (@map_option_total _ _ (Encode elem) elems) as [parts M].
    { apply Forall_forall. intros e I. apply IH.
      - exact (proj1 (forallb_forall _ _) We e I).
      - pose proof (list_sum_In (size elem) elems e I). lia. }
    pose proof (map_option_map (Encode elem) (size elem) (@List.length byte)
                  elems (@Encode_size elem) M) as Ls.
    pose proof (map_option_length _ _ M) as Lp.
    cbn [Encode]. rewrite Wl, M.
    destruct (fixed_size elem) as [k|].
    + eauto.
    + rewrite <- Lp. apply join_fields_total; [apply fits_repeat|].
      rewrite prefix_len_repeat, var_len_repeat, Ls, Lp. exact B.
  - destruct (fields_total IH _ W B) as [parts M].
    cbn [Encode]. rewrite M.
    apply join_fields_total; [exact (fits_fields _ _ M)|].
    rewrite size_record_all in B.
    assert (Sz : Forall (fun s => forall v bs,
                   Encode s v = Some bs -> List.length bs = size s v) fields)
      by (apply Forall_forall; intros f _; exact (@Encode_size f)).
    now rewrite (var_len_fields Sz _ M).
Qed.

(** *** Encode after Decode *)







Lemma Encode_Decode_uint w bs v :
  Decode (SUint w) bs = Some v -> Encode (SUint w) v = Some bs.
Proof.
  cbn [Decode]. destruct (Nat.eqb _ _) eqn:L; [|discriminate].
  apply Nat.eqb_eq in L. intros D.
  assert (Ev : v = VUint (le_value bs)) by congruence. subst v.
  cbn [Encode]. rewrite <- L.
  replace (le_value bs <? 2 ^ (8 * N.of_nat (List.length bs))) with true
    by (symmetry; apply N.ltb_lt, le_value_bound).
  now rewrite le_bytes_le_value.
Qed.

Lemma Encode_Decode_bytes n bs v :
  Decode (SBytes n) bs = Some v -> Encode (SBytes n) v = Some bs.
Proof.
  cbn [Decode]. destruct (Nat.eqb _ _) eqn:L; [|discriminate].
  intros D. assert (Ev : v = VBytes bs) by congruence. subst v.
  cbn [Encode]. now rewrite L.
Qed.








(** *** Shapes without padding *)

Lemma Forall_whole_bytes (P : Shape -> Prop) fields :
  Forall (fun s => whole_bytes s = true -> P s) fields ->
  forallb whole_bytes fields = true -> Forall P fields.
Proof.
  induction 1 as [|f fields Hf _ IH]; intros Wb; [constructor|].
  cbn [forallb] in Wb. apply andb_prop in Wb. destruct Wb as [Wf Wb].
  constructor; [exact (Hf Wf) | exact (IH Wb)].
Qed.

Lemma Encode_Decode_whole_bitvector n bs v :
  (n mod 8 = 0)%nat ->
  Decode (SBitvector n) bs = Some v -> Encode (SBitvector n) v = Some bs.
Proof.
  intros W. cbn [Decode].
  destruct (Nat.eqb _ _) eqn:L; [|discriminate]. apply Nat.eqb_eq in L.
  intros D.
  assert (Ev : v = VBits (firstn n (unpack bs))) by congruence. subst v.
  pose proof (length_unpack bs) as U.
  assert (Ln : (8 * List.length bs = n)%nat).
  { rewrite L. apply Nat.Div0.div_exact in W.
    rewrite W at 1.
    rewrite (Nat.mul_comm 8 (n / 8)), Nat.div_add_l by discriminate.
    change (7 / 8)%nat with 0%nat. lia. }
  rewrite <- Ln, <- U, firstn_all. cbn [Encode].
  rewrite U, Nat.eqb_refl. now rewrite pack_unpack.
Qed.

Lemma Encode_Decode_whole_list_fixed elem max k bs v :
  (forall bs v, Decode elem bs = Some v -> Encode elem v = Some bs) ->
  fixed_size elem = Some k ->
  Decode (SList elem max) bs = Some v -> Encode (SList elem max) v = Some bs.
Proof.
  intros IH F. cbn [Decode]. rewrite F.
  destruct (Nat.eqb (_ mod _) 0) eqn:R; cbn [andb]; [|discriminate].
  apply Nat.eqb_eq in R.
  destruct (Nat.leb _ max) eqn:L; [|discriminate].
  destruct (map_option _ _) as [elems|] eqn:M; [|discriminate].
  cbn [option_map]. intros D.
  assert (Ev : v = VList elems) by congruence. subst v.
  pose proof (map_option_length _ _ M) as Le. rewrite length_chunks in Le.
  pose proof (map_option_inverse (Decode elem) (Encode elem) _ IH M) as E.
  cbn [Encode]. rewrite Le, L, E, F. f_equal.
  apply concat_chunks.
  rewrite Nat.mul_comm. now apply Nat.Div0.div_exact.
Qed.

Lemma Encode_Decode_whole_list_variable elem max bs v :
  (forall bs v, Decode elem bs = Some v -> Encode elem v = Some bs) ->
  fixed_size elem = None ->
  Decode (SList elem max) bs = Some v -> Encode (SList elem max) v = Some bs.
Proof.
  intros IH F. cbn [Decode]. rewrite F.
  destruct (Nat.eqb (List.length bs) 0) eqn:L0.
  { apply Nat.eqb_eq in L0. destruct bs; [|discriminate L0]. intros D.
    assert (Ev : v = VList []) by congruence. subst v.
    cbn [Encode List.length Nat.leb map_option]. now rewrite F. }
  destruct (Nat.ltb _ 4); [discriminate|]. cbv zeta.
  generalize (N.to_nat (le_value (firstn 4 bs))). intros first.
  destruct (Nat.eqb (_ mod _) 0); cbn [andb]; [|discriminate].
  destruct (Nat.leb _ max) eqn:L; [|discriminate].
  generalize dependent (first / 4)%nat. intros n L.
  destruct (split_fields _ bs) as [parts|] eqn:Sp; [|discriminate].
  destruct (map_option _ parts) as [elems|] eqn:M; [|discriminate].
  cbn [option_map]. intros D.
  assert (Ev : v = VList elems) by congruence. subst v.
  pose proof (join_fields_split_fields _ _ Sp) as J.
  pose proof (join_fields_length _ _ J) as Lp. rewrite repeat_length in Lp.
  pose proof (map_option_length _ _ M) as Le. rewrite Lp in Le.
  pose proof (map_option_inverse (Decode elem) (Encode elem) _ IH M) as E.
  cbn [Encode]. now rewrite Le, L, E, F.
Qed.

(** Bytes that [Decode] accepts for a shape without padding are what
    [Encode] writes for the value read. *)
Lemma Encode_Decode_whole s : whole_bytes s = true -> forall bs v,
  Decode s bs = Some v -> Encode s v = Some bs.
Proof.
  induction s as [w| |n|n|max|elem max IH|fields IH] using Shape_induction;
    intros Wb bs v; cbn [whole_bytes] in Wb; try discriminate Wb.
  - apply Encode_Decode_uint.
  - apply Encode_Decode_bytes.
  - apply Encode_Decode_whole_bitvector. now apply Nat.eqb_eq.
  - destruct (fixed_size elem) as [k|] eqn:F.
    + apply Encode_Decode_whole_list_fixed with k; auto.
    + apply Encode_Decode_whole_list_variable; auto.
  - pose proof (Forall_whole_bytes _ IH Wb) as IH'. cbn [Decode].
    destruct (split_fields _ bs) as [parts|] eqn:Sp; [|discriminate].
    destruct (map2_option _ _ parts) as [values|] eqn:M; [|discriminate].
    cbn [option_map]. intros D.
    assert (Ev : v = VRecord values) by congruence. subst v.
    cbn [Encode]. rewrite (map2_option_inverse Decode Encode IH' _ M).
    now apply join_fields_split_fields.
Qed.

(** *** The shapes of the tests *)

(** A value of a legal shape of fixed size is written in that many
    bytes and read back. *)
Lemma fixed_round_trip s k v :
  fixed_size s = Some k -> legal s = true -> N.of_nat k < 2 ^ 32 ->
  well_formed s v = true ->
  exists bs,
    Encode s v = Some bs /\ List.length bs = k /\ Decode s bs = Some v.
Proof.
  intros F Lg B W. rewrite <- (@size_fixed _ v _ F) in B.
  destruct (Encode_total s v W B) as [bs E].
  exists bs. split; [exact E|]. split.
  - exact (@Encode_length _ _ _ _ E F).
  - exact (Decode_Encode s Lg _ E).
Qed.

(** A deposit message, 48 + 32 + 8 bytes. *)
Lemma DepositMessage_round_trip v :
  well_formed DepositMessage v = true ->
  exists bs,
    Encode DepositMessage v = Some bs /\ List.length bs = 88%nat /\
    Decode DepositMessage bs = Some v.
Proof. now apply fixed_round_trip. Qed.

(** A sync aggregate, 512 bits and a signature of 96 bytes. *)
Lemma SyncAggregate_round_trip v :
  well_formed SyncAggregate v = true ->
  exists bs,
    Encode SyncAggregate v = Some bs /\ List.length bs = 160%nat /\
    Decode SyncAggregate bs = Some v.
Proof. now apply fixed_round_trip. Qed.

(** The two shapes are legal and without padding, so on them the bytes
    [Decode] accepts are the bytes [Encode] writes for the value read. *)
Lemma tests_both_ways s bs v :
  s = DepositMessage \/ s = SyncAggregate ->
  Decode s bs = Some v ->
  Encode s v = Some bs /\ forall bs', Decode s bs' = Some v -> bs' = bs.
Proof.
  intros S D.
  assert (Wb : whole_bytes s = true) by (destruct S; subst s; reflexivity).
  split; [exact (Encode_Decode_whole s Wb _ D)|].
  intros bs' D'.
  pose proof (Encode_Decode_whole s Wb _ D) as E.
  pose proof (Encode_Decode_whole s Wb _ D') as E'. congruence.
Qed.

End SSZ_Facts.




(* ================================================================= *)
(** * Further properties of the textual codec *)

(** ** strconv.ParseUint: what it accepts *)

Lemma decimal_loop_le s : forall n, n <= decimal_loop s n.
Proof.
  induction s as [|c s IH]; intros n; cbn [decimal_loop]; [lia|].
  specialize (IH (n * 10 + (N_of_ascii c - 48))). lia.
Qed.

Lemma is_digit_value c : is_digit c = true -> N_of_ascii c - 48 < 10.
Proof.
  unfold is_digit. intros D. apply andb_prop in D. destruct D as [L U].
  apply N.leb_le in L. apply N.leb_le in U. lia.
Qed.

(** The loop on a string of digits: the number when it is at most
    2^64 - 1, a range error when it is more. *)
Lemma ParseUint_loop_all_digits s : forall n,
  n <= maxUint64 -> all_digits s = true ->
  ParseUint_loop s n =
    if decimal_loop s n <=? maxUint64 then OK (decimal_loop s n)
    else Err ErrRange.
Proof.
  induction s as [|c s IH]; intros n M A; cbn [ParseUint_loop decimal_loop].
  - now replace (n <=? maxUint64) with true by (symmetry; apply N.leb_le; lia).
  - cbn [all_digits] in A. apply andb_prop in A. destruct A as [D A].
    rewrite D. cbv zeta. pose proof (is_digit_value _ D) as V.
    pose proof (decimal_loop_le s (n * 10 + (N_of_ascii c - 48))) as G.
    generalize dependent (N_of_ascii c - 48). intros d V G.
    unfold maxUint64 in *.
    change (2 ^ 64 - 1) with 18446744073709551615 in *.
    change (18446744073709551615 / 10 + 1) with 1844674407370955162.
    change (2 ^ 64) with 18446744073709551616.
    destruct (N.leb_spec 1844674407370955162 n) as [C|C].
    { replace (decimal_loop s (n * 10 + d) <=? 18446744073709551615) with false
        by (symmetry; apply N.leb_gt; lia).
      reflexivity. }
    destruct (N.le_gt_cases (n * 10 + d) 18446744073709551615) as [S|S].
    + rewrite N.mod_small by lia.
      replace (n * 10 + d <? n * 10) with false
        by (symmetry; apply N.ltb_ge; lia).
      replace (18446744073709551615 <? n * 10 + d) with false
        by (symmetry; apply N.ltb_ge; lia).
      cbn [orb]. apply IH; [exact S | exact A].
    + replace (decimal_loop s (n * 10 + d) <=? 18446744073709551615) with false
        by (symmetry; apply N.leb_gt; lia).
      assert (W : (n * 10 + d) mod 18446744073709551616
                  = n * 10 + d - 18446744073709551616).
      { symmetry. apply N.mod_unique with 1; lia. }
      rewrite W.
      replace (n * 10 + d - 18446744073709551616 <? n * 10) with true
        by (symmetry; apply N.ltb_lt; lia).
      reflexivity.
Qed.

Lemma ParseUint_loop_OK_all_digits s : forall n m,
  ParseUint_loop s n = OK m -> all_digits s = true.
Proof.
  induction s as [|c s IH]; intros n m P; [reflexivity|].
  cbn [ParseUint_loop] in P. cbn [all_digits].
  destruct (is_digit c); [|discriminate P]. cbv zeta in P.
  destruct (_ <=? n); [discriminate P|].
  destruct (_ || _); [discriminate P|].
  exact (IH _ _ P).
Qed.

(** [ParseUint] accepts the strings of decimal digits, one at least,
    that stand for a number of 64 bits, and nothing else. *)
Lemma ParseUint_OK_iff s n :
  ParseUint s = OK n <->
  s <> "" /\ all_digits s = true /\ decimal s <= maxUint64 /\ n = decimal s.
Proof.
  unfold ParseUint, decimal. destruct s as [|c s].
  { split; [discriminate | intros [E _]; now elim E]. }
  set (t := String c s). split.
  - destruct (ParseUint_loop t 0) as [m|e] eqn:P; [|discriminate].
    intros E. assert (Em : m = n) by congruence. subst m.
    pose proof (ParseUint_loop_OK_all_digits _ _ P) as A.
    rewrite (ParseUint_loop_all_digits t (n := 0)) in P;
      [|unfold maxUint64; cbn; lia | exact A].
    destruct (N.leb_spec (decimal_loop t 0) maxUint64) as [L|L];
      [|discriminate P].
    repeat split; [discriminate | exact A | exact L | congruence].
  - intros (_ & A & L & ->).
    rewrite (ParseUint_loop_all_digits t (n := 0));
      [|unfold maxUint64; cbn; lia | exact A].
    now replace (decimal_loop t 0 <=? maxUint64) with true
      by (symmetry; apply N.leb_le; exact L).
Qed.

(** ** encoding/hex: what DecodeString accepts *)

(** Induction on a string, two bytes at a time. *)
Lemma string_pair_ind (P : string -> Prop) :
  P "" -> (forall c, P (String c "")) ->
  (forall c d s, P s -> P (String c (String d s))) ->
  forall s, P s.
Proof.
  intros H0 H1 H2.
  assert (A : forall s, P s /\ forall c, P (String c s)).
  { induction s as [|d s [IH1 IH2]]; [split; [exact H0 | exact H1]|].
    split; [apply IH2|]. intros c. apply H2, IH1. }
  intros s. apply A.
Qed.

Lemma DecodeString_OK_inv s : forall bs,
  DecodeString s = OK bs ->
  all_hex s = true /\ String.length s = (2 * List.length bs)%nat.
Proof.
  induction s as [|c|c d s IH] using string_pair_ind; intros bs D;
    cbn [DecodeString] in D.
  - assert (E : bs = []) by congruence. now subst bs.
  - destruct (fromHexChar c); discriminate D.
  - cbn [all_hex String.length]. unfold is_hex_char.
    destruct (fromHexChar c) as [a|]; [|discriminate D].
    destruct (fromHexChar d) as [b|]; [|discriminate D].
    destruct (DecodeString s) as [bs'|] eqn:D'; [|discriminate D].
    cbn [bind] in D.
    assert (E : bs = byte_of_N (a * 16 + b) :: bs') by congruence. subst bs.
    destruct (IH _ eq_refl) as [A L]. rewrite A, L.
    split; [reflexivity | cbn [List.length]; lia].
Qed.

Lemma prefix_0x s :
  String.prefix "0x" s = true -> s = "0x" ++ TrimPrefix s "0x".
Proof.
  intros P. unfold TrimPrefix. rewrite P.
  destruct s as [|c [|d s]]; cbn [String.prefix] in P.
  - discriminate P.
  - destruct (ascii_dec "0" c); discriminate P.
  - destruct (ascii_dec "0" c) as [<-|]; [|discriminate P].
    destruct (ascii_dec "x" d) as [<-|]; [|discriminate P].
    cbn. rewrite Nat.sub_0_r. now rewrite substring_all.
Qed.

(** A root is taken when it is 64 hexadecimal digits, with or without
    [0x] in front, and only then. *)
Lemma is_root_iff s :
  is_root s = true <->
  exists h, (s = h \/ s = "0x" ++ h) /\
            String.length h = 64%nat /\ all_hex h = true.
Proof.
  split.
  - intros R. destruct (is_root_inv _ R) as [_ (bs & D & L)].
    unfold root_bytes in D. destruct (DecodeString_OK_inv _ D) as [A Ls].
    exists (TrimPrefix s "0x"). split; [|split; [|exact A]].
    + destruct (String.prefix "0x" s) eqn:P.
      * right. now apply prefix_0x.
      * left. unfold TrimPrefix. now rewrite P.
    + rewrite Ls, L. reflexivity.
  - intros (h & [->| ->] & L & A); unfold is_root, root_bytes.
    + rewrite (TrimPrefix_all_hex _ A).
      destruct (DecodeString_all_hex 32 h L A) as (bs & -> & Lb).
      now rewrite Lb.
    + rewrite TrimPrefix_0x.
      destruct (DecodeString_all_hex 32 h L A) as (bs & -> & Lb).
      now rewrite Lb.
Qed.

(** *** The case of the digits and of the prefix *)

Lemma fromHexChar_upper c :
  fromHexChar (upper_hex_char c) = fromHexChar c /\
  (fromHexChar c = None -> upper_hex_char c = c) /\
  (Ascii.eqb (upper_hex_char c) "0" = Ascii.eqb c "0") /\
  (Ascii.eqb (upper_hex_char c) "x" = Ascii.eqb c "x").
Proof.
  destruct c as [[|] [|] [|] [|] [|] [|] [|] [|]]; vm_compute;
    repeat split; intros; congruence.
Qed.

Lemma DecodeString_upper_hex s : DecodeString (upper_hex s) = DecodeString s.
Proof.
  induction s as [|c|c d s IH] using string_pair_ind;
    cbn [upper_hex DecodeString].
  - reflexivity.
  - destruct (fromHexChar_upper c) as (-> & U & _).
    destruct (fromHexChar c); [reflexivity | now rewrite U].
  - destruct (fromHexChar_upper c) as (-> & Uc & _).
    destruct (fromHexChar_upper d) as (-> & Ud & _).
    destruct (fromHexChar c); [|now rewrite Uc].
    destruct (fromHexChar d); [|now rewrite Ud].
    now rewrite IH.
Qed.

Lemma upper_hex_substring s : forall n m,
  upper_hex (String.substring n m s) = String.substring n m (upper_hex s).
Proof.
  induction s as [|c s IH]; intros [|n] [|m]; cbn [String.substring upper_hex];
    try reflexivity; now rewrite IH.
Qed.

Lemma upper_hex_length s : String.length (upper_hex s) = String.length s.
Proof. induction s as [|c s IH]; cbn; [reflexivity | now rewrite IH]. Qed.

Lemma prefix_0x_eqb s :
  String.prefix "0x" s =
  match s with
  | String c (String d _) => Ascii.eqb c "0" && Ascii.eqb d "x"
  | _ => false
  end.
Proof.
  destruct s as [|c [|d s]]; cbn [String.prefix]; [reflexivity| |].
  - now destruct (ascii_dec "0" c).
  - destruct (ascii_dec "0" c) as [<-|N0].
    + destruct (ascii_dec "x" d) as [<-|Nx]; [now destruct s|].
      cbn [Ascii.eqb andb]. symmetry. apply Ascii.eqb_neq. congruence.
    + symmetry. apply andb_false_intro1. apply Ascii.eqb_neq. congruence.
Qed.

Lemma upper_hex_prefix_0x s :
  String.prefix "0x" (upper_hex s) = String.prefix "0x" s.
Proof.
  rewrite !prefix_0x_eqb. destruct s as [|c [|d s]]; cbn [upper_hex];
    try reflexivity.
  destruct (fromHexChar_upper c) as (_ & _ & -> & _).
  now destruct (fromHexChar_upper d) as (_ & _ & _ & ->).
Qed.

(** The digits of a root are read in either case. *)
Lemma root_bytes_upper_hex s : root_bytes (upper_hex s) = root_bytes s.
Proof.
  unfold root_bytes, TrimPrefix. rewrite upper_hex_prefix_0x.
  destruct (String.prefix "0x" s).
  - rewrite upper_hex_length, <- upper_hex_substring.
    apply DecodeString_upper_hex.
  - apply DecodeString_upper_hex.
Qed.

(** The prefix is not: [0X] is read as two digits, and X is none. *)
Lemma root_bytes_0X s :
  root_bytes ("0X" ++ s) = Err (InvalidByteError "X").
Proof. reflexivity. Qed.

(** ** unpack: values it cannot read, and what it keeps *)

Section UnpackMore.

Context {BeaconBlockBody : Type}.
Implicit Types (b v : BeaconBlock BeaconBlockBody)
               (j : beaconBlockJSON BeaconBlockBody).

Lemma length_copy (dst src : list byte) :
  List.length (copy dst src) = List.length dst.
Proof.
  unfold copy. rewrite length_app, length_firstn, length_skipn. lia.
Qed.

Lemma ParseUint_bound s n : ParseUint s = OK n -> n <= maxUint64.
Proof. intros P. apply ParseUint_OK_iff in P. now destruct P as (_ & _ & L & ->). Qed.

(** [unpack] when it comes to a field that is there and that its
    reader refuses. *)
Lemma unpack_invalid_value b j f cause :
  reaches f j = true -> absent f j = false -> read_error f j = Some cause ->
  unpack b j = (stored_before f b j, Some (invalid_value f cause)).
Proof.
  intros R A E. unfold unpack, stored_before.
  destruct f; cbn [absent read_error] in A, E.
  - rewrite A. destruct (ParseUint (json_Slot j)); [discriminate E|].
    now inversion E.
  - apply reaches_proposer_index in R.
    apply is_uint_inv in R as [Z1 [n1 P1]]. rewrite Z1, P1, A.
    destruct (ParseUint (json_ProposerIndex j)); [discriminate E|].
    now inversion E.
  - apply reaches_parent_root in R as [R1 R2].
    apply is_uint_inv in R1 as [Z1 [n1 P1]].
    apply is_uint_inv in R2 as [Z2 [n2 P2]]. rewrite Z1, P1, Z2, P2, A.
    unfold root_bytes in *.
    destruct (DecodeString (TrimPrefix (json_ParentRoot j) "0x"));
      [discriminate E|].
    now inversion E.
  - apply reaches_state_root in R as (R1 & R2 & R3).
    apply is_uint_inv in R1 as [Z1 [n1 P1]].
    apply is_uint_inv in R2 as [Z2 [n2 P2]].
    apply is_root_inv in R3 as [Z3 [bs3 [P3 L3]]].
    unfold root_bytes in *. rewrite Z1, P1, Z2, P2, Z3, P3, L3, A.
    cbn [Nat.eqb negb RootLength].
    destruct (DecodeString (TrimPrefix (json_StateRoot j) "0x"));
      [discriminate E|].
    now inversion E.
  - discriminate E.
Qed.

Lemma well_typed_stored_before f b j :
  well_typed b -> well_typed (stored_before f b j).
Proof.
  intros (W1 & W2 & W3 & W4).
  assert (S1 : match ParseUint (json_Slot j) with
               | OK n => n | Err _ => Slot b end <= maxUint64).
  { destruct (ParseUint (json_Slot j)) eqn:P; [|exact W1].
    exact (ParseUint_bound _ P). }
  assert (S2 : match ParseUint (json_ProposerIndex j) with
               | OK n => n | Err _ => ProposerIndex b end <= maxUint64).
  { destruct (ParseUint (json_ProposerIndex j)) eqn:P; [|exact W2].
    exact (ParseUint_bound _ P). }
  assert (S3 : List.length
                 match root_bytes (json_ParentRoot j) with
                 | OK bs => copy (ParentRoot b) bs
                 | Err _ => ParentRoot b end = RootLength).
  { destruct (root_bytes (json_ParentRoot j)); [|exact W3].
    now rewrite length_copy. }
  assert (S4 : List.length
                 match root_bytes (json_StateRoot j) with
                 | OK bs => copy (StateRoot b) bs
                 | Err _ => StateRoot b end = RootLength).
  { destruct (root_bytes (json_StateRoot j)); [|exact W4].
    now rewrite length_copy. }
  unfold well_typed, stored_before.
  destruct f; cbn [Slot ProposerIndex ParentRoot StateRoot]; auto.
Qed.

(** What [unpack] returns when it succeeds: the values read, whatever
    the receiver held. *)
Lemma unpack_success b j v :
  List.length (ParentRoot b) = RootLength ->
  List.length (StateRoot b) = RootLength ->
  unpack b j = (v, None) ->
  exists slot index parent state body,
    ParseUint (json_Slot j) = OK slot /\
    ParseUint (json_ProposerIndex j) = OK index /\
    root_bytes (json_ParentRoot j) = OK parent /\
    List.length parent = RootLength /\
    root_bytes (json_StateRoot j) = OK state /\
    List.length state = RootLength /\
    json_Body j = Some body /\
    v = mkBeaconBlock slot index parent state (Some body).
Proof.
  intros W3 W4 U. pose proof (unpack_succeeds_inv _ _ U) as P.
  destruct (unpack_accepts b j) as (slot & index & parent & state & body &
                                    P1 & P2 & P3 & P4 & B & U').
  { cbn [all_fields forallb].
    now rewrite (P FSlot), (P FProposerIndex), (P FParentRoot),
      (P FStateRoot), (P FBody). }
  pose proof (P FParentRoot) as R3. pose proof (P FStateRoot) as R4.
  apply is_root_inv in R3 as [_ [bs3 [E3 L3]]].
  apply is_root_inv in R4 as [_ [bs4 [E4 L4]]]. cbn [passes] in *.
  assert (bs3 = parent) by congruence. assert (bs4 = state) by congruence.
  subst bs3 bs4.
  rewrite copy_same_length in U' by congruence.
  rewrite copy_same_length in U' by congruence.
  exists slot, index, parent, state, body.
  repeat split; try assumption. congruence.
Qed.

End UnpackMore.

(** ** The integers of a block *)

Lemma ParseUint_range s :
  s <> "" -> all_digits s = true -> maxUint64 < decimal s ->
  ParseUint s = Err (NumError "ParseUint" s ErrRange).
Proof.
  intros Z A L. unfold ParseUint, decimal in *.
  destruct s as [|c s]; [now elim Z|].
  rewrite (ParseUint_loop_all_digits (String c s) (n := 0));
    [|unfold maxUint64; cbn; lia | exact A].
  now replace (decimal_loop (String c s) 0 <=? maxUint64) with false
    by (symmetry; apply N.leb_gt; exact L).
Qed.

Lemma ParseUint_leading_zero s n :
  ParseUint s = OK n -> ParseUint ("0" ++ s) = OK n.
Proof.
  intros P. unfold ParseUint in *. destruct s as [|c s]; [discriminate P|].
  change ("0" ++ String c s) with (String "0" (String c s)). cbv iota beta.
  change (String "0" (String c s))
    with (String (ascii_of_N (48 + 0)) "" ++ String c s).
  rewrite ParseUint_loop_app, ParseUint_loop_digit;
    [|lia | unfold maxUint64; cbn; lia].
  change (0 * 10 + 0) with 0.
  destruct (ParseUint_loop (String c s) 0); [exact P | discriminate P].
Qed.

Section Integers.

Context {BeaconBlockBody : Type}.
Implicit Types (b : BeaconBlock BeaconBlockBody)
               (j : beaconBlockJSON BeaconBlockBody).

(** [unpack] looks at an integer field through [== ""] and
    [strconv.ParseUint] alone. *)
Lemma unpack_integer_field b j f s s' :
  f = FSlot \/ f = FProposerIndex ->
  String.eqb s "" = String.eqb s' "" -> ParseUint s = ParseUint s' ->
  unpack b (with_string f s j) = unpack b (with_string f s' j).
Proof.
  intros [-> | ->] Z P; unfold unpack;
    cbn [with_string with_Slot with_ProposerIndex json_Slot
         json_ProposerIndex json_ParentRoot json_StateRoot json_Body];
    now rewrite Z, P.
Qed.

Lemma reaches_with_string f s j :
  reaches f (with_string f s j) = reaches f j.
Proof. destruct f; reflexivity. Qed.

Lemma stored_before_with_string f s b j :
  stored_before f b (with_string f s j) = stored_before f b j.
Proof. destruct f; reflexivity. Qed.

End Integers.

(** X1. [strconv.ParseUint(s, 10, 64)], which [unpack] calls on the slot
    and on the proposer index, accepts exactly the strings of one or
    more decimal digits that stand for a number of at most 2^64 - 1, and
    returns that number: no sign, no space, no underscore, and no number
    out of range cut down to 64 bits. *)
Theorem X1_ParseUint_accepts (s : string) (n : N) :
  ParseUint s = OK n <->
  s <> "" /\ all_digits s = true /\ decimal s <= maxUint64 /\ n = decimal s.
Proof.
  split.
  - apply (proj1 (ParseUint_OK_iff s n)).
  - apply (proj2 (ParseUint_OK_iff s n)).
Qed.

(** X2. A slot or proposer index of decimal digits that stands for more
    than 2^64 - 1 is refused: [unpack], when it comes to the field,
    returns "invalid value for ..." around the range error of
    [strconv], and stores nothing for the field. *)
Theorem X2_integer_out_of_range
    {BeaconBlockBody : Type}
    (b : BeaconBlock BeaconBlockBody) (j : beaconBlockJSON BeaconBlockBody)
    (f : field) (s : string) :
  f = FSlot \/ f = FProposerIndex ->
  s <> "" -> all_digits s = true -> maxUint64 < decimal s ->
  reaches f j = true ->
  passes f (with_string f s j) = false /\
  unpack b (with_string f s j)
  = (stored_before f b j,
     Some (invalid_value f (NumError "ParseUint" s ErrRange))).
Proof.
  intros F Z A L R. pose proof (ParseUint_range Z A L) as P.
  split.
  - destruct F as [-> | ->]; cbn; unfold is_uint; now rewrite P.
  - rewrite <- (stored_before_with_string f s b j).
    apply unpack_invalid_value.
    + now rewrite reaches_with_string.
    + apply String.eqb_neq in Z. destruct F as [-> | ->]; exact Z.
    + destruct F as [-> | ->]; cbn; now rewrite P.
Qed.

Lemma X2_witness :
  let s := "18446744073709551616" in
  unpack sample_zero (with_Slot (to_beaconBlockJSON sample_block) s)
  = (sample_zero,
     Some (Wrap (NumError "ParseUint" s ErrRange) "invalid value for slot")).
Proof.
  intros s.
  refine (proj2 (@X2_integer_out_of_range _ sample_zero
                   (to_beaconBlockJSON sample_block) FSlot s
                   (or_introl eq_refl) _ eq_refl _ eq_refl)).
  - discriminate.
  - vm_compute. reflexivity.
Defined.

(** X3. Zeros in front of a slot or proposer index change nothing: the
    field with one more zero in front is read as the same number, and
    [unpack] returns the same block and the same error. *)
Theorem X3_leading_zero
    {BeaconBlockBody : Type}
    (b : BeaconBlock BeaconBlockBody) (j : beaconBlockJSON BeaconBlockBody)
    (f : field) (s : string) (n : N) :
  f = FSlot \/ f = FProposerIndex ->
  ParseUint s = OK n ->
  ParseUint ("0" ++ s) = OK n /\
  unpack b (with_string f ("0" ++ s) j) = unpack b (with_string f s j).
Proof.
  intros F P. pose proof (ParseUint_leading_zero _ P) as P0.
  split; [exact P0|].
  apply unpack_integer_field; [exact F| |congruence].
  destruct s; [discriminate P | reflexivity].
Qed.

Lemma X3_witness :
  ParseUint "01" = OK 1 /\
  unpack sample_zero (with_Slot (to_beaconBlockJSON sample_block) "01")
  = unpack sample_zero (with_Slot (to_beaconBlockJSON sample_block) "1").
Proof.
  exact (@X3_leading_zero _ sample_zero (to_beaconBlockJSON sample_block)
           FSlot "1" 1 (or_introl eq_refl) eq_refl).
Defined.

(** ** Values that cannot be read *)

(** X4. When [unpack] comes to a field that is there and that its reader
    refuses (a slot that is no number, a root that is no hexadecimal
    text), it returns "invalid value for ..." around the reader's own
    error, which [errors.Cause] gives back; the fields before are
    stored, this one and the later ones are not, and [UnmarshalJSON]
    hands the error on as it is. *)
Theorem X4_invalid_value
    {BeaconBlockBody : Type} `{TextCodec BeaconBlockBody}
    (b : BeaconBlock BeaconBlockBody) (input : string)
    (j : beaconBlockJSON BeaconBlockBody) (f : field) (cause : error) :
  reaches f j = true -> absent f j = false -> read_error f j = Some cause ->
  unpack b j = (stored_before f b j, Some (invalid_value f cause)) /\
  Cause (invalid_value f cause) = Cause cause /\
  (Unmarshal_beaconBlockJSON input = OK j ->
   UnmarshalJSON b input
   = (stored_before f b j, Some (invalid_value f cause))).
Proof.
  intros R A E. pose proof (unpack_invalid_value b j f R A E) as U.
  split; [exact U|]. split; [reflexivity|].
  intros D. unfold UnmarshalJSON. now rewrite D.
Qed.

Lemma X4_witness :
  UnmarshalJSON sample_zero text_bad_slot
  = (sample_zero,
     Some (Wrap (NumError "ParseUint" "x" ErrSyntax)
             "invalid value for slot")).
Proof.
  refine (proj2 (proj2 (@X4_invalid_value _ _ sample_zero text_bad_slot
                          (mkBeaconBlockJSON "x" "" "" "" None) FSlot
                          (NumError "ParseUint" "x" ErrSyntax)
                          eq_refl eq_refl eq_refl)) _).
  vm_compute. reflexivity.
Defined.

(** ** The roots of a block *)

(** X5. The bytes of a root field are taken by [unpack] (the text
    without a leading [0x] decodes to 32 bytes) exactly when the field is
    64 hexadecimal digits of either case, with or without [0x] in
    front. *)
Theorem X5_root_accepted (s : string) :
  (exists bs, DecodeString (TrimPrefix s "0x") = OK bs /\
              List.length bs = RootLength) <->
  exists h, (s = h \/ s = "0x" ++ h) /\
            String.length h = 64%nat /\ all_hex h = true.
Proof.
  rewrite <- is_root_iff. unfold is_root, root_bytes. split.
  - intros (bs & -> & L). now apply Nat.eqb_eq.
  - destruct (DecodeString (TrimPrefix s "0x")) as [bs|]; [|discriminate].
    intros L. apply Nat.eqb_eq in L. eauto.
Qed.

(** X6. [hex.DecodeString] on a text that is not an even number of
    hexadecimal digits: it reports the first byte that is no digit,
    wherever it stands, and the odd length only when every byte is a
    digit. *)
Theorem X6_DecodeString_error (s : string) :
  match first_bad s with
  | Some c => DecodeString s = Err (InvalidByteError c)
  | None =>
      if Nat.even (String.length s)
      then exists bs, DecodeString s = OK bs /\
                      String.length s = (2 * List.length bs)%nat
      else DecodeString s = Err ErrLength
  end.
Proof.
  induction s as [|c|c d s IH] using string_pair_ind.
  - now exists [].
  - cbn [first_bad DecodeString String.length Nat.even]. unfold is_hex_char.
    now destruct (fromHexChar c).
  - cbn [first_bad DecodeString String.length Nat.even]. unfold is_hex_char.
    destruct (fromHexChar c) as [a|]; [|reflexivity].
    destruct (fromHexChar d) as [b|]; [|reflexivity].
    destruct (first_bad s) as [x|].
    + now rewrite IH.
    + destruct (Nat.even (String.length s)).
      * destruct IH as (bs & -> & L). cbn [bind].
        eexists. split; [reflexivity|]. cbn [List.length]. lia.
      * now rewrite IH.
Qed.

Section Roots.

Context {BeaconBlockBody : Type}.
Implicit Types (b : BeaconBlock BeaconBlockBody)
               (j : beaconBlockJSON BeaconBlockBody).

Lemma upper_hex_empty s : String.eqb (upper_hex s) "" = String.eqb s "".
Proof. now destruct s. Qed.

(** [unpack] looks at a root field through [== ""] and its bytes
    alone. *)
Lemma unpack_root_field b j f s s' :
  f = FParentRoot \/ f = FStateRoot ->
  String.eqb s "" = String.eqb s' "" -> root_bytes s = root_bytes s' ->
  unpack b (with_string f s j) = unpack b (with_string f s' j).
Proof.
  unfold root_bytes. intros [-> | ->] Z P; unfold unpack;
    cbn [with_string with_ParentRoot with_StateRoot json_Slot
         json_ProposerIndex json_ParentRoot json_StateRoot json_Body];
    now rewrite Z, P.
Qed.

End Roots.

(** X7. The hexadecimal digits of a root are read in either case: the
    field with its letters a to f in upper case gives the same bytes,
    the same block and the same error. *)
Theorem X7_hex_digits_either_case
    {BeaconBlockBody : Type}
    (b : BeaconBlock BeaconBlockBody) (j : beaconBlockJSON BeaconBlockBody)
    (s : string) :
  root_bytes (upper_hex s) = root_bytes s /\
  unpack b (with_ParentRoot j (upper_hex s)) = unpack b (with_ParentRoot j s) /\
  unpack b (with_StateRoot j (upper_hex s)) = unpack b (with_StateRoot j s).
Proof.
  pose proof (root_bytes_upper_hex s) as R.
  pose proof (upper_hex_empty s) as Z.
  split; [exact R|]. split.
  - exact (@unpack_root_field _ b j FParentRoot _ _ (or_introl eq_refl) Z R).
  - exact (@unpack_root_field _ b j FStateRoot _ _ (or_intror eq_refl) Z R).
Qed.

(** X8. The prefix is read in lower case alone: a root that begins with
    [0X] is refused whatever follows, since [strings.TrimPrefix] leaves
    it and X is no hexadecimal digit. *)
Theorem X8_upper_case_prefix
    {BeaconBlockBody : Type}
    (b : BeaconBlock BeaconBlockBody) (j : beaconBlockJSON BeaconBlockBody)
    (f : field) (s : string) :
  f = FParentRoot \/ f = FStateRoot ->
  reaches f j = true ->
  passes f (with_string f ("0X" ++ s) j) = false /\
  unpack b (with_string f ("0X" ++ s) j)
  = (stored_before f b j,
     Some (invalid_value f (InvalidByteError "X"))).
Proof.
  intros F R. split.
  - destruct F as [-> | ->]; reflexivity.
  - rewrite <- (stored_before_with_string f ("0X" ++ s) b j).
    apply unpack_invalid_value.
    + now rewrite reaches_with_string.
    + destruct F as [-> | ->]; reflexivity.
    + destruct F as [-> | ->]; reflexivity.
Qed.

Lemma X8_witness :
  unpack sample_zero
    (with_ParentRoot (to_beaconBlockJSON sample_block)
       ("0X" ++ hex_encode (repeat x11 32)))
  = (mkBeaconBlock 1 2 (repeat x00 32) (repeat x00 32) None,
     Some (Wrap (InvalidByteError "X") "invalid value for parent root")).
Proof.
  exact (proj2 (@X8_upper_case_prefix _ sample_zero
                  (to_beaconBlockJSON sample_block) FParentRoot
                  (hex_encode (repeat x11 32))
                  (or_introl eq_refl) eq_refl)).
Defined.

(** ** What the receiver holds after unpack *)

Section Receiver.

Context {BeaconBlockBody : Type}.
Implicit Types (b v : BeaconBlock BeaconBlockBody)
               (j : beaconBlockJSON BeaconBlockBody).

Lemma well_typed_unpack b j : well_typed b -> well_typed (fst (unpack b j)).
Proof.
  intros W. destruct (unpack b j) as [b' [e|]] eqn:U; cbn [fst].
  - destruct (unpack_fails_at _ _ U) as (f & _ & _ & -> & _).
    now apply well_typed_stored_before.
  - destruct W as (_ & _ & W3 & W4).
    destruct (@unpack_success _ _ _ _ W3 W4 U)
      as (slot & index & parent & state & body &
          P1 & P2 & _ & L3 & _ & L4 & _ & ->).
    unfold well_typed. cbn [Slot ProposerIndex ParentRoot StateRoot].
    repeat split;
      [exact (ParseUint_bound _ P1) | exact (ParseUint_bound _ P2)
      | exact L3 | exact L4].
Qed.

Lemma unpack_receiver b b' j v :
  well_typed b -> well_typed b' ->
  unpack b j = (v, None) -> unpack b' j = (v, None).
Proof.
  intros (_ & _ & W3 & W4) (_ & _ & W3' & W4') U.
  pose proof (unpack_succeeds_inv _ _ U) as P.
  destruct (@unpack_success _ _ _ _ W3 W4 U)
    as (slot & index & parent & state & body &
        P1 & P2 & P3 & L3 & P4 & L4 & B & ->).
  destruct (unpack_accepts b' j)
    as (slot' & index' & parent' & state' & body' &
        Q1 & Q2 & Q3 & Q4 & B' & U').
  { cbn [all_fields forallb].
    now rewrite (P FSlot), (P FProposerIndex), (P FParentRoot),
      (P FStateRoot), (P FBody). }
  rewrite U'.
  assert (slot' = slot) by congruence.
  assert (index' = index) by congruence.
  assert (parent' = parent) by congruence.
  assert (state' = state) by congruence.
  assert (body' = body) by congruence. subst.
  now rewrite !copy_same_length by congruence.
Qed.

End Receiver.

(** X9. [unpack] keeps the receiver within its Go types whatever the
    input and whether it fails or not: the slot and the proposer index
    stay below 2^64 and both roots stay 32 bytes long; so do
    [UnmarshalJSON] and [UnmarshalYAML]. *)
Theorem X9_receiver_stays_well_typed
    {BeaconBlockBody : Type} `{TextCodec BeaconBlockBody}
    (yaml_Unmarshal : string -> result (beaconBlockJSON BeaconBlockBody))
    (b : BeaconBlock BeaconBlockBody) (j : beaconBlockJSON BeaconBlockBody)
    (input : string) :
  well_typed b ->
  well_typed (fst (unpack b j)) /\
  well_typed (fst (UnmarshalJSON b input)) /\
  well_typed (fst (UnmarshalYAML yaml_Unmarshal b input)).
Proof.
  intros W. split; [now apply well_typed_unpack|]. split.
  - unfold UnmarshalJSON.
    destruct (Unmarshal_beaconBlockJSON input);
      [now apply well_typed_unpack | exact W].
  - unfold UnmarshalYAML.
    destruct (yaml_Unmarshal input);
      [now apply well_typed_unpack | exact W].
Qed.

Lemma X9_witness :
  well_typed (fst (unpack sample_zero fields_bad_slot_empty_index)) /\
  well_typed (fst (UnmarshalJSON sample_zero text_short_parent_root)) /\
  well_typed (fst (UnmarshalYAML sample_yaml_Unmarshal sample_zero "")).
Proof.
  exact (@X9_receiver_stays_well_typed _ _ sample_yaml_Unmarshal sample_zero
           fields_bad_slot_empty_index text_short_parent_root
           zero_BeaconBlock_well_typed).
Defined.

(** X10. When [unpack] succeeds, the block it leaves is made of the
    values read alone: none of what the receiver held before is left in
    it, and any other receiver ends as the same block. *)
Theorem X10_success_overwrites_receiver
    {BeaconBlockBody : Type}
    (b b' v : BeaconBlock BeaconBlockBody)
    (j : beaconBlockJSON BeaconBlockBody) :
  well_typed b -> well_typed b' ->
  unpack b j = (v, None) ->
  unpack b' j = (v, None) /\
  ParseUint (json_Slot j) = OK (Slot v) /\
  ParseUint (json_ProposerIndex j) = OK (ProposerIndex v) /\
  root_bytes (json_ParentRoot j) = OK (ParentRoot v) /\
  root_bytes (json_StateRoot j) = OK (StateRoot v) /\
  json_Body j = Body v.
Proof.
  intros W W' U. split; [exact (@unpack_receiver _ _ _ _ _ W W' U)|].
  destruct W as (_ & _ & W3 & W4).
  destruct (@unpack_success _ _ _ _ W3 W4 U)
    as (slot & index & parent & state & body &
        P1 & P2 & P3 & _ & P4 & _ & B & ->).
  cbn [Slot ProposerIndex ParentRoot StateRoot Body].
  repeat split; assumption.
Qed.

Lemma X10_witness :
  unpack sample_block (to_beaconBlockJSON sample_block) = (sample_block, None).
Proof.
  refine (proj1 (@X10_success_overwrites_receiver _ sample_zero sample_block
                   sample_block (to_beaconBlockJSON sample_block)
                   zero_BeaconBlock_well_typed
                   (proj1 sample_block_well_formed) _)).
  vm_compute. reflexivity.
Defined.

(** ** MarshalJSON and UnmarshalJSON together *)

Section Together.

Context {BeaconBlockBody : Type} `{TextCodec BeaconBlockBody}.
Implicit Types (b v : BeaconBlock BeaconBlockBody)
               (j : beaconBlockJSON BeaconBlockBody).

(** The text of a block, whatever its body, is read by [json.Unmarshal]
    as the fields that were written. *)
Lemma Unmarshal_MarshalJSON v :
  match Body v with
  | Some x => reads_back x
  | None => True
  end ->
  Unmarshal_beaconBlockJSON (MarshalJSON v) = OK (to_beaconBlockJSON v).
Proof.
  intros B.
  unfold Unmarshal_beaconBlockJSON, MarshalJSON, Marshal_beaconBlockJSON.
  rewrite parse_encode.
  - cbn [bind]. now apply decode_tree_of.
  - apply json_wf_tree_of;
      cbn [json_Slot json_ProposerIndex json_ParentRoot json_StateRoot
           json_Body to_beaconBlockJSON];
      auto using plain_Sprintf_d, plain_Sprintf_sharp_x.
Qed.

Lemma passes_to_beaconBlockJSON v f :
  well_typed v -> f <> FBody -> passes f (to_beaconBlockJSON v) = true.
Proof.
  intros (S1 & S2 & L1 & L2) F.
  destruct f; cbn [passes to_beaconBlockJSON json_Slot json_ProposerIndex
                   json_ParentRoot json_StateRoot];
    unfold is_uint, is_root; rewrite ?ParseUint_Sprintf_d by assumption;
    rewrite ?root_bytes_Sprintf_sharp_x, ?L1, ?L2;
    try reflexivity.
  now elim F.
Qed.

End Together.

(** X11. [MarshalJSON] tells well-formed blocks apart: two of them with
    the same text are the same block. *)
Theorem X11_MarshalJSON_injective
    {BeaconBlockBody : Type} `{TextCodec BeaconBlockBody}
    (v v' : BeaconBlock BeaconBlockBody) :
  well_formed v -> well_formed v' ->
  MarshalJSON v = MarshalJSON v' -> v = v'.
Proof.
  intros W W' E.
  destruct (UnmarshalJSON_MarshalJSON (proj1 W) W) as [_ R].
  destruct (UnmarshalJSON_MarshalJSON (proj1 W) W') as [_ R'].
  rewrite E in R. congruence.
Qed.

Lemma X11_witness :
  fst (unpack sample_zero (with_Slot (to_beaconBlockJSON sample_block) "01"))
  = sample_block.
Proof.
  apply (@X11_MarshalJSON_injective _ _
           (fst (unpack sample_zero
                   (with_Slot (to_beaconBlockJSON sample_block) "01")))
           sample_block).
  - vm_compute. apply sample_block_well_formed.
  - apply sample_block_well_formed.
  - vm_compute. reflexivity.
Defined.

(** X12. What [unpack] accepts is made canonical by writing it again:
    the block read from any accepted spelling of the fields is well
    formed, and [UnmarshalJSON] reads the text [MarshalJSON] writes for
    it as that same block, into any receiver. *)
Theorem X12_accepted_then_written
    {BeaconBlockBody : Type} `{TextCodec BeaconBlockBody}
    (b b' v : BeaconBlock BeaconBlockBody)
    (j : beaconBlockJSON BeaconBlockBody) :
  well_typed b -> well_typed b' ->
  (forall x, json_Body j = Some x -> reads_back x) ->
  unpack b j = (v, None) ->
  well_formed v /\ UnmarshalJSON b' (MarshalJSON v) = (v, None).
Proof.
  intros W W' B U.
  assert (Wv : well_formed v).
  { split.
    - pose proof (well_typed_unpack j W) as T. now rewrite U in T.
    - destruct W as (_ & _ & W3 & W4).
      destruct (@unpack_success _ _ _ _ W3 W4 U)
        as (slot & index & parent & state & body & _ & _ & _ & _ & _ & _ &
            Bj & ->).
      exists body. split; [reflexivity | exact (B _ Bj)]. }
  split; [exact Wv|].
  exact (proj2 (UnmarshalJSON_MarshalJSON W' Wv)).
Qed.

Lemma X12_witness :
  well_formed sample_block /\
  UnmarshalJSON sample_zero (MarshalJSON sample_block) = (sample_block, None).
Proof.
  refine (@X12_accepted_then_written _ _ sample_zero sample_zero sample_block
            (with_Slot (to_beaconBlockJSON sample_block) "01")
            zero_BeaconBlock_well_typed zero_BeaconBlock_well_typed _ _).
  - intros x E. assert (Ex : x = sample_body) by (cbn in E; congruence).
    subst x. repeat split. discriminate.
  - vm_compute. reflexivity.
Defined.

(** X13. A block whose body is [nil] is written by [MarshalJSON], with
    the body as [null], but [UnmarshalJSON] does not read the text back:
    it stores the slot, the proposer index and both roots, leaves the
    body of the receiver and returns "body missing". *)
Theorem X13_nil_body_is_written_not_read
    {BeaconBlockBody : Type} `{TextCodec BeaconBlockBody}
    (b v : BeaconBlock BeaconBlockBody) :
  well_typed b -> well_typed v -> Body v = None ->
  Unmarshal_beaconBlockJSON (MarshalJSON v) = OK (to_beaconBlockJSON v) /\
  UnmarshalJSON b (MarshalJSON v)
  = (mkBeaconBlock (Slot v) (ProposerIndex v) (ParentRoot v) (StateRoot v)
       (Body b),
     Some (New "body missing")).
Proof.
  intros Wb Wv B.
  assert (D : Unmarshal_beaconBlockJSON (MarshalJSON v)
              = OK (to_beaconBlockJSON v))
    by (apply Unmarshal_MarshalJSON; now rewrite B).
  split; [exact D|]. unfold UnmarshalJSON. rewrite D.
  rewrite (@unpack_absent _ b (to_beaconBlockJSON v) FBody).
  - destruct Wb as (_ & _ & Lb1 & Lb2). destruct Wv as (S1 & S2 & L1 & L2).
    unfold stored_before.
    cbn [to_beaconBlockJSON json_Slot json_ProposerIndex json_ParentRoot
         json_StateRoot].
    rewrite !ParseUint_Sprintf_d, !root_bytes_Sprintf_sharp_x by assumption.
    now rewrite !copy_same_length by congruence.
  - cbn [reaches all_fields filter position Nat.ltb Nat.leb forallb].
    now rewrite !passes_to_beaconBlockJSON by (assumption || discriminate).
  - cbn [absent to_beaconBlockJSON json_Body]. now rewrite B.
Qed.

Lemma X13_witness :
  UnmarshalJSON sample_zero
    (MarshalJSON
       (mkBeaconBlock 1 2 (repeat x11 32) (repeat x22 32)
          (@None SampleBody)))
  = (mkBeaconBlock 1 2 (repeat x11 32) (repeat x22 32) None,
     Some (New "body missing")).
Proof.
  refine (proj2 (@X13_nil_body_is_written_not_read _ _ sample_zero
                   (mkBeaconBlock 1 2 (repeat x11 32) (repeat x22 32) None)
                   zero_BeaconBlock_well_typed _ eq_refl)).
  unfold well_typed. cbn. repeat split; try reflexivity; unfold maxUint64; lia.
Defined.

(** ** json.Unmarshal into the fields *)

Section Members.

Context {BeaconBlockBody : Type} `{TextCodec BeaconBlockBody}.
Implicit Types (b : BeaconBlock BeaconBlockBody)
               (j : beaconBlockJSON BeaconBlockBody).

(** The key of a field is the key of no other field. *)
Lemma key_is_tag f g key :
  key_is (tag f) key = true -> key_is (tag g) key = true -> f = g.
Proof.
  unfold key_is. intros F G.
  apply String.eqb_eq in F. apply String.eqb_eq in G. rewrite F in G.
  destruct f, g; try reflexivity; discriminate G.
Qed.

Lemma decode_members_app ms1 : forall ms2 st,
  decode_members (ms1 ++ ms2) st =
  (st' <- decode_members ms1 st ;; decode_members ms2 st').
Proof.
  induction ms1 as [|m ms1 IH]; intros ms2 st; cbn [app decode_members].
  - reflexivity.
  - destruct (decode_member st m) as [st1|e]; cbn [bind]; [apply IH|].
    reflexivity.
Qed.

(** A member that is passed over changes nothing. *)
Lemma decode_member_passed_over st m :
  passed_over m = true -> decode_member st m = OK st.
Proof.
  destruct st as [j saved]. destruct m as [key v]. unfold passed_over.
  cbn [fst snd]. intros P. apply orb_prop in P. destruct P as [P|P].
  - apply andb_prop in P. destruct P as [_ P].
    cbn [all_fields forallb tag] in P.
    repeat (apply andb_prop in P; destruct P as [?K P]).
    apply negb_true_iff in K, K0, K1, K2, K3.
    unfold decode_member. now rewrite K, K0, K1, K2, K3.
  - apply andb_prop in P. destruct P as [K N].
    apply negb_true_iff in K. cbn [tag] in K.
    destruct v; try discriminate N.
    unfold decode_member. rewrite K. cbn [store_string].
    destruct j as [s1 s2 s3 s4 body]; destruct saved as [e|];
      cbn [json_Slot json_ProposerIndex json_ParentRoot json_StateRoot
           json_Body save_error];
      (destruct (key_is "slot" key);
       [reflexivity
       |destruct (key_is "proposer_index" key);
        [reflexivity
        |destruct (key_is "parent_root" key);
         [reflexivity|destruct (key_is "state_root" key); reflexivity]]]).
Qed.

(** A member with the key of a field stores its value there. *)
Lemma decode_member_string f j saved key v :
  f <> FBody -> key_is (tag f) key = true ->
  exists j',
    decode_member (j, saved) (key, v)
    = OK (j', save_error saved
                (snd (store_string ("beaconBlockJSON." ++ tag f) v
                        (field_string f j)))) /\
    field_string f j'
    = fst (store_string ("beaconBlockJSON." ++ tag f) v (field_string f j)).
Proof.
  intros F K. unfold decode_member.
  assert (O : forall g, g <> f -> key_is (tag g) key = false).
  { intros g N. destruct (key_is (tag g) key) eqn:G; [|reflexivity].
    elim N. exact (key_is_tag _ _ _ G K). }
  assert (O1 : f <> FSlot -> key_is "slot" key = false)
    by (intros N; apply (O FSlot); congruence).
  assert (O2 : f <> FProposerIndex -> key_is "proposer_index" key = false)
    by (intros N; apply (O FProposerIndex); congruence).
  assert (O3 : f <> FParentRoot -> key_is "parent_root" key = false)
    by (intros N; apply (O FParentRoot); congruence).
  destruct f; try (now elim F); cbn [tag] in K;
    try rewrite O1 by discriminate;
    try rewrite O2 by discriminate;
    try rewrite O3 by discriminate;
    rewrite K; cbn [field_string tag append];
    destruct (store_string _ v _) as [s e]; eexists; split; reflexivity.
Qed.

(** A member with another key leaves what the field holds. *)
Lemma decode_member_field_other f j saved m st' :
  key_is (tag f) (fst m) = false ->
  decode_member (j, saved) m = OK st' ->
  field_string f (fst st') = field_string f j.
Proof.
  destruct m as [key v]. cbn [fst]. intros K. unfold decode_member.
  destruct (key_is "slot" key) eqn:K1.
  { destruct (store_string _ v _). intros E; inversion E; subst.
    destruct f; try reflexivity. cbn in K. congruence. }
  destruct (key_is "proposer_index" key) eqn:K2.
  { destruct (store_string _ v _). intros E; inversion E; subst.
    destruct f; try reflexivity. cbn in K. congruence. }
  destruct (key_is "parent_root" key) eqn:K3.
  { destruct (store_string _ v _). intros E; inversion E; subst.
    destruct f; try reflexivity. cbn in K. congruence. }
  destruct (key_is "state_root" key) eqn:K4.
  { destruct (store_string _ v _). intros E; inversion E; subst.
    destruct f; try reflexivity. cbn in K. congruence. }
  destruct (key_is "body" key) eqn:K5.
  { destruct v; [intros E; inversion E; subst; now destruct f | ..];
      (destruct (codec_UnmarshalJSON _); cbn [bind];
       intros E; inversion E; subst; now destruct f). }
  intros E; inversion E; subst. reflexivity.
Qed.

Lemma decode_members_field_lacks f ms : forall j saved st',
  lacks f ms = true ->
  decode_members ms (j, saved) = OK st' ->
  field_string f (fst st') = field_string f j.
Proof.
  induction ms as [|m ms IH]; intros j saved st' L D.
  - cbn in D. inversion D; subst. reflexivity.
  - cbn [lacks forallb] in L. apply andb_prop in L as [L1 L2].
    apply negb_true_iff in L1. cbn [decode_members] in D.
    destruct (decode_member (j, saved) m) as [[j1 s1]|e] eqn:E;
      [|discriminate D].
    cbn [bind] in D.
    etransitivity; [eapply IH; eassumption|].
    change j1 with (fst (j1, s1)).
    eapply decode_member_field_other; eassumption.
Qed.

(** The error the decoder keeps is the first one: a member leaves it, or
    sets a type error where there was none. *)
Lemma decode_member_saved j saved m j' saved' :
  decode_member (j, saved) m = OK (j', saved') ->
  saved' = saved \/
  (saved = None /\ exists kind name,
      saved' = Some (UnmarshalTypeError kind name)).
Proof.
  destruct m as [key v]. unfold decode_member.
  assert (S : forall name old s e,
             store_string name v old = (s, e) ->
             save_error saved e = saved \/
             (saved = None /\ exists kind name,
                 save_error saved e = Some (UnmarshalTypeError kind name))).
  { intros name old s e St. destruct saved as [e0|]; [now left|].
    destruct v; cbn in St; inversion St; subst; cbn [save_error];
      eauto 6. }
  repeat match goal with
         | |- context [if key_is ?t key then _ else _] =>
             destruct (key_is t key);
             [ first
                 [ destruct (store_string _ v _) as [s e] eqn:St;
                   intros E; inversion E; subst; exact (S _ _ _ _ St)
                 | destruct v;
                   try (destruct (codec_UnmarshalJSON _); cbn [bind]);
                   intros E; inversion E; subst; now left ]
             | ]
         end.
  intros E; inversion E; subst. now left.
Qed.

End Members.

Section MembersTogether.

Context {BeaconBlockBody : Type} `{TextCodec BeaconBlockBody}.
Implicit Types (b : BeaconBlock BeaconBlockBody)
               (j : beaconBlockJSON BeaconBlockBody).

(** Once a member of the wrong type was met, the decoder ends with a
    type error. *)
Lemma decode_members_wrong_type f key v ms : forall j saved st',
  f <> FBody -> key_is (tag f) key = true -> string_or_null v = false ->
  In (key, v) ms ->
  saved = None \/ (exists kind name,
                     saved = Some (UnmarshalTypeError kind name)) ->
  decode_members ms (j, saved) = OK st' ->
  exists kind name, snd st' = Some (UnmarshalTypeError kind name).
Proof.
  induction ms as [|m ms IH]; intros j saved st' F K V I S D;
    [destruct I|].
  cbn [decode_members] in D.
  destruct (decode_member (j, saved) m) as [[j1 s1]|e] eqn:E;
    [|discriminate D].
  cbn [bind] in D.
  assert (S1 : s1 = None \/ (exists kind name,
                               s1 = Some (UnmarshalTypeError kind name))).
  { destruct (@decode_member_saved _ _ _ _ _ _ _ E) as [->|[_ T]];
      [exact S | now right]. }
  destruct I as [->|I]; [|exact (IH _ _ _ F K V I S1 D)].
  destruct (@decode_member_string _ _ f j saved key v F K) as (j' & E' & _).
  rewrite E in E'.
  assert (Es : s1 = save_error saved
                      (snd (store_string ("beaconBlockJSON." ++ tag f) v
                              (field_string f j)))) by congruence.
  assert (T : exists kind name, s1 = Some (UnmarshalTypeError kind name)).
  { rewrite Es. destruct S as [->|(kind & name & ->)]; [|cbn; eauto].
    destruct v; try discriminate V; cbn; eauto. }
  destruct T as (kind & name & ->).
  rewrite (decode_members_saved _ _ _ D). eauto.
Qed.

End MembersTogether.

(* ================================================================= *)
(** ** A field that is there and empty *)

Lemma without_lacks f ms : lacks f ms = true -> without f ms = ms.
Proof.
  unfold lacks, without. induction ms as [|m ms IH]; cbn [forallb filter].
  - reflexivity.
  - intros L. apply andb_prop in L. destruct L as [L1 L2].
    rewrite L1. now rewrite (IH L2).
Qed.

Lemma without_member f ms1 key v ms2 :
  key_is (tag f) key = true -> lacks f ms2 = true ->
  without f (ms1 ++ (key, v) :: ms2) = (without f ms1 ++ ms2)%list.
Proof.
  intros K L. unfold without at 1. rewrite filter_app. cbn [filter fst].
  rewrite K. cbn [negb]. fold (without f ms1). fold (without f ms2).
  now rewrite (without_lacks _ _ L).
Qed.

(** C9.  A text with the empty string for the slot, the proposer index
    or a root, and the text of the same object without the members of
    that field, are read by [json.Unmarshal] as the same fields, with
    the empty string in the field, so [unpack] is called with the same
    argument and the two calls of [UnmarshalJSON] return the same.  The
    call fails, and when every field declared before the empty one
    passes the error is "<field> missing", as it is for the field that
    is not there. *)
Theorem C9_empty_is_absent
    {BeaconBlockBody : Type} `{TextCodec BeaconBlockBody}
    (b : BeaconBlock BeaconBlockBody) (input input' : string)
    (ms1 ms2 : list (string * json)) (key : string)
    (j : beaconBlockJSON BeaconBlockBody) (f : field) :
  f <> FBody -> key_is (tag f) key = true -> lacks f ms2 = true ->
  parse input = OK (JObject (ms1 ++ (key, JString "") :: ms2)) ->
  parse input' = OK (JObject (without f ms1 ++ ms2)) ->
  Unmarshal_beaconBlockJSON input = OK j ->
  field_string f j = "" /\
  Unmarshal_beaconBlockJSON input' = OK j /\
  UnmarshalJSON b input = unpack b j /\
  UnmarshalJSON b input' = unpack b j /\
  (exists e, snd (unpack b j) = Some e) /\
  (reaches f j = true ->
   unpack b j = (stored_before f b j, Some (missing f))).
Proof.
  intros F K L P P' U.
  assert (D : decode_beaconBlockJSON (JObject (ms1 ++ (key, JString "") :: ms2))
              = OK j).
  { unfold Unmarshal_beaconBlockJSON in U. now rewrite P in U. }
  assert (E : field_string f j = "").
  { cbn [decode_beaconBlockJSON] in D. rewrite decode_members_app in D.
    destruct (decode_members ms1 (zero_beaconBlockJSON, None))
      as [[j1 s1]|e]; [|discriminate D].
    cbn [bind decode_members] in D.
    destruct (@decode_member_string _ _ f j1 s1 key (JString "") F K)
      as (j2 & E2 & V).
    rewrite E2 in D. cbn [bind] in D. cbn [store_string fst] in V.
    destruct (decode_members ms2 _) as [[j3 s3]|e] eqn:D2; [|discriminate D].
    cbn [bind snd fst] in D. destruct s3; [discriminate D|].
    assert (Ej : j = j3) by congruence. subst j3.
    rewrite <- V. change j with (fst (j, @None error)).
    exact (@decode_members_field_lacks _ _ f ms2 _ _ _ L D2). }
  assert (A : absent f j = true).
  { destruct f; try (now elim F); cbn [absent field_string] in *;
      rewrite E; reflexivity. }
  assert (U' : Unmarshal_beaconBlockJSON input' = OK j).
  { unfold Unmarshal_beaconBlockJSON. rewrite P'. cbn [bind].
    rewrite <- (@without_member f ms1 key (JString "") ms2 K L).
    now apply decode_without. }
  split; [exact E|]. split; [exact U'|].
  unfold UnmarshalJSON. rewrite U, U'.
  split; [reflexivity|]. split; [reflexivity|]. split.
  - pose proof (absent_not_passes f j A) as NP.
    destruct (unpack b j) as [b' [e|]] eqn:Up; [now exists e|].
    eapply unpack_succeeds_inv in Up. rewrite Up in NP. discriminate NP.
  - intros R. now apply unpack_absent.
Qed.

Lemma C9_witness :
  field_string FSlot (@zero_beaconBlockJSON SampleBody) = "" /\
  Unmarshal_beaconBlockJSON (encode (JObject [])) = OK zero_beaconBlockJSON /\
  UnmarshalJSON sample_zero (encode (JObject [("slot", JString "")]))
    = unpack sample_zero zero_beaconBlockJSON /\
  UnmarshalJSON sample_zero (encode (JObject []))
    = unpack sample_zero zero_beaconBlockJSON /\
  (exists e, snd (unpack sample_zero zero_beaconBlockJSON) = Some e) /\
  unpack sample_zero zero_beaconBlockJSON
    = (sample_zero, Some (New "slot missing")).
Proof.
  pose proof (@C9_empty_is_absent _ _ sample_zero
                (encode (JObject [("slot", JString "")]))
                (encode (JObject []))
                [] [] "slot" zero_beaconBlockJSON FSlot
                ltac:(discriminate) eq_refl eq_refl eq_refl eq_refl eq_refl)
    as (E & U & I & I' & F & R).
  exact (conj E (conj U (conj I (conj I' (conj F (R eq_refl)))))).
Defined.

(** X14. A member for the slot, the proposer index or a root whose
    value is a number, a boolean, an array or an object makes
    [UnmarshalJSON] fail with "invalid JSON" before [unpack] is called:
    the receiver is left as it was, and the error inside is a type error
    of [encoding/json] unless the decoder of the body failed. *)
Theorem X14_field_of_wrong_type
    {BeaconBlockBody : Type} `{TextCodec BeaconBlockBody}
    (b : BeaconBlock BeaconBlockBody) (input : string)
    (ms : list (string * json)) (f : field) (key : string) (v : json) :
  parse input = OK (JObject ms) -> In (key, v) ms ->
  f <> FBody -> key_is (tag f) key = true -> string_or_null v = false ->
  exists e,
    UnmarshalJSON b input = (b, Some (Wrap e "invalid JSON")) /\
    (forall st, decode_members ms (zero_beaconBlockJSON, None) = OK st ->
       exists kind name, e = UnmarshalTypeError kind name).
Proof.
  intros P I F K V. unfold UnmarshalJSON, Unmarshal_beaconBlockJSON.
  rewrite P. cbn [bind decode_beaconBlockJSON].
  destruct (decode_members ms (zero_beaconBlockJSON, None)) as [st|e] eqn:D;
    cbn [bind].
  - destruct (@decode_members_wrong_type _ _ f key v ms _ _ _ F K V I
                (or_introl eq_refl) D)
      as (kind & name & T).
    rewrite T. eexists. split; [reflexivity|]. eauto.
  - exists e. split; [reflexivity|]. intros st E. discriminate E.
Qed.

Lemma X14_witness :
  exists e,
    UnmarshalJSON sample_zero (encode (JObject [("slot", JNumber "1")]))
    = (sample_zero, Some (Wrap e "invalid JSON")) /\
    (forall st,
       decode_members (BeaconBlockBody := SampleBody)
         [("slot", JNumber "1")] (zero_beaconBlockJSON, None) = OK st ->
       exists kind name, e = UnmarshalTypeError kind name).
Proof.
  refine (@X14_field_of_wrong_type _ _ sample_zero
            (encode (JObject [("slot", JNumber "1")]))
            [("slot", JNumber "1")] FSlot "slot" (JNumber "1")
            _ (or_introl eq_refl) _ eq_refl eq_refl).
  - vm_compute. reflexivity.
  - discriminate.
Defined.

(** X15. [json.Unmarshal] passes over a member whose key is the tag of
    no field, and over a [null] given for the slot, the proposer index
    or a root: with or without such a member, wherever it stands in the
    object, [UnmarshalJSON] returns the same block and the same
    error. *)
Theorem X15_members_passed_over
    {BeaconBlockBody : Type} `{TextCodec BeaconBlockBody}
    (b : BeaconBlock BeaconBlockBody) (input input' : string)
    (ms1 ms2 : list (string * json)) (m : string * json) :
  passed_over m = true ->
  parse input = OK (JObject (ms1 ++ m :: ms2)) ->
  parse input' = OK (JObject (ms1 ++ ms2)) ->
  decode_beaconBlockJSON (BeaconBlockBody := BeaconBlockBody)
    (JObject (ms1 ++ m :: ms2))
  = decode_beaconBlockJSON (JObject (ms1 ++ ms2)) /\
  UnmarshalJSON b input = UnmarshalJSON b input'.
Proof.
  intros S P P'.
  assert (D : decode_beaconBlockJSON (BeaconBlockBody := BeaconBlockBody)
                (JObject (ms1 ++ m :: ms2))
              = decode_beaconBlockJSON (JObject (ms1 ++ ms2))).
  { cbn [decode_beaconBlockJSON]. rewrite !decode_members_app.
    destruct (decode_members ms1 (zero_beaconBlockJSON, None)) as [st|e];
      cbn [bind]; [|reflexivity].
    cbn [decode_members]. now rewrite (decode_member_passed_over st m S). }
  split; [exact D|].
  unfold UnmarshalJSON, Unmarshal_beaconBlockJSON.
  rewrite P, P'. cbn [bind]. now rewrite D.
Qed.

Lemma X15_witness :
  UnmarshalJSON sample_zero
    (encode (JObject [("slot", JString "1"); ("graffiti", JBool true)]))
  = UnmarshalJSON sample_zero text_slot_only.
Proof.
  refine (proj2 (@X15_members_passed_over _ _ sample_zero _ _
                   [("slot", JString "1")] [] ("graffiti", JBool true)
                   eq_refl _ _)).
  - vm_compute. reflexivity.
  - vm_compute. reflexivity.
Defined.

(** X16. Of several members for the same field of type [string], the
    last one is kept: after a member with a string for the slot, the
    proposer index or a root, and no later member with that key, the
    field holds that string whatever the members before gave it. *)
Theorem X16_last_member_is_kept
    {BeaconBlockBody : Type} `{TextCodec BeaconBlockBody}
    (ms1 ms2 : list (string * json)) (f : field) (key s : string)
    (j : beaconBlockJSON BeaconBlockBody) :
  f <> FBody -> key_is (tag f) key = true -> lacks f ms2 = true ->
  decode_beaconBlockJSON (JObject (ms1 ++ (key, JString s) :: ms2)) = OK j ->
  field_string f j = s.
Proof.
  intros F K L D. cbn [decode_beaconBlockJSON] in D.
  rewrite decode_members_app in D.
  destruct (decode_members ms1 (zero_beaconBlockJSON, None)) as [[j1 s1]|e];
    [|discriminate D].
  cbn [bind decode_members] in D.
  destruct (@decode_member_string _ _ f j1 s1 key (JString s) F K)
    as (j2 & E & V).
  rewrite E in D. cbn [bind] in D. cbn [store_string fst] in V.
  destruct (decode_members ms2 _) as [[j3 s3]|e] eqn:D2; [|discriminate D].
  cbn [bind snd fst] in D. destruct s3; [discriminate D|].
  assert (Ej : j = j3) by congruence. subst j3.
  rewrite <- V. change j with (fst (j, @None error)).
  exact (@decode_members_field_lacks _ _ f ms2 _ _ _ L D2).
Qed.

Lemma X16_witness :
  field_string FSlot
    (mkBeaconBlockJSON "2" "" "" "" (@None SampleBody)) = "2".
Proof.
  refine (@X16_last_member_is_kept _ _ [("slot", JString "1")] []
            FSlot "SLOT" "2" _ _ eq_refl eq_refl eq_refl).
  discriminate.
Defined.

(** ** MarshalYAML *)

Lemma ReplaceAll_has_byte s old new :
  old <> new -> has_byte old (ReplaceAll s old new) = false.
Proof.
  intros N. induction s as [|c s IH]; [reflexivity|].
  cbn [ReplaceAll has_byte]. rewrite IH, orb_false_r.
  destruct (Ascii.eqb c old) eqn:E; [|exact E].
  apply Ascii.eqb_neq. congruence.
Qed.

Lemma ReplaceAll_length s old new :
  String.length (ReplaceAll s old new) = String.length s.
Proof. induction s as [|c s IH]; cbn; [reflexivity | now rewrite IH]. Qed.

Lemma ReplaceAll_get s old new : forall n,
  String.get n (ReplaceAll s old new)
  = option_map (fun c => if Ascii.eqb c old then new else c) (String.get n s).
Proof.
  induction s as [|c s IH]; intros [|n]; cbn [ReplaceAll String.get option_map];
    try reflexivity.
  apply IH.
Qed.

(** X17. The text [MarshalYAML] returns holds no double quote, whatever
    the block and whatever its body writes: it is the one-line document
    of [yaml.MarshalWithOptions] with every double quote turned into a
    single quote and every other byte left in its place, also the double
    quotes that stand inside a string of the body. *)
Theorem X17_MarshalYAML_has_no_double_quote
    {BeaconBlockBody : Type} `{TextCodec BeaconBlockBody}
    (v : BeaconBlock BeaconBlockBody) (n : nat) :
  let doc := yaml_Marshal_flow (tree_of_beaconBlockYAML (to_beaconBlockYAML v)) in
  has_byte dquote (MarshalYAML v) = false /\
  String.length (MarshalYAML v) = String.length doc /\
  String.get n (MarshalYAML v)
  = option_map (fun c => if Ascii.eqb c dquote then "'"%char else c)
      (String.get n doc).
Proof.
  intros doc. unfold MarshalYAML. fold doc. split; [|split].
  - apply ReplaceAll_has_byte. discriminate.
  - apply ReplaceAll_length.
  - apply ReplaceAll_get.
Qed.

(** ** The field an error of unpack is about *)

Section FirstFailure.

Context {BeaconBlockBody : Type}.
Implicit Types (b : BeaconBlock BeaconBlockBody)
               (j : beaconBlockJSON BeaconBlockBody).

(** [unpack] comes to one field that does not pass, the first. *)
Lemma first_failure_unique j f g :
  reaches f j = true -> passes f j = false ->
  reaches g j = true -> passes g j = false -> f = g.
Proof.
  intros Rf Pf Rg Pg.
  destruct f, g; try reflexivity; exfalso;
    cbn [reaches all_fields filter position Nat.ltb Nat.leb forallb] in Rf, Rg;
    repeat match goal with
           | H : _ && _ = true |- _ => apply andb_prop in H; destruct H
           end;
    congruence.
Qed.

(** The errors of two fields are not the same. *)
Lemma field_failure_label f g e :
  field_failure f e -> field_failure g e -> f = g.
Proof.
  unfold field_failure, missing, invalid_value, incorrect_length.
  intros [Ef|[[c Ef]|Ef]] [Eg|[[c' Eg]|Eg]]; rewrite Ef in Eg;
    destruct f, g; try reflexivity; discriminate Eg.
Qed.

End FirstFailure.

(** X18. An error of [unpack] is about one field, the first in the
    order slot, proposer index, parent root, state root, body that is
    absent or cannot be read: whatever the later fields hold, the error
    is one of the three errors of that field and of no other, and the
    fields before it are stored. *)
Theorem X18_error_names_first_bad_field
    {BeaconBlockBody : Type}
    (b : BeaconBlock BeaconBlockBody) (j : beaconBlockJSON BeaconBlockBody)
    (f : field) :
  reaches f j = true -> passes f j = false ->
  exists e,
    unpack b j = (stored_before f b j, Some e) /\
    field_failure f e /\
    forall g, field_failure g e -> g = f.
Proof.
  intros R P. destruct (unpack b j) as [b' [e|]] eqn:U.
  - destruct (unpack_fails_at _ _ U) as (g & Rg & Pg & -> & Fg).
    assert (E : g = f) by exact (first_failure_unique _ _ _ Rg Pg R P).
    subst g. exists e. split; [reflexivity|]. split; [exact Fg|].
    intros g Fg'. exact (field_failure_label Fg' Fg).
  - pose proof (unpack_succeeds_inv _ _ U f) as P'. congruence.
Qed.

Lemma X18_witness :
  exists e,
    unpack sample_zero fields_bad_slot_empty_index = (sample_zero, Some e) /\
    field_failure FSlot e /\
    forall g, field_failure g e -> g = FSlot.
Proof.
  exact (@X18_error_names_first_bad_field _ sample_zero
           fields_bad_slot_empty_index FSlot eq_refl eq_refl).
Defined.

(** ** The spelling MarshalJSON writes *)

Lemma string_snoc_cases s :
  s = "" \/ exists s' c, s = s' ++ String c "".
Proof.
  induction s as [|c s IH]; [now left|]. right.
  destruct IH as [->|(s' & d & ->)].
  - now exists "", c.
  - now exists (String c s'), d.
Qed.

Lemma length_append s1 s2 :
  String.length (s1 ++ s2) = (String.length s1 + String.length s2)%nat.
Proof. induction s1 as [|c s1 IH]; cbn; [reflexivity | now rewrite IH]. Qed.

(** Induction on a string from its end. *)
Lemma string_snoc_ind (P : string -> Prop) :
  P "" -> (forall s c, P s -> P (s ++ String c "")) -> forall s, P s.
Proof.
  intros H0 H1 s. remember (String.length s) as n eqn:L.
  revert s L. induction n as [|n IH]; intros s L.
  - destruct s; [exact H0 | discriminate L].
  - destruct (string_snoc_cases s) as [->|(s' & c & ->)]; [discriminate L|].
    apply H1, IH. rewrite length_append in L. cbn in L. lia.
Qed.

Lemma decimal_loop_app s1 s2 n :
  decimal_loop (s1 ++ s2) n = decimal_loop s2 (decimal_loop s1 n).
Proof.
  revert n. induction s1 as [|c s1 IH]; intros n; cbn [append decimal_loop];
    [reflexivity | apply IH].
Qed.

Lemma all_digits_app s1 s2 :
  all_digits (s1 ++ s2) = all_digits s1 && all_digits s2.
Proof.
  induction s1 as [|c s1 IH]; cbn [append all_digits]; [reflexivity|].
  now rewrite IH, andb_assoc.
Qed.

Lemma is_digit_ascii c :
  is_digit c = true -> ascii_of_N (48 + (N_of_ascii c - 48)) = c.
Proof.
  unfold is_digit. intros D. apply andb_prop in D. destruct D as [L _].
  apply N.leb_le in L. replace (48 + (N_of_ascii c - 48)) with (N_of_ascii c)
    by lia.
  apply ascii_N_embedding.
Qed.

(** The rounds of [%d] do not depend on the fuel, once there is enough
    of it. *)
Lemma fmt_d_loop_fuel fuel : forall fuel' n acc,
  n < 10 * 2 ^ N.of_nat fuel -> n < 10 * 2 ^ N.of_nat fuel' ->
  fmt_d_loop fuel n acc = fmt_d_loop fuel' n acc.
Proof.
  induction fuel as [|fuel IH]; intros fuel' n acc B B'.
  - cbn in B. destruct fuel' as [|fuel']; cbn [fmt_d_loop]; [reflexivity|].
    now replace (n <? 10) with true by (symmetry; apply N.ltb_lt; lia).
  - cbn [fmt_d_loop]. destruct (N.ltb_spec n 10) as [S|S].
    + destruct fuel' as [|fuel']; cbn [fmt_d_loop]; [reflexivity|].
      now replace (n <? 10) with true by (symmetry; apply N.ltb_lt; lia).
    + destruct fuel' as [|fuel']; [cbn in B'; lia|]. cbn [fmt_d_loop].
      replace (n <? 10) with false by (symmetry; apply N.ltb_ge; lia).
      rewrite Nat2N.inj_succ, N.pow_succ_r' in B, B'.
      apply IH; apply N.Div0.div_lt_upper_bound; lia.
Qed.

Lemma Sprintf_d_fuel n fuel :
  n < 10 * 2 ^ N.of_nat fuel -> Sprintf_d n = fmt_d_loop fuel n "".
Proof.
  intros B. unfold Sprintf_d. apply fmt_d_loop_fuel; [|exact B].
  rewrite N2Nat.id. destruct (N.eq_dec n 0) as [->|NZ]; [cbn; lia|].
  pose proof (N.log2_spec n ltac:(lia)) as [_ U].
  rewrite N.pow_succ_r' in U. lia.
Qed.

Lemma fmt_d_loop_S fuel n acc :
  fmt_d_loop (S fuel) n acc =
  if n <? 10 then String (ascii_of_N (48 + n mod 10)) acc
  else fmt_d_loop fuel (n / 10) (String (ascii_of_N (48 + n mod 10)) acc).
Proof. reflexivity. Qed.

(** One more digit behind a number. *)
Lemma Sprintf_d_snoc m d :
  0 < m -> d < 10 ->
  Sprintf_d (m * 10 + d) = Sprintf_d m ++ String (ascii_of_N (48 + d)) "".
Proof.
  intros M D. set (fuel := N.to_nat (N.log2 m)).
  assert (B : m < 10 * 2 ^ N.of_nat fuel).
  { unfold fuel. rewrite N2Nat.id.
    pose proof (N.log2_spec m M) as [_ U]. rewrite N.pow_succ_r' in U. lia. }
  rewrite (@Sprintf_d_fuel (m * 10 + d) (S (S (S (S fuel))))).
  2:{ rewrite !Nat2N.inj_succ, !N.pow_succ_r'. lia. }
  rewrite (@Sprintf_d_fuel m (S (S (S fuel)))).
  2:{ rewrite !Nat2N.inj_succ, !N.pow_succ_r'. lia. }
  rewrite (fmt_d_loop_S (S (S (S fuel))) (m * 10 + d)).
  replace (m * 10 + d <? 10) with false by (symmetry; apply N.ltb_ge; lia).
  replace ((m * 10 + d) mod 10) with d
    by (apply N.mod_unique with m; lia).
  replace ((m * 10 + d) / 10) with m
    by (apply N.div_unique with d; lia).
  apply fmt_d_loop_acc.
Qed.

(** [%d] writes back a string of digits that has no zero in front. *)
Lemma Sprintf_d_decimal s :
  all_digits s = true -> s <> "" -> leading_zero s = false ->
  Sprintf_d (decimal s) = s.
Proof.
  unfold decimal. induction s as [|s c IH] using string_snoc_ind;
    intros A Z L; [now elim Z|].
  rewrite all_digits_app in A. apply andb_prop in A. destruct A as [A D].
  cbn [all_digits] in D. rewrite andb_true_r in D.
  pose proof (is_digit_value _ D) as V. pose proof (is_digit_ascii _ D) as E.
  rewrite decimal_loop_app. cbn [decimal_loop].
  destruct s as [|a t].
  - cbn [decimal_loop append]. change (0 * 10) with 0. rewrite N.add_0_l.
    rewrite (@Sprintf_d_fuel _ 0) by (cbn; lia). cbn [fmt_d_loop].
    rewrite N.mod_small by exact V. now rewrite E.
  - assert (Na : Ascii.eqb a "0" = false)
      by (destruct t; exact L).
    assert (Pa : 0 < decimal_loop (String a t) 0).
    { cbn [decimal_loop]. cbn [all_digits] in A.
      apply andb_prop in A. destruct A as [Da _].
      pose proof (decimal_loop_le t (0 * 10 + (N_of_ascii a - 48))) as G.
      assert (N_of_ascii a <> 48).
      { intros X. apply Ascii.eqb_neq in Na. apply Na.
        rewrite <- (ascii_N_embedding a), X. reflexivity. }
      unfold is_digit in Da. apply andb_prop in Da. destruct Da as [Lo _].
      apply N.leb_le in Lo. lia. }
    rewrite (Sprintf_d_snoc Pa V), E. f_equal.
    apply IH; [exact A | discriminate | now destruct t].
Qed.

Lemma fromHexChar_lower c a :
  fromHexChar c = Some a ->
  (65 <=? N_of_ascii c) && (N_of_ascii c <=? 70) = false ->
  hex_char a = c /\ a < 16.
Proof.
  destruct c as [[|] [|] [|] [|] [|] [|] [|] [|]]; vm_compute;
    intros E U; try discriminate E; try discriminate U;
    inversion E; subst; vm_compute; split; reflexivity.
Qed.

Lemma byte_of_N_hex a b :
  a < 16 -> b < 16 ->
  Byte.to_N (byte_of_N (a * 16 + b)) / 16 = a /\
  Byte.to_N (byte_of_N (a * 16 + b)) mod 16 = b.
Proof.
  intros A B. unfold byte_of_N.
  destruct (Byte.of_N (a * 16 + b)) as [x|] eqn:E.
  - apply Byte.to_of_N in E. rewrite E. split.
    + symmetry. apply N.div_unique with b; lia.
    + symmetry. apply N.mod_unique with a; lia.
  - apply Byte.of_N_None_iff in E. lia.
Qed.

(** [hex.EncodeToString] writes back a string of digits that has no
    letter in upper case. *)
Lemma hex_encode_DecodeString s : forall bs,
  DecodeString s = OK bs -> has_upper_hex s = false -> hex_encode bs = s.
Proof.
  induction s as [|c|c d s IH] using string_pair_ind; intros bs D U;
    cbn [DecodeString] in D.
  - assert (E : bs = []) by congruence. now subst bs.
  - destruct (fromHexChar c); discriminate D.
  - cbn [has_upper_hex] in U.
    apply orb_false_elim in U. destruct U as [Uc U].
    apply orb_false_elim in U. destruct U as [Ud U].
    destruct (fromHexChar c) as [a|] eqn:Fc; [|discriminate D].
    destruct (fromHexChar d) as [b|] eqn:Fd; [|discriminate D].
    destruct (DecodeString s) as [bs'|] eqn:D'; [|discriminate D].
    cbn [bind] in D.
    assert (E : bs = byte_of_N (a * 16 + b) :: bs') by congruence. subst bs.
    destruct (fromHexChar_lower _ Fc Uc) as [Ha La].
    destruct (fromHexChar_lower _ Fd Ud) as [Hb Lb].
    destruct (byte_of_N_hex La Lb) as [Q R].
    cbn [hex_encode]. rewrite Q, R, Ha, Hb. now rewrite (IH _ eq_refl U).
Qed.

(** The first digit [%d] writes is a zero for the number 0 alone. *)
Lemma fmt_d_loop_first fuel : forall n acc,
  n < 10 * 2 ^ N.of_nat fuel ->
  exists c rest,
    fmt_d_loop fuel n acc = String c (rest ++ acc) /\
    (n < 10 -> rest = "" /\ c = ascii_of_N (48 + n)) /\
    (10 <= n -> c <> "0"%char).
Proof.
  assert (Z : forall k, k < 10 -> ascii_of_N (48 + k) = "0"%char -> k = 0).
  { intros k K E.
    assert (X : N_of_ascii (ascii_of_N (48 + k)) = 48) by now rewrite E.
    rewrite N_ascii_embedding in X by lia. lia. }
  assert (Small : forall fuel n acc, n < 10 ->
            fmt_d_loop fuel n acc = String (ascii_of_N (48 + n)) acc).
  { intros [|k] n acc S; [cbn [fmt_d_loop]|rewrite fmt_d_loop_S];
      rewrite N.mod_small by exact S; [reflexivity|].
    now replace (n <? 10) with true by (symmetry; apply N.ltb_lt; exact S). }
  induction fuel as [|fuel IH]; intros n acc B.
  - cbn in B. exists (ascii_of_N (48 + n)), "".
    split; [now apply Small|]. split; [now split | lia].
  - destruct (N.lt_ge_cases n 10) as [S|S].
    + exists (ascii_of_N (48 + n)), "".
      split; [now apply Small|]. split; [now split | lia].
    + rewrite fmt_d_loop_S.
      replace (n <? 10) with false by (symmetry; apply N.ltb_ge; exact S).
      rewrite Nat2N.inj_succ, N.pow_succ_r' in B.
      assert (B' : n / 10 < 10 * 2 ^ N.of_nat fuel)
        by (apply N.Div0.div_lt_upper_bound; lia).
      assert (P : 1 <= n / 10) by (apply N.div_le_lower_bound; lia).
      destruct (IH (n / 10) (String (ascii_of_N (48 + n mod 10)) acc) B')
        as (c & rest & E & F1 & F2).
      exists c, (rest ++ String (ascii_of_N (48 + n mod 10)) "").
      split; [|split; [lia|]].
      * rewrite E. f_equal. now rewrite append_assoc.
      * intros _ C. destruct (N.lt_ge_cases (n / 10) 10) as [Q|Q].
        -- destruct (F1 Q) as [_ Ec]. rewrite C in Ec. symmetry in Ec.
           apply Z in Ec; [lia | exact Q].
        -- now apply F2.
Qed.

Lemma leading_zero_Sprintf_d n : leading_zero (Sprintf_d n) = false.
Proof.
  unfold Sprintf_d.
  destruct (@fmt_d_loop_first (N.to_nat (N.log2 n)) n "")
    as (c & rest & E & F1 & F2).
  { rewrite N2Nat.id. destruct (N.eq_dec n 0) as [->|NZ]; [cbn; lia|].
    pose proof (N.log2_spec n ltac:(lia)) as [_ U].
    rewrite N.pow_succ_r' in U. lia. }
  rewrite E, append_nil_r. destruct (N.lt_ge_cases n 10) as [S|S].
  - destruct (F1 S) as [-> _]. reflexivity.
  - destruct rest; [reflexivity|]. cbn [leading_zero].
    apply Ascii.eqb_neq. now apply F2.
Qed.

Lemma has_upper_hex_hex_encode bs : has_upper_hex (hex_encode bs) = false.
Proof.
  induction bs as [|b bs IH]; [reflexivity|].
  cbn [hex_encode has_upper_hex]. rewrite IH, orb_false_r.
  destruct b; reflexivity.
Qed.

(** The spelling of a number that is read: [%d] writes it back when
    there is no zero in front, and only then. *)
Lemma ParseUint_spelling s n :
  ParseUint s = OK n -> (s = Sprintf_d n <-> leading_zero s = false).
Proof.
  intros P. split.
  - intros ->. apply leading_zero_Sprintf_d.
  - intros L. apply ParseUint_OK_iff in P.
    destruct P as (Z & A & _ & ->). symmetry.
    now apply Sprintf_d_decimal.
Qed.

Lemma prefix_0x_Sprintf_sharp_x bs :
  String.prefix "0x" (Sprintf_sharp_x bs) = true.
Proof. unfold Sprintf_sharp_x. now destruct (hex_encode bs). Qed.

(** The spelling of a root that is read. *)
Lemma root_bytes_spelling s bs :
  root_bytes s = OK bs ->
  (s = Sprintf_sharp_x bs <->
   String.prefix "0x" s = true /\ has_upper_hex s = false).
Proof.
  intros R. split.
  - intros ->. split; [apply prefix_0x_Sprintf_sharp_x|].
    unfold Sprintf_sharp_x. cbn [append has_upper_hex].
    apply has_upper_hex_hex_encode.
  - intros [P U]. unfold root_bytes in R.
    rewrite (prefix_0x _ P) in U |- *. cbn [append has_upper_hex] in U.
    unfold Sprintf_sharp_x. f_equal. symmetry.
    exact (hex_encode_DecodeString _ R U).
Qed.

(** X19. Among the strings [strconv.ParseUint] reads as a number, the one
    [%d] writes for it is the only one without a zero in front: zeros in
    front are all the freedom there is in the spelling of a slot or of a
    proposer index. *)
Theorem X19_decimal_spelling (s : string) (n : N) :
  ParseUint s = OK n ->
  (s = Sprintf_d n <-> leading_zero s = false) /\
  (leading_zero s = false -> forall s',
     ParseUint s' = OK n -> leading_zero s' = false -> s' = s).
Proof.
  intros P. pose proof (@ParseUint_spelling _ _ P) as S.
  split; [exact S|]. intros L s' P' L'.
  rewrite (proj2 S L). exact (proj2 (@ParseUint_spelling _ _ P') L').
Qed.

Lemma X19_witness :
  ("7" = Sprintf_d 7 <-> leading_zero "7" = false) /\
  ("07" = Sprintf_d 7 <-> leading_zero "07" = false).
Proof.
  split.
  - exact (proj1 (@X19_decimal_spelling "7" 7 eq_refl)).
  - exact (proj1 (@X19_decimal_spelling "07" 7 eq_refl)).
Defined.

(** X20. Among the strings [unpack] reads as the bytes of a root, the
    one [%#x] writes for them is the only one that has [0x] in front and
    no letter in upper case. *)
Theorem X20_root_spelling (s : string) (bs : list byte) :
  root_bytes s = OK bs ->
  (s = Sprintf_sharp_x bs <->
   String.prefix "0x" s = true /\ has_upper_hex s = false) /\
  (String.prefix "0x" s = true -> has_upper_hex s = false -> forall s',
     root_bytes s' = OK bs ->
     String.prefix "0x" s' = true -> has_upper_hex s' = false -> s' = s).
Proof.
  intros R. pose proof (@root_bytes_spelling _ _ R) as S.
  split; [exact S|]. intros P U s' R' P' U'.
  rewrite (proj2 S (conj P U)).
  exact (proj2 (@root_bytes_spelling _ _ R') (conj P' U')).
Qed.

Lemma X20_witness :
  let s := "0x" ++ hex_encode (repeat x11 32) in
  s = Sprintf_sharp_x (repeat x11 32) <->
  String.prefix "0x" s = true /\ has_upper_hex s = false.
Proof.
  intros s.
  exact (proj1 (@X20_root_spelling s (repeat x11 32)
                  (root_bytes_Sprintf_sharp_x (repeat x11 32)))).
Defined.

(** X21. When [unpack] succeeds, the fields [MarshalJSON] writes for the
    block read are the fields that were read exactly when these were
    spelled as [MarshalJSON] spells them: no zero in front of the
    integers, [0x] in front of the roots and no letter in upper case. *)
Theorem X21_fields_written_again
    {BeaconBlockBody : Type}
    (b v : BeaconBlock BeaconBlockBody)
    (j : beaconBlockJSON BeaconBlockBody) :
  well_typed b -> unpack b j = (v, None) ->
  (to_beaconBlockJSON v = j <-> canonical_fields j = true).
Proof.
  intros (_ & _ & W3 & W4) U.
  destruct (@unpack_success _ _ _ _ W3 W4 U)
    as (slot & index & parent & state & body &
        P1 & P2 & P3 & _ & P4 & _ & B & ->).
  pose proof (@ParseUint_spelling _ _ P1) as S1.
  pose proof (@ParseUint_spelling _ _ P2) as S2.
  pose proof (@root_bytes_spelling _ _ P3) as S3.
  pose proof (@root_bytes_spelling _ _ P4) as S4.
  unfold canonical_fields, to_beaconBlockJSON.
  cbn [Slot ProposerIndex ParentRoot StateRoot Body].
  destruct j as [s1 s2 s3 s4 bd].
  cbn [json_Slot json_ProposerIndex json_ParentRoot json_StateRoot json_Body]
    in *.
  subst bd. split.
  - intros E. inversion E as [[E1 E2 E3 E4]].
    rewrite !leading_zero_Sprintf_d, !prefix_0x_Sprintf_sharp_x.
    unfold Sprintf_sharp_x. cbn [append has_upper_hex].
    now rewrite !has_upper_hex_hex_encode.
  - intros C.
    apply andb_prop in C. destruct C as [C C4].
    apply andb_prop in C. destruct C as [C C3].
    apply andb_prop in C. destruct C as [C1 C2].
    apply andb_prop in C3. destruct C3 as [A3 B3].
    apply andb_prop in C4. destruct C4 as [A4 B4].
    apply negb_true_iff in C1, C2, B3, B4.
    rewrite <- (proj2 S1 C1), <- (proj2 S2 C2).
    now rewrite <- (proj2 S3 (conj A3 B3)), <- (proj2 S4 (conj A4 B4)).
Qed.

Lemma X21_witness :
  to_beaconBlockJSON sample_block = to_beaconBlockJSON sample_block <->
  canonical_fields (to_beaconBlockJSON sample_block) = true.
Proof.
  refine (@X21_fields_written_again _ sample_zero sample_block
            (to_beaconBlockJSON sample_block) zero_BeaconBlock_well_typed _).
  vm_compute. reflexivity.
Defined.

(* ================================================================= *)
(** ** Texts that are written back as they were read *)

Section Again.

Context {BeaconBlockBody : Type}.


End Again.



